(** * gfibot.data.dataset: point-in-time feature snapshots

    A shallow embedding of [gfibot/data/dataset.py].  Python [str] values
    are Rocq strings whose characters are read as code points below 256;
    Python [int] and [datetime] values are [Z]; MongoDB collections are
    lists of records in natural (insertion) order. *)

From Stdlib Require Import String Ascii List ZArith Bool Arith Lia.
From Stdlib Require Import Permutation.
Import ListNotations.
Open Scope string_scope.
Open Scope Z_scope.

(** ** Python strings and the three regular expressions of the module *)

Module PyStr.

Definition in_range (lo hi n : nat) : bool := (lo <=? n)%nat && (n <=? hi)%nat.

(** [\w] of the [re] module on [str] patterns: alphanumeric or underscore. *)
Definition is_word (c : ascii) : bool :=
  let n := nat_of_ascii c in
  in_range 48 57 n || in_range 65 90 n || (n =? 95)%nat || in_range 97 122 n
  || (n =? 170)%nat || in_range 178 179 n || (n =? 181)%nat
  || in_range 185 186 n || in_range 188 190 n
  || in_range 192 214 n || in_range 216 246 n || in_range 248 255 n.

(** [str.isspace], the separator set of [str.split()]. *)
Definition is_space (c : ascii) : bool :=
  let n := nat_of_ascii c in
  in_range 9 13 n || in_range 28 32 n || (n =? 133)%nat || (n =? 160)%nat.

(** [str.lower] on one character. *)
Definition lower_char (c : ascii) : ascii :=
  let n := nat_of_ascii c in
  if in_range 65 90 n || in_range 192 214 n || in_range 216 222 n
  then ascii_of_nat (n + 32) else c.

Fixpoint map_chars (f : ascii -> ascii) (s : string) : string :=
  match s with
  | EmptyString => EmptyString
  | String c s' => String (f c) (map_chars f s')
  end.

Definition lower (s : string) : string := map_chars lower_char s.

(** [s.replace("_", " ")]. *)
Definition underscores_to_spaces (s : string) : string :=
  map_chars (fun c => if Ascii.eqb c "_" then " "%char else c) s.

Fixpoint drop (n : nat) (s : string) : string :=
  match n, s with
  | O, _ => s
  | S _, EmptyString => EmptyString
  | S k, String _ s' => drop k s'
  end.

Fixpoint rev_onto (s acc : string) : string :=
  match s with
  | EmptyString => acc
  | String c s' => rev_onto s' (String c acc)
  end.

Definition reverse (s : string) : string := rev_onto s EmptyString.

(** [s.endswith(suffix)]. *)
Definition endswith (s suffix : string) : bool :=
  prefix (reverse suffix) (reverse s).

(** [pat in s] for two strings. *)
Fixpoint contains (pat s : string) : bool :=
  prefix pat s ||
  match s with
  | EmptyString => false
  | String _ s' => contains pat s'
  end.

(** [x in xs] for a list of strings. *)
Definition mem (x : string) (xs : list string) : bool :=
  existsb (String.eqb x) xs.

(** Longest prefix of [s] made of characters satisfying [p]. *)
Fixpoint take_while (p : ascii -> bool) (s : string) : string :=
  match s with
  | EmptyString => EmptyString
  | String c s' => if p c then String c (take_while p s') else EmptyString
  end.

(** [p.findall(s)] for a pattern given by its matcher at the head of a
    string; the matchers below never match the empty string.  After a
    match the scan resumes behind it ([skip] counts the characters of the
    match still to pass). *)
Fixpoint findall (m : string -> option string) (skip : nat) (s : string)
  : list string :=
  match s with
  | EmptyString => []
  | String _ s' =>
      match skip with
      | S k => findall m k s'
      | O =>
          match m s with
          | Some tok => tok :: findall m (pred (String.length tok)) s'
          | None => findall m 0 s'
          end
      end
  end.

(** [p.sub("", s)]. *)
Fixpoint erase (m : string -> option string) (skip : nat) (s : string)
  : string :=
  match s with
  | EmptyString => EmptyString
  | String c s' =>
      match skip with
      | S k => erase m k s'
      | O =>
          match m s with
          | Some tok => erase m (pred (String.length tok)) s'
          | None => String c (erase m 0 s')
          end
      end
  end.

(** The character class [[:/\w\.]]. *)
Definition url_char (c : ascii) : bool :=
  Ascii.eqb c ":" || Ascii.eqb c "/" || is_word c || Ascii.eqb c ".".

(** [http[:/\w\.]+] at the head of [s]. *)
Definition match_url (s : string) : option string :=
  if prefix "http" s then
    match take_while url_char (drop 4 s) with
    | EmptyString => None
    | tail => Some ("http" ++ tail)
    end
  else None.

Definition fence : string := "```".

(** Shortest prefix of [s] that ends with a fence. *)
Fixpoint upto_fence (s : string) : option string :=
  if prefix fence s then Some fence
  else match s with
       | EmptyString => None
       | String c s' => option_map (String c) (upto_fence s')
       end.

(** [```.+?```] with [re.S] at the head of [s]. *)
Definition match_snippet (s : string) : option string :=
  if prefix fence s then
    match drop 3 s with
    | EmptyString => None
    | String c r => option_map (fun t => fence ++ String c t) (upto_fence r)
    end
  else None.

(** [\w+] at the head of [s]. *)
Definition match_word (s : string) : option string :=
  match take_while is_word s with
  | EmptyString => None
  | w => Some w
  end.

(** [len(s.split())]. *)
Fixpoint count_words (in_word : bool) (s : string) : nat :=
  match s with
  | EmptyString => O
  | String c s' =>
      if is_space c then count_words false s'
      else ((if in_word then 0 else 1) + count_words true s')%nat
  end.

End PyStr.

Definition len {A : Type} (l : list A) : Z := Z.of_nat (List.length l).

(** ** Text feature extractor *)

Definition _count_code_snippets (s : option string) : Z :=
  match s with
  | None => 0
  | Some s => len (PyStr.findall PyStr.match_snippet 0 s)
  end.

Definition _delete_code_snippets (s : option string) : string :=
  match s with
  | None => ""
  | Some s => PyStr.erase PyStr.match_snippet 0 s
  end.

Definition is_img_token (s2 : string) : bool :=
  PyStr.endswith s2 "jpg" || PyStr.endswith s2 "jpeg" || PyStr.endswith s2 "png".

Definition url_tokens (s : string) : list string :=
  PyStr.findall PyStr.match_url 0 s.

Definition _count_urls (s : option string) : Z :=
  match s with
  | None => 0
  | Some s => len (filter (fun s2 => negb (is_img_token s2)) (url_tokens s))
  end.

Definition _delete_urls (s : option string) : string :=
  match s with
  | None => ""
  | Some s => PyStr.erase PyStr.match_url 0 s
  end.

Definition _count_imgs (s : option string) : Z :=
  match s with
  | None => 0
  | Some s => len (filter is_img_token (url_tokens s))
  end.

Definition _count_text_len (s : option string) : Z :=
  match s with
  | None => 0
  | Some s => Z.of_nat (PyStr.count_words false s)
  end.

(** ** External collaborators

    The lemmatizer ([nltk]), the readability formulas ([textstat]) and
    floating-point arithmetic ([numpy], true division, [timedelta]) are
    used through their interfaces only. *)

Class Collaborators := {
  float : Type;
  lemmatize : string -> string;
  coleman_liau_index : string -> float;
  flesch_reading_ease : string -> float;
  flesch_kincaid_grade : string -> float;
  automated_readability_index : string -> float;
  total_seconds : Z -> float;
  np_median : list float -> float;
  true_div : Z -> Z -> float;
  float_of_int : Z -> float
}.

(** ** Label categorizer *)

(** A rule is a keyword ([str]) or a tuple of keywords. *)
Inductive rule : Type :=
| Kw (k : string)
| AllOf (ks : list string).

Definition keyword_rules : list (string * list rule) :=
  [ ("bug", [Kw "bug"]);
    ("feature", [Kw "feature"]);
    ("test", [Kw "test"; Kw "testing"]);
    ("build", [Kw "ci"; Kw "build"]);
    ("doc", [Kw "doc"; Kw "document"; Kw "documentation"]);
    ("coding", [Kw "code"; Kw "coding"; Kw "program"; Kw "programming"]);
    ("enhance", [Kw "enhance"; Kw "enhancement"]);
    ("gfi",
     [Kw "easy"; Kw "starter"; Kw "newbie"; Kw "beginner"; Kw "starter";
      Kw "minor"; Kw "novice";
      AllOf ["good"; "first"]; AllOf ["low"; "fruit"]; AllOf ["effort"; "low"];
      AllOf ["first"; "time"]; AllOf ["first"; "timer"]; AllOf ["first"; "pr"];
      AllOf ["up"; "for"; "grab"]]);
    ("medium", [Kw "medium"; Kw "intermediate"]);
    ("major",
     [Kw "important"; Kw "major"; Kw "breaking"; Kw "difficult"; Kw "hard";
      Kw "core"; Kw "serious";
      AllOf ["priority"; "p1"]; AllOf ["priority"; "high"];
      AllOf ["priority"; "critical"]]);
    ("triaged",
     [Kw "triaged"; Kw "triage"; Kw "progress"; Kw "haspr"; Kw "fixed";
      Kw "wontfix"; AllOf ["ha"; "pr"]; AllOf ["ha"; "fix"]]);
    ("untriaged",
     [Kw "untriaged"; AllOf ["need"; "triage"]; AllOf ["needed"; "triage"];
      AllOf ["no"; "triage"]]) ].

(** [collections.Counter] keyed by category name, in insertion order. *)
Definition Counter : Type := list (string * Z).

Fixpoint counter_get (k : string) (c : Counter) : Z :=
  match c with
  | [] => 0
  | (k', v) :: c' => if String.eqb k k' then v else counter_get k c'
  end.

(** [c[k] += n]. *)
Fixpoint counter_add (k : string) (n : Z) (c : Counter) : Counter :=
  match c with
  | [] => [(k, n)]
  | (k', v) :: c' =>
      if String.eqb k k' then (k', v + n) :: c'
      else (k', v) :: counter_add k n c'
  end.

Record LabelCategory : Type := mkLabelCategory {
  lc_bug : Z; lc_feature : Z; lc_test : Z; lc_build : Z; lc_doc : Z;
  lc_coding : Z; lc_enhance : Z; lc_gfi : Z; lc_medium : Z; lc_major : Z;
  lc_triaged : Z; lc_untriaged : Z
}.

(** Modelled from the spec: the document class [Dataset.LabelCategory] is
    declared in [gfibot.collections]; it holds one integer count per fixed
    category, and a category absent from the keyword arguments counts 0
    (the sum over no labels). *)
Definition LabelCategory_of_kwargs (c : Counter) : LabelCategory :=
  mkLabelCategory
    (counter_get "bug" c) (counter_get "feature" c) (counter_get "test" c)
    (counter_get "build" c) (counter_get "doc" c) (counter_get "coding" c)
    (counter_get "enhance" c) (counter_get "gfi" c) (counter_get "medium" c)
    (counter_get "major" c) (counter_get "triaged" c)
    (counter_get "untriaged" c).

(** The count of a category given by name. *)
Definition category_count (cat : string) (lc : LabelCategory) : Z :=
  counter_get cat
    [ ("bug", lc_bug lc); ("feature", lc_feature lc); ("test", lc_test lc);
      ("build", lc_build lc); ("doc", lc_doc lc); ("coding", lc_coding lc);
      ("enhance", lc_enhance lc); ("gfi", lc_gfi lc); ("medium", lc_medium lc);
      ("major", lc_major lc); ("triaged", lc_triaged lc);
      ("untriaged", lc_untriaged lc) ].

Section Categorizer.
Context `{Collaborators}.

(** The lemmatized word tokens of a label. *)
Definition label_words (label : string) : list string :=
  map lemmatize
    (PyStr.findall PyStr.match_word 0
       (PyStr.underscores_to_spaces (PyStr.lower label))).

Definition rule_hits (words : list string) (r : rule) : bool :=
  match r with
  | AllOf ks => forallb (fun word => PyStr.mem word words) ks
  | Kw k => PyStr.mem k words || existsb (fun w => PyStr.contains k w) words
  end.

(** The inner loop: [match] starts at 0 and is set to 1 by every rule
    that hits. *)
Definition category_match (words : list string) (rules : list rule) : Z :=
  fold_left (fun m r => if rule_hits words r then 1 else m) rules 0.

(** The body of the outer loop for one label. *)
Definition count_label (label_cat : Counter) (label : string) : Counter :=
  let words := label_words label in
  fold_left
    (fun acc cr => counter_add (fst cr) (category_match words (snd cr)) acc)
    keyword_rules label_cat.

Definition _get_categorized_labels (labels : list string) : LabelCategory :=
  LabelCategory_of_kwargs (fold_left count_label labels []).

End Categorizer.

(** ** Data model

    The document classes are declared in [gfibot.collections], which
    [dataset.py] imports; each record below carries the fields that
    [dataset.py] reads or writes, with the types the specification gives
    them. *)

Infix "==" := String.eqb (at level 70, no associativity).

(** Modelled from the spec: the document class [RepoCommit] (author,
    committer, authored_at, committed_at, keyed by repository). *)
Module RepoCommit.
Record t : Type := mk {
  owner : string; name : string;
  author : string; committer : string;
  authored_at : Z; committed_at : Z
}.
End RepoCommit.

(** Modelled from the spec: the document class [RepoIssue], an issue or
    pull request; the closing time, the title and the body are nullable. *)
Module RepoIssue.
Record t : Type := mk {
  owner : string; name : string; number : Z;
  user : string; state : string;
  created_at : Z; closed_at : option Z;
  title : option string; body : option string;
  is_pull : bool
}.
End RepoIssue.

(** Modelled from the spec: the embedded document [IssueEvent]; the
    actor is nullable, and the payload is a label name or a comment text
    depending on the type. *)
Module IssueEvent.
Record t : Type := mk {
  type : string; actor : option string; time : Z;
  label : string; comment : string
}.
End IssueEvent.

(** Modelled from the spec: the document class [ResolvedIssue]. *)
Module ResolvedIssue.
Record t : Type := mk {
  owner : string; name : string; number : Z;
  created_at : Z; resolved_at : Z;
  resolver_commit_num : Z;
  events : list IssueEvent.t
}.
End ResolvedIssue.

(** Modelled from the spec: the document class [OpenIssue]. *)
Module OpenIssue.
Record t : Type := mk {
  owner : string; name : string; number : Z;
  created_at : Z; updated_at : Z;
  events : list IssueEvent.t
}.
End OpenIssue.

(** Modelled from the spec: one (month, count) pair of a monthly series. *)
Module MonthCount.
Record t : Type := mk { month : Z; count : Z }.
End MonthCount.

(** Modelled from the spec: the document class [Repo] with its three
    monthly series. *)
Module Repo.
Record t : Type := mk {
  owner : string; name : string;
  monthly_stars : list MonthCount.t;
  monthly_pulls : list MonthCount.t;
  monthly_commits : list MonthCount.t
}.
End Repo.

(** Modelled from the spec: the embedded document [Dataset.UserFeature],
    with the fields [_get_user_data] fills. *)
Module UserFeature.
Record t : Type := mk {
  name : string;
  n_commits : Z; n_issues : Z; n_pulls : Z;
  resolver_commits : list Z
}.
End UserFeature.

(** Modelled from the spec: the document class [Dataset] (the snapshot),
    with the fields [get_dataset] assigns, in that order. *)
Module Dataset.
Section Fields.
Context `{Collaborators}.
Record t : Type := mk {
  owner : string; name : string; number : Z;
  created_at : Z; closed_at : option Z; before : Z;
  resolver_commit_num : Z;
  title : option string; body : string;
  len_title : Z; len_body : Z;
  n_code_snips : Z; n_urls : Z; n_imgs : Z;
  coleman_liau_index : float; flesch_reading_ease : float;
  flesch_kincaid_grade : float; automated_readability_index : float;
  labels : list string; label_category : LabelCategory;
  reporter_feat : UserFeature.t; owner_feat : UserFeature.t;
  prev_resolver_commits : list Z;
  n_stars : Z; n_pulls : Z; n_commits : Z;
  n_contributors : Z; n_closed_issues : Z; n_open_issues : Z;
  r_open_issues : float; issue_close_time : float;
  comments : list string; events : list string;
  comment_users : list UserFeature.t; event_users : list UserFeature.t
}.
End Fields.
End Dataset.

(** Modelled from the spec: the document class [DatasetBuildLog]; the
    end time and the two counters are unset while the run is under way. *)
Module DatasetBuildLog.
Record t : Type := mk {
  owner : string; name : string; pid : Z;
  github_user_login : option string;
  update_begin : Z; update_end : option Z;
  updated_open_issues : option Z; updated_resolved_issues : option Z
}.
End DatasetBuildLog.

(** [Union[OpenIssue, ResolvedIssue]]. *)
Inductive Issue : Type :=
| Resolved (i : ResolvedIssue.t)
| Open (i : OpenIssue.t).

Definition issue_owner (issue : Issue) : string :=
  match issue with
  | Resolved i => ResolvedIssue.owner i
  | Open i => OpenIssue.owner i
  end.

Definition issue_name (issue : Issue) : string :=
  match issue with
  | Resolved i => ResolvedIssue.name i
  | Open i => OpenIssue.name i
  end.

Definition issue_number (issue : Issue) : Z :=
  match issue with
  | Resolved i => ResolvedIssue.number i
  | Open i => OpenIssue.number i
  end.

Definition issue_events (issue : Issue) : list IssueEvent.t :=
  match issue with
  | Resolved i => ResolvedIssue.events i
  | Open i => OpenIssue.events i
  end.

(** Python exceptions this module can run into. *)
Inductive exn : Type :=
| AttributeError   (* attribute of [None] *)
| TypeError        (* [None <= datetime] *)
| ValueError       (* [list.remove(x)] without [x] in the list *)
| OverflowError.   (* an integer of more than eight bytes in a saved document *)

(** Records of the [logging] module. *)
Inductive level : Type := INFO | ERROR.

Inductive message : Type :=
| AlreadyInDataset (owner name : string) (number before : Z)
| PullRequest (owner name : string) (number : Z)
| BuildStart (owner name : string) (number before : Z)
| BuildDone (owner name : string) (number before : Z)
| NoNeedToUpdate (owner name : string) (number : Z)
| AlreadyBeingUpdated (owner name : string)
| GlobalUpdateRunning.

(** A pure computation that may raise. *)
Inductive result (A : Type) : Type :=
| Ret (a : A)
| Exc (e : exn).
Arguments Ret {A} a.
Arguments Exc {A} e.

Definition rbind {A B : Type} (r : result A) (k : A -> result B) : result B :=
  match r with
  | Ret a => k a
  | Exc e => Exc e
  end.

Declare Scope result_scope.
Delimit Scope result_scope with result.
Notation "x <- r ;; k" := (rbind r (fun x => k))
  (at level 61, r at next level, right associativity) : result_scope.

Fixpoint filterM {A : Type} (p : A -> result bool) (l : list A)
  : result (list A) :=
  match l with
  | [] => Ret []
  | x :: l' =>
      (b <- p x ;;
       r <- filterM p l' ;;
       Ret (if b then x :: r else r))%result
  end.

Fixpoint mapM {A B : Type} (f : A -> result B) (l : list A)
  : result (list B) :=
  match l with
  | [] => Ret []
  | x :: l' =>
      (y <- f x ;;
       r <- mapM f l' ;;
       Ret (y :: r))%result
  end.

Fixpoint foldM {A B : Type} (f : B -> A -> result B) (l : list A) (b : B)
  : result B :=
  match l with
  | [] => Ret b
  | x :: l' => (b' <- f b x ;; foldM f l' b')%result
  end.

(** A Python [set] of strings, kept without duplicates in insertion
    order (Python leaves the iteration order unspecified). *)
Definition set_add (x : string) (s : list string) : list string :=
  if PyStr.mem x s then s else (s ++ [x])%list.

(** [l.remove(x)]: drops the first occurrence of [x], and raises when
    there is none. *)
Fixpoint list_remove (x : string) (l : list string) : result (list string) :=
  match l with
  | [] => Exc ValueError
  | y :: l' =>
      if x == y then Ret l'
      else (r <- list_remove x l' ;; Ret (y :: r))%result
  end.

(** [queryset.first()]. *)
Definition first {A : Type} (l : list A) : option A := hd_error l.

Section Pipeline.
Context `{Collaborators}.

(** ** The document store and the state of a run *)

Record Store : Type := mkStore {
  RepoCommits : list RepoCommit.t;
  RepoIssues : list RepoIssue.t;
  Repos : list Repo.t;
  ResolvedIssues : list ResolvedIssue.t;
  OpenIssues : list OpenIssue.t;
  Datasets : list Dataset.t;
  DatasetBuildLogs : list DatasetBuildLog.t
}.

(** [calls] is a ghost trace of the invocations of [get_dataset]; the
    code never reads it. *)
Record State : Type := mkState {
  store : Store;
  logged : list (level * message);
  calls : list (Issue * Z)
}.

Definition set_Datasets (ds : list Dataset.t) (db : Store) : Store :=
  mkStore (RepoCommits db) (RepoIssues db) (Repos db) (ResolvedIssues db)
          (OpenIssues db) ds (DatasetBuildLogs db).

Definition set_DatasetBuildLogs (ls : list DatasetBuildLog.t) (db : Store)
  : Store :=
  mkStore (RepoCommits db) (RepoIssues db) (Repos db) (ResolvedIssues db)
          (OpenIssues db) (Datasets db) ls.

Definition set_store (db : Store) (st : State) : State :=
  mkState db (logged st) (calls st).

(** ** User feature aggregator *)

(** [None <= t] raises. *)
Definition le_datetime (x : option Z) (t : Z) : result bool :=
  match x with
  | Some x => Ret (x <=? t)
  | None => Exc TypeError
  end.

(** [i.state == "closed" and i.closed_at <= t]. *)
Definition closed_by (t : Z) (i : RepoIssue.t) : result bool :=
  if RepoIssue.state i == "closed"
  then le_datetime (RepoIssue.closed_at i) t
  else Ret false.

(** The commit query of [_get_user_data]. *)
Definition user_commit_query (owner name user : string) (t : Z)
  (c : RepoCommit.t) : bool :=
  ((RepoCommit.owner c == owner) && (RepoCommit.name c == name)
   && (RepoCommit.authored_at c <=? t) && (RepoCommit.committed_at c <=? t))
  && ((RepoCommit.committer c == user)
      || ((RepoCommit.author c == user)
          && (RepoCommit.committer c == "web-flow"))).

Definition user_issue_query (owner name user : string) (t : Z)
  (i : RepoIssue.t) : bool :=
  (RepoIssue.owner i == owner) && (RepoIssue.name i == name)
  && (RepoIssue.user i == user) && (RepoIssue.created_at i <=? t).

Definition _get_user_data (db : Store) (owner name user : string) (t : Z)
  : result UserFeature.t :=
  if user == "ghost" then
    Ret (UserFeature.mk user 0 0 0 [])
  else
    let usrcmts := filter (user_commit_query owner name user t)
                          (RepoCommits db) in
    let usriss :=
      filter (fun i => user_issue_query owner name user t i
                       && negb (RepoIssue.is_pull i)) (RepoIssues db) in
    let usrpulls :=
      filter (fun i => user_issue_query owner name user t i
                       && RepoIssue.is_pull i) (RepoIssues db) in
    (closed <- filterM (closed_by t) usriss ;;
     let numbers := map RepoIssue.number closed in
     let usriss_resolved :=
       filter (fun r => (ResolvedIssue.owner r == owner)
                        && (ResolvedIssue.name r == name)
                        && existsb (Z.eqb (ResolvedIssue.number r)) numbers)
              (ResolvedIssues db) in
     let usr_revolver_cmts :=
       map ResolvedIssue.resolver_commit_num usriss_resolved in
     Ret (UserFeature.mk user (len usrcmts) (len usriss) (len usrpulls)
                         usr_revolver_cmts))%result.

(** ** Background aggregator *)

(** One iteration of the loop over the issues. *)
Definition background_step (t : Z) (acc : Z * Z * list float)
  (i : RepoIssue.t) : result (Z * Z * list float) :=
  let '(n_closed_issues, n_open_issues, issue_close_times) := acc in
  if RepoIssue.state i == "closed" then
    match RepoIssue.closed_at i with
    | None => Exc TypeError
    | Some closed_at =>
        if closed_at <=? t then
          Ret (n_closed_issues + 1, n_open_issues,
               (issue_close_times
                  ++ [total_seconds (closed_at - RepoIssue.created_at i)])%list)
        else Ret (n_closed_issues, n_open_issues + 1, issue_close_times)
    end
  else Ret (n_closed_issues, n_open_issues + 1, issue_close_times).

Definition _get_background_data (db : Store) (owner name : string) (t : Z)
  : result (list string * Z * Z * list float) :=
  let all_issues :=
    filter (fun i => (RepoIssue.owner i == owner) && (RepoIssue.name i == name)
                     && negb (RepoIssue.is_pull i)
                     && (RepoIssue.created_at i <=? t)) (RepoIssues db) in
  let all_commits :=
    filter (fun c => (RepoCommit.owner c == owner)
                     && (RepoCommit.name c == name)
                     && (RepoCommit.authored_at c <=? t)
                     && (RepoCommit.committed_at c <=? t)) (RepoCommits db) in
  (acc <- foldM (background_step t) all_issues (0, 0, []) ;;
   let '(n_closed_issues, n_open_issues, issue_close_times) := acc in
   let contributors :=
     fold_left (fun s c => set_add (RepoCommit.committer c)
                                   (set_add (RepoCommit.author c) s))
               all_commits [] in
   Ret (contributors, n_closed_issues, n_open_issues, issue_close_times)
  )%result.

(** ** Dynamics replayer *)

Record Replay : Type := mkReplay {
  labels : list string;
  comments : list string;
  comment_users : list string;
  event_users : list string
}.

(** [s.add(actor)] unless the actor is [None] or the deleted account. *)
Definition add_actor (actor : option string) (s : list string) : list string :=
  match actor with
  | Some a => if a == "ghost" then s else set_add a s
  | None => s
  end.

(** One iteration of the loop over the events. *)
Definition replay_event (t : Z) (r : Replay) (event : IssueEvent.t)
  : result Replay :=
  if IssueEvent.time event <=? t then
    let event_users' := add_actor (IssueEvent.actor event) (event_users r) in
    if IssueEvent.type event == "labeled" then
      Ret (mkReplay (labels r ++ [IssueEvent.label event])%list (comments r)
                    (comment_users r) event_users')
    else if IssueEvent.type event == "unlabeled" then
      if PyStr.mem (IssueEvent.label event) (labels r) then
        (labels' <- list_remove (IssueEvent.label event) (labels r) ;;
         Ret (mkReplay labels' (comments r) (comment_users r) event_users')
        )%result
      else Ret (mkReplay (labels r) (comments r) (comment_users r)
                         event_users')
    else if IssueEvent.type event == "commented" then
      Ret (mkReplay (labels r) (comments r ++ [IssueEvent.comment event])%list
                    (add_actor (IssueEvent.actor event) (comment_users r))
                    event_users')
    else Ret (mkReplay (labels r) (comments r) (comment_users r) event_users')
  else Ret r.

(** The loop over the events. *)
Definition replay (events : list IssueEvent.t) (t : Z) : result Replay :=
  foldM (replay_event t) events (mkReplay [] [] [] []).

Definition _get_dynamics_data (db : Store) (owner name : string)
  (events : list IssueEvent.t) (t : Z)
  : result (list string * list string
            * list UserFeature.t * list UserFeature.t) :=
  (r <- replay events t ;;
   cu <- mapM (fun user => _get_user_data db owner name user t)
              (comment_users r) ;;
   eu <- mapM (fun user => _get_user_data db owner name user t)
              (event_users r) ;;
   Ret (labels r, comments r, cu, eu))%result.

(** ** Snapshot builder *)

(** A stateful computation: it returns or raises, in a new state. *)
Inductive outcome (A : Type) : Type :=
| Ok (a : A) (st : State)
| Raise (e : exn) (st : State).
Arguments Ok {A} a st.
Arguments Raise {A} e st.

Definition M (A : Type) : Type := State -> outcome A.

Definition ret {A : Type} (a : A) : M A := fun st => Ok a st.

Definition bind {A B : Type} (m : M A) (k : A -> M B) : M B :=
  fun st =>
    match m st with
    | Ok a st' => k a st'
    | Raise e st' => Raise e st'
    end.

Definition final_state {A : Type} (o : outcome A) : State :=
  match o with
  | Ok _ st => st
  | Raise _ st => st
  end.

Notation "x <- m ;; k" := (bind m (fun x => k))
  (at level 61, m at next level, right associativity).
Notation "m ;; k" := (bind m (fun _ => k))
  (at level 61, right associativity).

Definition lift {A : Type} (f : Store -> result A) : M A :=
  fun st =>
    match f (store st) with
    | Ret a => Ok a st
    | Exc e => Raise e st
    end.

Definition query {A : Type} (f : Store -> A) : M A :=
  fun st => Ok (f (store st)) st.

Definition update (f : Store -> Store) : M unit :=
  fun st => Ok tt (set_store (f (store st)) st).

Definition logger (l : level) (m : message) : M unit :=
  fun st => Ok tt (mkState (store st) (logged st ++ [(l, m)])%list (calls st)).

Definition called (issue : Issue) (before : Z) : M unit :=
  fun st =>
    Ok tt (mkState (store st) (logged st) (calls st ++ [(issue, before)])%list).

(** [Q(owner=issue.owner, name=issue.name, number=issue.number)] on a
    snapshot and on an issue record. *)
Definition dataset_key (issue : Issue) (d : Dataset.t) : bool :=
  (Dataset.owner d == issue_owner issue)
  && (Dataset.name d == issue_name issue)
  && (Dataset.number d =? issue_number issue).

Definition repo_issue_key (issue : Issue) (i : RepoIssue.t) : bool :=
  (RepoIssue.owner i == issue_owner issue)
  && (RepoIssue.name i == issue_name issue)
  && (RepoIssue.number i =? issue_number issue).

(** [query & Q(resolver_commit_num=-1)]. *)
Definition stale (issue : Issue) (d : Dataset.t) : bool :=
  dataset_key issue d && (Dataset.resolver_commit_num d =? -1).

(** [Dataset.objects(query & Q(resolver_commit_num=-1)).delete()]. *)
Definition delete_stale (issue : Issue) (db : Store) : Store :=
  set_Datasets (filter (fun d => negb (stale issue d)) (Datasets db)) db.

(** [query & Q(before=before)]. *)
Definition existing_query (issue : Issue) (before : Z) (d : Dataset.t) : bool :=
  dataset_key issue d && (Dataset.before d =? before).

(** The collection of snapshots with one more document. *)
Definition insert_dataset (data : Dataset.t) (db : Store) : Store :=
  set_Datasets (Datasets db ++ [data])%list db.

(** The driver encodes an integer in at most eight bytes. *)
Definition int64 (z : Z) : bool :=
  (-9223372036854775808 <=? z) && (z <=? 9223372036854775807).

Definition user_feature_int64 (u : UserFeature.t) : bool :=
  int64 (UserFeature.n_commits u) && int64 (UserFeature.n_issues u)
  && int64 (UserFeature.n_pulls u)
  && forallb int64 (UserFeature.resolver_commits u).

Definition label_category_int64 (c : LabelCategory) : bool :=
  int64 (lc_bug c) && int64 (lc_feature c) && int64 (lc_test c)
  && int64 (lc_build c) && int64 (lc_doc c) && int64 (lc_coding c)
  && int64 (lc_enhance c) && int64 (lc_gfi c) && int64 (lc_medium c)
  && int64 (lc_major c) && int64 (lc_triaged c) && int64 (lc_untriaged c).

(** Every integer of the document fits eight bytes. *)
Definition storable (data : Dataset.t) : bool :=
  int64 (Dataset.number data) && int64 (Dataset.resolver_commit_num data)
  && int64 (Dataset.len_title data) && int64 (Dataset.len_body data)
  && int64 (Dataset.n_code_snips data) && int64 (Dataset.n_urls data)
  && int64 (Dataset.n_imgs data)
  && label_category_int64 (Dataset.label_category data)
  && user_feature_int64 (Dataset.reporter_feat data)
  && user_feature_int64 (Dataset.owner_feat data)
  && forallb int64 (Dataset.prev_resolver_commits data)
  && int64 (Dataset.n_stars data) && int64 (Dataset.n_pulls data)
  && int64 (Dataset.n_commits data) && int64 (Dataset.n_contributors data)
  && int64 (Dataset.n_closed_issues data)
  && int64 (Dataset.n_open_issues data)
  && forallb user_feature_int64 (Dataset.comment_users data)
  && forallb user_feature_int64 (Dataset.event_users data).

(** [data.save()] of a new document: it raises OverflowError, and stores
    nothing, when an integer of the document does not fit eight bytes. *)
Definition save_dataset (data : Dataset.t) : M unit :=
  fun st =>
    if storable data
    then Ok tt (set_store (insert_dataset data (store st)) st)
    else Raise OverflowError st.

Definition sum_counts (series : list MonthCount.t) (before : Z) : Z :=
  fold_left Z.add
    (map MonthCount.count
         (filter (fun x => MonthCount.month x <=? before) series)) 0.

(** An attribute of [repo], which is [None] when no repository matched. *)
Definition repo_attr {A : Type} (repo : option Repo.t) (f : Repo.t -> A)
  : result A :=
  match repo with
  | Some r => Ret (f r)
  | None => Exc AttributeError
  end.

(** The part of [get_dataset] between the two log lines that computes
    the new document. *)
Definition compose_dataset (issue : Issue) (before : Z)
  (repo_issue : RepoIssue.t) (db : Store) : result Dataset.t :=
  let repo :=
    first (filter (fun r => (Repo.owner r == issue_owner issue)
                            && (Repo.name r == issue_name issue)) (Repos db)) in
  (bg <- _get_background_data db (issue_owner issue) (issue_name issue) before ;;
   let '(contribs, n_closed, n_open, close_times) := bg in
   let prev_resolver_commits :=
     map ResolvedIssue.resolver_commit_num
         (filter (fun x => (ResolvedIssue.name x == issue_name issue)
                           && (ResolvedIssue.owner x == issue_owner issue)
                           && (ResolvedIssue.resolved_at x <=? before))
                 (ResolvedIssues db)) in
   dyn <- _get_dynamics_data db (issue_owner issue) (issue_name issue)
                             (issue_events issue) before ;;
   let '(labels, comments, comment_users, event_users) := dyn in
   let clean_body :=
     _delete_urls (Some (_delete_code_snippets (RepoIssue.body repo_issue))) in
   reporter_feat <- _get_user_data db (issue_owner issue) (issue_name issue)
                                   (RepoIssue.user repo_issue) before ;;
   owner_feat <- _get_user_data db (issue_owner issue) (issue_name issue)
                                (issue_owner issue) before ;;
   monthly_stars <- repo_attr repo Repo.monthly_stars ;;
   monthly_pulls <- repo_attr repo Repo.monthly_pulls ;;
   monthly_commits <- repo_attr repo Repo.monthly_commits ;;
   Ret {|
     Dataset.owner := issue_owner issue;
     Dataset.name := issue_name issue;
     Dataset.number := issue_number issue;
     Dataset.created_at := RepoIssue.created_at repo_issue;
     Dataset.closed_at := RepoIssue.closed_at repo_issue;
     Dataset.before := before;
     Dataset.resolver_commit_num :=
       match issue with
       | Resolved i => ResolvedIssue.resolver_commit_num i
       | Open _ => -1
       end;
     Dataset.title := RepoIssue.title repo_issue;
     Dataset.body := clean_body;
     Dataset.len_title := _count_text_len (RepoIssue.title repo_issue);
     Dataset.len_body := _count_text_len (Some clean_body);
     Dataset.n_code_snips := _count_code_snippets (RepoIssue.body repo_issue);
     Dataset.n_urls := _count_urls (RepoIssue.body repo_issue);
     Dataset.n_imgs := _count_imgs (RepoIssue.body repo_issue);
     Dataset.coleman_liau_index := coleman_liau_index clean_body;
     Dataset.flesch_reading_ease := flesch_reading_ease clean_body;
     Dataset.flesch_kincaid_grade := flesch_kincaid_grade clean_body;
     Dataset.automated_readability_index :=
       automated_readability_index clean_body;
     Dataset.labels := labels;
     Dataset.label_category := _get_categorized_labels labels;
     Dataset.reporter_feat := reporter_feat;
     Dataset.owner_feat := owner_feat;
     Dataset.prev_resolver_commits := prev_resolver_commits;
     Dataset.n_stars := sum_counts monthly_stars before;
     Dataset.n_pulls := sum_counts monthly_pulls before;
     Dataset.n_commits := sum_counts monthly_commits before;
     Dataset.n_contributors := len contribs;
     Dataset.n_closed_issues := n_closed;
     Dataset.n_open_issues := n_open;
     Dataset.r_open_issues :=
       if n_open + n_closed >? 0 then true_div n_open (n_open + n_closed)
       else float_of_int 0;
     Dataset.issue_close_time :=
       if len close_times >? 0 then np_median close_times else float_of_int 0;
     Dataset.comments := comments;
     Dataset.events :=
       map IssueEvent.type
           (filter (fun e => IssueEvent.time e <? before) (issue_events issue));
     Dataset.comment_users := comment_users;
     Dataset.event_users := event_users
   |})%result.

Definition get_dataset (issue : Issue) (before : Z) : M (option Dataset.t) :=
  called issue before ;;
  match issue with
  | Resolved _ => update (delete_stale issue)
  | Open _ => ret tt
  end ;;
  existing <- query (fun db => filter (existing_query issue before)
                                      (Datasets db)) ;;
  match first existing with
  | Some d =>
      logger INFO (AlreadyInDataset (issue_owner issue) (issue_name issue)
                                    (issue_number issue) before) ;;
      ret (Some d)
  | None =>
      repo_issue <- query (fun db => first (filter (repo_issue_key issue)
                                                   (RepoIssues db))) ;;
      match repo_issue with
      | None => fun st => Raise AttributeError st
      | Some repo_issue =>
          if RepoIssue.is_pull repo_issue then
            logger ERROR (PullRequest (issue_owner issue) (issue_name issue)
                                      (issue_number issue)) ;;
            ret None
          else
            logger INFO (BuildStart (issue_owner issue) (issue_name issue)
                                    (issue_number issue) before) ;;
            data <- lift (compose_dataset issue before repo_issue) ;;
            save_dataset data ;;
            logger INFO (BuildDone (issue_owner issue) (issue_name issue)
                                   (issue_number issue) before) ;;
            ret (Some data)
      end
  end.

(** ** Incremental update orchestrator *)

(** A [for] loop whose body may raise. *)
Fixpoint for_each {A : Type} (l : list A) (body : A -> M unit) : M unit :=
  match l with
  | [] => ret tt
  | x :: l' => body x ;; for_each l' body
  end.

(** [max(e.time for e in i.events)] when there are events, else
    [i.created_at]. *)
Definition last_updated (i : OpenIssue.t) : Z :=
  match OpenIssue.events i with
  | [] => OpenIssue.created_at i
  | e :: es => fold_left Z.max (map IssueEvent.time es) (IssueEvent.time e)
  end.

Definition up_to_date (i : OpenIssue.t) (db : Store) : bool :=
  match first (filter (fun d => (Dataset.name d == OpenIssue.name i)
                                && (Dataset.owner d == OpenIssue.owner i)
                                && (Dataset.number d =? OpenIssue.number i))
                      (Datasets db)) with
  | Some d => Dataset.before d >=? last_updated i
  | None => false
  end.

Definition resolved_body (i : ResolvedIssue.t) : M unit :=
  get_dataset (Resolved i) (ResolvedIssue.created_at i) ;;
  get_dataset (Resolved i) (ResolvedIssue.resolved_at i) ;;
  ret tt.

Definition open_body (i : OpenIssue.t) : M unit :=
  skip <- query (up_to_date i) ;;
  if (skip : bool) then
    logger INFO (NoNeedToUpdate (OpenIssue.owner i) (OpenIssue.name i)
                                (OpenIssue.number i))
  else
    get_dataset (Open i) (OpenIssue.updated_at i) ;;
    ret tt.

Definition get_dataset_with_issues (resolved_issues : list ResolvedIssue.t)
  (open_issues : list OpenIssue.t) : M unit :=
  for_each resolved_issues resolved_body ;;
  for_each open_issues open_body.

(** Modelled from the spec: [log_exists] is defined in
    [gfibot.collections]; it tells whether an active build log (end time
    unset) exists for the key [(owner, name)]. *)
Definition log_exists (owner name : string) (db : Store) : bool :=
  existsb (fun l => (DatasetBuildLog.owner l == owner)
                    && (DatasetBuildLog.name l == name)
                    && match DatasetBuildLog.update_end l with
                       | None => true
                       | Some _ => false
                       end)
          (DatasetBuildLogs db).

(** [log.save()] of a new document; the position in the collection
    identifies the document afterwards.  The integers of a build log are
    a process id and, once it is closed, two list lengths: they fit
    eight bytes, so this save does not overflow. *)
Definition insert_log (l : DatasetBuildLog.t) : M nat :=
  fun st =>
    let db := store st in
    Ok (List.length (DatasetBuildLogs db))
       (set_store (set_DatasetBuildLogs (DatasetBuildLogs db ++ [l])%list db) st).

Fixpoint replace_nth {A : Type} (n : nat) (x : A) (l : list A) : list A :=
  match l, n with
  | [], _ => []
  | _ :: l', O => x :: l'
  | y :: l', S k => y :: replace_nth k x l'
  end.

(** [log.save()] of a document saved before. *)
Definition update_log (id : nat) (l : DatasetBuildLog.t) : M unit :=
  update (fun db =>
            set_DatasetBuildLogs (replace_nth id l (DatasetBuildLogs db)) db).

(** The log document after the three assignments that close it. *)
Definition close_log (l : DatasetBuildLog.t) (n_open n_resolved now : Z)
  : DatasetBuildLog.t :=
  DatasetBuildLog.mk
    (DatasetBuildLog.owner l) (DatasetBuildLog.name l) (DatasetBuildLog.pid l)
    (DatasetBuildLog.github_user_login l) (DatasetBuildLog.update_begin l)
    (Some now) (Some n_open) (Some n_resolved).

(** The process and the clock: [os.getpid()] and the two readings of
    [datetime.utcnow()]. *)
Record Process : Type := mkProcess {
  getpid : Z;
  utcnow_begin : Z;
  utcnow_end : Z
}.

Definition get_dataset_for_repo (p : Process) (owner name : string) (since : Z)
  (github_login : option string) : M unit :=
  busy <- query (log_exists owner name) ;;
  if (busy : bool) then
    logger INFO (AlreadyBeingUpdated owner name)
  else
    let log := DatasetBuildLog.mk owner name (getpid p) github_login
                                  (utcnow_begin p) None None None in
    id <- insert_log log ;;
    resolved_issues <-
      query (fun db =>
               filter (fun i => (ResolvedIssue.owner i == owner)
                                && (ResolvedIssue.name i == name)
                                && (ResolvedIssue.resolved_at i >=? since))
                      (ResolvedIssues db)) ;;
    open_issues <-
      query (fun db =>
               filter (fun i => (OpenIssue.owner i == owner)
                                && (OpenIssue.name i == name)
                                && (OpenIssue.updated_at i >=? since))
                      (OpenIssues db)) ;;
    get_dataset_with_issues resolved_issues open_issues ;;
    update_log id (close_log log (len open_issues) (len resolved_issues)
                             (utcnow_end p)).

Definition get_dataset_all (p : Process) (since : option Z) : M unit :=
  busy <- query (log_exists "" "") ;;
  if (busy : bool) then
    logger INFO GlobalUpdateRunning
  else
    let log := DatasetBuildLog.mk "" "" (getpid p) None
                                  (utcnow_begin p) None None None in
    id <- insert_log log ;;
    resolved_issues <-
      query (fun db =>
               match since with
               | None => ResolvedIssues db
               | Some since =>
                   filter (fun i => ResolvedIssue.resolved_at i >=? since)
                          (ResolvedIssues db)
               end) ;;
    open_issues <-
      query (fun db =>
               match since with
               | None => OpenIssues db
               | Some since =>
                   filter (fun i => OpenIssue.updated_at i >=? since)
                          (OpenIssues db)
               end) ;;
    get_dataset_with_issues resolved_issues open_issues ;;
    update_log id (close_log log (len open_issues) (len resolved_issues)
                             (utcnow_end p)).

End Pipeline.

Arguments Ok {H A} a st.
Arguments Raise {H A} e st.

Notation "x <- m ;; k" := (bind m (fun x => k))
  (at level 61, m at next level, right associativity).
Notation "m ;; k" := (bind m (fun _ => k))
  (at level 61, right associativity).

(** ** The claim of the specification about image tokens, in its words *)

(** A token "ending in the image extensions .jpg/.jpeg/.png". *)
Definition has_image_extension (tok : string) : bool :=
  PyStr.endswith tok ".jpg" || PyStr.endswith tok ".jpeg"
  || PyStr.endswith tok ".png".

(** [tok] ends with [suffix], stated with concatenation. *)
Definition ends_with (tok suffix : string) : Prop :=
  exists p : string, tok = (p ++ suffix)%string.

(** ** Auxiliary notions used in the statements *)

(** The names of the categories, in the order of [keyword_rules]. *)
Definition categories : list string := map fst keyword_rules.

(** The rules of a category. *)
Definition rules_of (cat : string) : list rule :=
  match find (fun cr => cat == fst cr) keyword_rules with
  | Some cr => snd cr
  | None => []
  end.

Definition Zsum (l : list Z) : Z := fold_right Z.add 0 l.

(** What one label adds to one category. *)
Definition increment `{Collaborators} (cat label : string) : Z :=
  category_match (label_words label) (rules_of cat).

(** A lemmatizer for the examples: it strips a final "s" from words of
    more than three letters and leaves the others alone.  The other
    collaborators return the integer argument or 0. *)
Definition toy_lemmatize (w : string) : string :=
  if (3 <? String.length w)%nat && PyStr.endswith w "s"
  then PyStr.reverse (PyStr.drop 1 (PyStr.reverse w))
  else w.

Definition toy : Collaborators :=
  {| float := Z;
     lemmatize := toy_lemmatize;
     coleman_liau_index := fun _ => 0;
     flesch_reading_ease := fun _ => 0;
     flesch_kincaid_grade := fun _ => 0;
     automated_readability_index := fun _ => 0;
     total_seconds := fun d => d;
     np_median := fun l => hd 0 l;
     true_div := fun a b => a / b;
     float_of_int := fun z => z |}.

(** The commit filter as the specification words it: "commit author OR
    (author-is-this-user AND committer-is-the-automated-merge-identity)",
    with both times at or before the cutoff. *)
Definition commit_query_as_stated (owner name user : string) (t : Z)
  (c : RepoCommit.t) : bool :=
  ((RepoCommit.owner c == owner) && (RepoCommit.name c == name)
   && (RepoCommit.authored_at c <=? t) && (RepoCommit.committed_at c <=? t))
  && ((RepoCommit.author c == user)
      || ((RepoCommit.author c == user)
          && (RepoCommit.committer c == "web-flow"))).

(** The commits the code credits to [user] at cutoff [t]. *)
Definition credited (owner name user : string) (t : Z) (c : RepoCommit.t)
  : Prop :=
  RepoCommit.owner c = owner /\ RepoCommit.name c = name
  /\ RepoCommit.authored_at c <= t /\ RepoCommit.committed_at c <= t
  /\ (RepoCommit.committer c = user
      \/ (RepoCommit.author c = user /\ RepoCommit.committer c = "web-flow")).

(** Every closed issue of the store carries its closing time. *)
Definition closed_issues_dated `{Collaborators} (db : Store) : Prop :=
  forall i : RepoIssue.t,
    In i (RepoIssues db) -> RepoIssue.state i = "closed" ->
    RepoIssue.closed_at i <> None.

(** ** A small repository for the examples *)

Definition commit1 : RepoCommit.t := RepoCommit.mk "o" "r" "alice" "bob" 1 1.
Definition commit2 : RepoCommit.t :=
  RepoCommit.mk "o" "r" "alice" "web-flow" 2 2.

Definition repo_issue1 : RepoIssue.t :=
  RepoIssue.mk "o" "r" 1 "alice" "closed" 10 (Some 30)
    (Some "Crash on start")
    (Some "see http://x.com/a and http://x.com/b.png") false.
Definition repo_issue2 : RepoIssue.t :=
  RepoIssue.mk "o" "r" 2 "bob" "open" 12 None (Some "Fix crash") None true.
Definition repo_issue3 : RepoIssue.t :=
  RepoIssue.mk "o" "r" 3 "carol" "open" 14 None (Some "Docs") None false.

Definition labeled_bug : IssueEvent.t :=
  IssueEvent.mk "labeled" (Some "alice") 20 "bug" "".
Definition commented : IssueEvent.t :=
  IssueEvent.mk "commented" (Some "carol") 25 "" "me too".

Definition resolved1 : ResolvedIssue.t :=
  ResolvedIssue.mk "o" "r" 1 10 30 2 [labeled_bug; commented].
Definition open1 : OpenIssue.t := OpenIssue.mk "o" "r" 1 10 10 [].
Definition open2 : OpenIssue.t := OpenIssue.mk "o" "r" 2 12 12 [].
Definition open3 : OpenIssue.t := OpenIssue.mk "o" "r" 3 14 14 [].

Definition repo_or : Repo.t :=
  Repo.mk "o" "r" [MonthCount.mk 5 7] [MonthCount.mk 5 1] [MonthCount.mk 5 2].

Definition db0 : Store (H := toy) :=
  mkStore [commit1; commit2] [repo_issue1; repo_issue2; repo_issue3]
          [repo_or] [resolved1] [open3] [] [].

Definition st0 : State (H := toy) := mkState db0 [] [].

(** Events for the examples of the replay. *)
Definition labeled_x (time : Z) : IssueEvent.t :=
  IssueEvent.mk "labeled" (Some "alice") time "x" "".
Definition unlabeled_x (time : Z) : IssueEvent.t :=
  IssueEvent.mk "unlabeled" (Some "alice") time "x" "".

(** ** States reached inside [get_dataset] *)

(** The state in which the existence check runs: the call is recorded
    and, for a resolved issue, the stale snapshots are gone. *)
Definition enter `{Collaborators} (issue : Issue) (before : Z) (st : State)
  : State :=
  mkState (match issue with
           | Resolved _ => delete_stale issue (store st)
           | Open _ => store st
           end)
          (logged st) (calls st ++ [(issue, before)])%list.

Definition with_log `{Collaborators} (st : State) (l : level) (m : message)
  : State :=
  mkState (store st) (logged st ++ [(l, m)])%list (calls st).

(** The resolver commit number a new snapshot of [issue] carries. *)
Definition issue_resolver_commit_num (issue : Issue) : Z :=
  match issue with
  | Resolved i => ResolvedIssue.resolver_commit_num i
  | Open _ => -1
  end.


(** A snapshot "for the same (owner, name, number) carrying the sentinel
    resolver_commit_num = -1", in the words of the specification. *)
Definition stale_for `{Collaborators} (issue : Issue) (d : Dataset.t) : Prop :=
  Dataset.owner d = issue_owner issue /\ Dataset.name d = issue_name issue
  /\ Dataset.number d = issue_number issue
  /\ Dataset.resolver_commit_num d = -1.

(** A snapshot outlives the deletion that opens a call for [issue]. *)
Definition survives `{Collaborators} (issue : Issue) (d : Dataset.t) : bool :=
  match issue with
  | Resolved _ => negb (stale issue d)
  | Open _ => true
  end.

(** The issue is open, or resolved with a commit number other than the
    sentinel. *)
Definition definitive (issue : Issue) : Prop :=
  match issue with
  | Resolved i => ResolvedIssue.resolver_commit_num i <> -1
  | Open _ => True
  end.

(** The example store after issue 1 was snapshot at time 10 while open. *)
Definition st_open1 : State (H := toy) :=
  final_state (get_dataset (Open open1) 10 st0).

(** The value an outcome returns, if it returns. *)
Definition returned `{Collaborators} {A : Type} (o : outcome A) : option A :=
  match o with
  | Ok a _ => Some a
  | Raise _ _ => None
  end.

(** ** Build logs *)

(** An active build log for the key [(owner, name)]. *)
Definition active_for (owner name : string) (l : DatasetBuildLog.t) : Prop :=
  DatasetBuildLog.owner l = owner /\ DatasetBuildLog.name l = name
  /\ DatasetBuildLog.update_end l = None.

(** The log document a run opens. *)
Definition new_log (p : Process) (owner name : string)
  (github_login : option string) : DatasetBuildLog.t :=
  DatasetBuildLog.mk owner name (getpid p) github_login (utcnow_begin p)
                     None None None.

(** The state after the new log document was saved. *)
Definition opened `{Collaborators} (l : DatasetBuildLog.t) (st : State)
  : State :=
  set_store (set_DatasetBuildLogs (DatasetBuildLogs (store st) ++ [l])%list
                                  (store st)) st.

(** The issues a per-repository run and a global run select. *)
Definition repo_resolved `{Collaborators} (owner name : string) (since : Z)
  (db : Store) : list ResolvedIssue.t :=
  filter (fun i => (ResolvedIssue.owner i == owner)
                   && (ResolvedIssue.name i == name)
                   && (ResolvedIssue.resolved_at i >=? since))
         (ResolvedIssues db).

Definition repo_open `{Collaborators} (owner name : string) (since : Z)
  (db : Store) : list OpenIssue.t :=
  filter (fun i => (OpenIssue.owner i == owner)
                   && (OpenIssue.name i == name)
                   && (OpenIssue.updated_at i >=? since))
         (OpenIssues db).

Definition all_resolved `{Collaborators} (since : option Z) (db : Store)
  : list ResolvedIssue.t :=
  match since with
  | None => ResolvedIssues db
  | Some since =>
      filter (fun i => ResolvedIssue.resolved_at i >=? since)
             (ResolvedIssues db)
  end.

Definition all_open `{Collaborators} (since : option Z) (db : Store)
  : list OpenIssue.t :=
  match since with
  | None => OpenIssues db
  | Some since =>
      filter (fun i => OpenIssue.updated_at i >=? since) (OpenIssues db)
  end.

(** What a run leaves behind once the log [l] is open: the closed log
    when the processing returns, the open log when it raises. *)
Definition run_leaves `{Collaborators} (st : State) (l : DatasetBuildLog.t)
  (resolved_issues : list ResolvedIssue.t) (open_issues : list OpenIssue.t)
  (now : Z) (o : outcome unit) : Prop :=
  match get_dataset_with_issues resolved_issues open_issues (opened l st) with
  | Ok _ st2 =>
      exists st',
        o = Ok tt st'
        /\ DatasetBuildLogs (store st')
           = (DatasetBuildLogs (store st)
              ++ [close_log l (len open_issues) (len resolved_issues) now])%list
        /\ Datasets (store st') = Datasets (store st2)
        /\ logged st' = logged st2 /\ calls st' = calls st2
  | Raise e st2 =>
      o = Raise e st2
      /\ DatasetBuildLogs (store st2)
         = (DatasetBuildLogs (store st) ++ [l])%list
  end.

(** The example process, and the example store while a run on o/r is
    under way. *)
Definition proc : Process := mkProcess 4242 100 200.

Definition st_busy : State (H := toy) :=
  opened (new_log proc "o" "r" None) st0.

(** ** Auxiliary notions for the text functions *)

(** Every character of [s] satisfies [p]. *)
Fixpoint string_forall (p : ascii -> bool) (s : string) : bool :=
  match s with
  | EmptyString => true
  | String c s' => p c && string_forall p s'
  end.

(** The first character of [s], if any, fails [p]. *)
Definition stops_at (p : ascii -> bool) (s : string) : Prop :=
  match s with
  | EmptyString => True
  | String c _ => p c = false
  end.

(** The number of characters in a list of tokens. *)
Definition total_length (toks : list string) : nat :=
  fold_right (fun tok n => (String.length tok + n)%nat) O toks.

(** ** Auxiliary notions for the aggregators *)

(** The issues of [user] that [_get_user_data] looks at: issue records
    of the repository, not pull requests, created by [user] at or before
    the cutoff. *)
Definition user_issues `{Collaborators} (db : Store)
  (owner name user : string) (t : Z) : list RepoIssue.t :=
  filter (fun i => user_issue_query owner name user t i
                   && negb (RepoIssue.is_pull i)) (RepoIssues db).

(** An issue record that is closed and has no closing time. *)
Definition undated (i : RepoIssue.t) : Prop :=
  RepoIssue.state i = "closed" /\ RepoIssue.closed_at i = None.

(** The issues and commits [_get_background_data] scans. *)
Definition background_issues `{Collaborators} (db : Store)
  (owner name : string) (t : Z) : list RepoIssue.t :=
  filter (fun i => (RepoIssue.owner i == owner) && (RepoIssue.name i == name)
                   && negb (RepoIssue.is_pull i)
                   && (RepoIssue.created_at i <=? t)) (RepoIssues db).

Definition background_commits `{Collaborators} (db : Store)
  (owner name : string) (t : Z) : list RepoCommit.t :=
  filter (fun c => (RepoCommit.owner c == owner)
                   && (RepoCommit.name c == name)
                   && (RepoCommit.authored_at c <=? t)
                   && (RepoCommit.committed_at c <=? t)) (RepoCommits db).

(** ** Auxiliary notions for the builder and the runs *)

(** The identity of a snapshot: (owner, name, number, before). *)
Definition snapshot_key `{Collaborators} (d : Dataset.t)
  : string * string * Z * Z :=
  (Dataset.owner d, Dataset.name d, Dataset.number d, Dataset.before d).

(** At most one snapshot per (owner, name, number, before). *)
Definition unique_snapshots `{Collaborators} (db : Store) : Prop :=
  NoDup (map snapshot_key (Datasets db)).

(** Two stores hold the same raw records and the same build logs. *)
Definition same_sources `{Collaborators} (db db' : Store) : Prop :=
  RepoCommits db' = RepoCommits db /\ RepoIssues db' = RepoIssues db
  /\ Repos db' = Repos db /\ ResolvedIssues db' = ResolvedIssues db
  /\ OpenIssues db' = OpenIssues db
  /\ DatasetBuildLogs db' = DatasetBuildLogs db.

(** Two stores hold the same raw records. *)
Definition same_records `{Collaborators} (db db' : Store) : Prop :=
  RepoCommits db' = RepoCommits db /\ RepoIssues db' = RepoIssues db
  /\ Repos db' = Repos db /\ ResolvedIssues db' = ResolvedIssues db
  /\ OpenIssues db' = OpenIssues db.

(** The store has an issue record and a repository record for [issue]. *)
Definition issue_known `{Collaborators} (db : Store) (issue : Issue) : Prop :=
  (exists i, first (filter (repo_issue_key issue) (RepoIssues db)) = Some i)
  /\ (exists r, first (filter (fun r => (Repo.owner r == issue_owner issue)
                                        && (Repo.name r == issue_name issue))
                              (Repos db)) = Some r).

(** ** Auxiliary notions for the lock *)

(** [l] is an active build log for the key [(owner, name)], as a test. *)
Definition is_active (owner name : string) (l : DatasetBuildLog.t) : bool :=
  (DatasetBuildLog.owner l == owner) && (DatasetBuildLog.name l == name)
  && match DatasetBuildLog.update_end l with
     | None => true
     | Some _ => false
     end.

(** At most one active build log per key. *)
Definition lock_respected `{Collaborators} (db : Store) : Prop :=
  forall owner name : string,
    (List.length (filter (is_active owner name) (DatasetBuildLogs db)) <= 1)%nat.

(** ** Auxiliary notions for a second run *)

(** The (owner, name, number) of an issue. *)
Definition issue_key (issue : Issue) : string * string * Z :=
  (issue_owner issue, issue_name issue, issue_number issue).

(** What a call of the builder for [issue] may do to the store: it keeps
    the issue records, drops snapshots that do not outlive its stale
    deletion and appends snapshots of [issue]. *)
Definition builder_step `{Collaborators} (issue : Issue) (db db' : Store)
  : Prop :=
  RepoIssues db' = RepoIssues db
  /\ exists added : list Dataset.t,
      Datasets db' = (filter (survives issue) (Datasets db) ++ added)%list
      /\ forall d, In d added ->
                   dataset_key issue d = true
                   /\ Dataset.resolver_commit_num d
                      = issue_resolver_commit_num issue.

(** A call for [(issue, before)] has nothing left to do in [db]: no
    snapshot of the store is stale for the issue, and either a snapshot
    exists for the cutoff or the issue record is a pull request. *)
Definition settled `{Collaborators} (db : Store) (issue : Issue) (before : Z)
  : Prop :=
  (forall d, In d (Datasets db) -> survives issue d = true)
  /\ ((exists d, first (filter (existing_query issue before) (Datasets db))
                 = Some d)
      \/ (exists i, first (filter (repo_issue_key issue) (RepoIssues db))
                    = Some i
                    /\ RepoIssue.is_pull i = true)).

(** The loop over the open issues has nothing left to do for [i]. *)
Definition open_settled `{Collaborators} (db : Store) (i : OpenIssue.t)
  : Prop :=
  up_to_date i db = true \/ settled db (Open i) (OpenIssue.updated_at i).

(** A call for [acting] cannot unsettle [issue]: [acting] is open, or
    resolved with a commit number other than -1, and an open and a
    resolved issue never share their (owner, name, number). *)
Definition compatible (issue acting : Issue) : Prop :=
  definitive acting
  /\ match issue, acting with
     | Resolved _, Open _ | Open _, Resolved _ =>
         issue_key issue <> issue_key acting
     | _, _ => True
     end.

(** A store with a resolved issue and no issue record for it. *)
Definition st_broken : State (H := toy) :=
  mkState (mkStore [] [] [repo_or] [resolved1] [] [] []) [] [].

(** An open issue with one event, and the example store after it was
    snapshot at time 16. *)
Definition open3e : OpenIssue.t :=
  OpenIssue.mk "o" "r" 3 14 16 [IssueEvent.mk "commented" (Some "carol") 15 "" "ping"].

Definition st_open3 : State (H := toy) :=
  final_state (get_dataset (Open open3e) 16 st0).

(** The snapshot that [db] lets compose for [issue] at the cutoff, if
    any, can be saved: every integer of it fits eight bytes. *)
Definition snapshot_storable `{Collaborators} (db : Store) (issue : Issue)
  (before : Z) : Prop :=
  match first (filter (repo_issue_key issue) (RepoIssues db)) with
  | Some repo_issue =>
      match compose_dataset issue before repo_issue db with
      | Ret data => storable data = true
      | Exc _ => True
      end
  | None => True
  end.

(** * Properties *)

(** ** Strings *)

Lemma prefix_app (a r : string) : prefix a (a ++ r) = true.
Proof.
  induction a as [|c a IH]; simpl.
  - now destruct r.
  - destruct (ascii_dec c c) as [_|n]; [exact IH | now elim n].
Qed.

Lemma prefix_inv (a b : string) :
  prefix a b = true -> exists r, b = (a ++ r)%string.
Proof.
  revert b; induction a as [|c a IH]; intros b Hp.
  - now exists b.
  - destruct b as [|d b]; simpl in Hp; [discriminate|].
    destruct (ascii_dec c d) as [->|_]; [|discriminate].
    destruct (IH b Hp) as [r ->]. now exists r.
Qed.

Lemma append_assoc (a b c : string) :
  ((a ++ b) ++ c = a ++ (b ++ c))%string.
Proof. induction a as [|x a IH]; simpl; [reflexivity | now rewrite IH]. Qed.

Lemma append_nil_r (a : string) : (a ++ "" = a)%string.
Proof. induction a as [|x a IH]; simpl; [reflexivity | now rewrite IH]. Qed.

Lemma rev_onto_spec (s acc : string) :
  PyStr.rev_onto s acc = (PyStr.reverse s ++ acc)%string.
Proof.
  unfold PyStr.reverse. revert acc.
  induction s as [|c s IH]; intro acc; simpl; [reflexivity|].
  rewrite IH, (IH (String c "")), append_assoc. reflexivity.
Qed.

Lemma reverse_app (a b : string) :
  PyStr.reverse (a ++ b) = (PyStr.reverse b ++ PyStr.reverse a)%string.
Proof.
  induction a as [|c a IH]; simpl.
  - now rewrite append_nil_r.
  - unfold PyStr.reverse at 1 3. simpl.
    rewrite !rev_onto_spec, IH, append_assoc. reflexivity.
Qed.

Lemma reverse_involutive (a : string) : PyStr.reverse (PyStr.reverse a) = a.
Proof.
  induction a as [|c a IH]; [reflexivity|].
  unfold PyStr.reverse at 2. simpl.
  rewrite rev_onto_spec, reverse_app, IH. reflexivity.
Qed.

Lemma endswith_spec (tok suffix : string) :
  PyStr.endswith tok suffix = true <-> ends_with tok suffix.
Proof.
  unfold PyStr.endswith, ends_with. split.
  - intro Hp. apply prefix_inv in Hp as [r Hr].
    exists (PyStr.reverse r).
    rewrite <- (reverse_involutive tok), Hr, reverse_app, reverse_involutive.
    reflexivity.
  - intros [p ->]. rewrite reverse_app. apply prefix_app.
Qed.

Lemma is_img_token_spec (tok : string) :
  is_img_token tok = true
  <-> ends_with tok "jpg" \/ ends_with tok "jpeg" \/ ends_with tok "png".
Proof.
  unfold is_img_token. rewrite !orb_true_iff, !endswith_spec. tauto.
Qed.

Lemma len_filter_split {A : Type} (p : A -> bool) (l : list A) :
  len (filter (fun x => negb (p x)) l) + len (filter p l) = len l.
Proof.
  unfold len. rewrite <- Nat2Z.inj_add. f_equal.
  induction l as [|x l IH]; simpl; [reflexivity|].
  destruct (p x); simpl; lia.
Qed.

(** ** Text feature extractor *)

Example url_tokens_scan :
  url_tokens "hhttp://q httphttp://z http http: HTTP://x"
  = ["http://q"; "httphttp://z"; "http:"].
Proof. reflexivity. Qed.

Example code_snippets_lazy :
  PyStr.findall PyStr.match_snippet 0 "```````a`````` x ```b````"
  = ["```````"; "`````` x ```"]
  /\ _delete_code_snippets (Some "a ```x``` b ``` c") = "a  b ``` c".
Proof. split; reflexivity. Qed.

Example text_len_split : _count_text_len (Some "  Crash  on start ") = 3.
Proof. reflexivity. Qed.

(** C8, as the code has it: the URL-like tokens of a body are split in
    two by the test "ends in jpg, jpeg or png" (the three suffixes, with
    no dot required before them): [_count_imgs] counts the tokens that
    pass it, [_count_urls] the others, so the two counts add up to the
    number of tokens; a missing body counts 0 and 0; and the body
    "see http://x.com/a and http://x.com/b.png" has one URL and one
    image. *)
Theorem url_image_partition :
  (forall tok : string,
      is_img_token tok = true
      <-> ends_with tok "jpg" \/ ends_with tok "jpeg" \/ ends_with tok "png")
  /\ (forall s : string,
         _count_imgs (Some s) = len (filter is_img_token (url_tokens s))
         /\ _count_urls (Some s) = len (url_tokens s) - _count_imgs (Some s))
  /\ _count_urls None = 0 /\ _count_imgs None = 0
  /\ url_tokens "see http://x.com/a and http://x.com/b.png"
     = ["http://x.com/a"; "http://x.com/b.png"]
  /\ _count_urls (Some "see http://x.com/a and http://x.com/b.png") = 1
  /\ _count_imgs (Some "see http://x.com/a and http://x.com/b.png") = 1.
Proof.
  split; [exact is_img_token_spec|].
  split; [|repeat split; reflexivity].
  intro s. split; [reflexivity|].
  unfold _count_urls, _count_imgs.
  rewrite <- (len_filter_split is_img_token (url_tokens s)). lia.
Qed.

(** C8, as the specification words it, fails: the body
    "http://x.com/ajpg" holds one URL-like token, which has none of the
    extensions .jpg, .jpeg, .png, and yet it is counted as an image and
    not as a URL. *)
Lemma image_extension_counterexample :
  url_tokens "http://x.com/ajpg" = ["http://x.com/ajpg"]
  /\ has_image_extension "http://x.com/ajpg" = false
  /\ _count_imgs (Some "http://x.com/ajpg") = 1
  /\ _count_imgs (Some "http://x.com/ajpg")
     <> len (filter has_image_extension (url_tokens "http://x.com/ajpg"))
  /\ _count_urls (Some "http://x.com/ajpg") = 0
  /\ _count_urls (Some "http://x.com/ajpg")
     <> len (filter (fun tok => negb (has_image_extension tok))
                    (url_tokens "http://x.com/ajpg")).
Proof. repeat split; try reflexivity; vm_compute; discriminate. Qed.

(** ** Label categorizer *)

Lemma counter_get_add (k k' : string) (n : Z) (c : Counter) :
  counter_get k (counter_add k' n c)
  = counter_get k c + (if k == k' then n else 0).
Proof.
  induction c as [|[k2 v] c IH]; simpl.
  - destruct (k == k'); lia.
  - destruct (String.eqb_spec k' k2) as [->|Hk']; simpl.
    + destruct (k == k2); lia.
    + destruct (String.eqb_spec k k2) as [->|Hk]; [|exact IH].
      destruct (String.eqb_spec k2 k') as [E|_]; [now elim Hk' | lia].
Qed.

Lemma counter_get_fold (f : list rule -> Z) (k : string)
  (rs : list (string * list rule)) (c : Counter) :
  counter_get k
    (fold_left (fun acc cr => counter_add (fst cr) (f (snd cr)) acc) rs c)
  = counter_get k c
    + Zsum (map (fun cr => if k == fst cr then f (snd cr) else 0) rs).
Proof.
  revert c; induction rs as [|cr rs IH]; intro c; simpl; [lia|].
  rewrite IH, counter_get_add. lia.
Qed.

Lemma keyword_rules_select (f : list rule -> Z) (cat : string) :
  In cat categories ->
  Zsum (map (fun cr => if cat == fst cr then f (snd cr) else 0) keyword_rules)
  = f (rules_of cat).
Proof.
  unfold categories; simpl. intro Hin.
  repeat (destruct Hin as [<-|Hin]; [cbn; lia|]). contradiction.
Qed.

Lemma category_count_of_kwargs (cat : string) (c : Counter) :
  In cat categories ->
  category_count cat (LabelCategory_of_kwargs c) = counter_get cat c.
Proof.
  unfold categories; simpl. intro Hin.
  repeat (destruct Hin as [<-|Hin]; [reflexivity|]). contradiction.
Qed.

Section CategorizerFacts.
Context `{Collaborators}.

Lemma category_match_fold (words : list string) (rules : list rule) (m : Z) :
  fold_left (fun m r => if rule_hits words r then 1 else m) rules m
  = if existsb (rule_hits words) rules then 1 else m.
Proof.
  revert m; induction rules as [|r rules IH]; intro m; simpl; [reflexivity|].
  rewrite IH. destruct (rule_hits words r); simpl; [|reflexivity].
  now destruct (existsb (rule_hits words) rules).
Qed.

Lemma category_match_hits (words : list string) (rules : list rule) :
  category_match words rules = if existsb (rule_hits words) rules then 1 else 0.
Proof. apply category_match_fold. Qed.

Lemma count_label_get (c : Counter) (label cat : string) :
  In cat categories ->
  counter_get cat (count_label c label) = counter_get cat c + increment cat label.
Proof.
  intro Hin. unfold count_label, increment.
  rewrite (counter_get_fold (category_match (label_words label))).
  now rewrite keyword_rules_select.
Qed.

Lemma count_labels_get (labels : list string) (c : Counter) (cat : string) :
  In cat categories ->
  counter_get cat (fold_left count_label labels c)
  = counter_get cat c + Zsum (map (increment cat) labels).
Proof.
  intro Hin. revert c.
  induction labels as [|label labels IH]; intro c; simpl; [lia|].
  rewrite IH, count_label_get by exact Hin. lia.
Qed.

(** C7: each label adds to each category 0 or 1, and 1 exactly when at
    least one rule of the category hits the label's words (several hits
    still add 1); the count of a category in the output is the sum of
    these increments over the labels; a label hit by a rule of "bug" and
    by a rule of "test" adds 1 to both; and the single label "bug", which
    the lemmatizer leaves as it is, yields bug = 1. *)
Theorem label_category_counts :
  (forall cat label : string,
      increment cat label
      = if existsb (rule_hits (label_words label)) (rules_of cat)
        then 1 else 0)
  /\ (forall (c : Counter) (cat label : string),
         In cat categories ->
         counter_get cat (count_label c label)
         = counter_get cat c + increment cat label)
  /\ (forall (labels : list string) (cat : string),
         In cat categories ->
         category_count cat (_get_categorized_labels labels)
         = Zsum (map (increment cat) labels))
  /\ (forall (c : Counter) (label : string),
         existsb (rule_hits (label_words label)) (rules_of "bug") = true ->
         existsb (rule_hits (label_words label)) (rules_of "test") = true ->
         counter_get "bug" (count_label c label) = counter_get "bug" c + 1
         /\ counter_get "test" (count_label c label)
            = counter_get "test" c + 1)
  /\ (lemmatize "bug" = "bug" ->
      lc_bug (_get_categorized_labels ["bug"]) = 1).
Proof.
  split; [intros; apply category_match_hits|].
  split; [intros; now apply count_label_get|].
  split.
  { intros labels cat Hin. unfold _get_categorized_labels.
    rewrite category_count_of_kwargs, count_labels_get by exact Hin.
    reflexivity. }
  split.
  { intros c label Hb Ht.
    rewrite !count_label_get by (unfold categories; simpl; tauto).
    unfold increment. rewrite !category_match_hits, Hb, Ht. now split. }
  intro Hl.
  change (lc_bug (_get_categorized_labels ["bug"]))
    with (category_count "bug" (_get_categorized_labels ["bug"])).
  unfold _get_categorized_labels.
  rewrite category_count_of_kwargs, count_labels_get
    by (unfold categories; simpl; tauto).
  assert (Hw : label_words "bug" = ["bug"]).
  { unfold label_words.
    change (PyStr.findall PyStr.match_word 0
              (PyStr.underscores_to_spaces (PyStr.lower "bug")))
      with ["bug"].
    simpl. now rewrite Hl. }
  unfold increment. simpl map. rewrite Hw. reflexivity.
Qed.

End CategorizerFacts.

Lemma label_category_counts_witness :
  category_count "test" (_get_categorized_labels (H := toy) ["bug-in-tests"; "bug"])
  = Zsum (map (increment (H := toy) "test") ["bug-in-tests"; "bug"])
  /\ (counter_get "bug" (count_label (H := toy) [] "bug-in-tests") = 0 + 1
      /\ counter_get "test" (count_label (H := toy) [] "bug-in-tests") = 0 + 1)
  /\ lc_bug (_get_categorized_labels (H := toy) ["bug"]) = 1.
Proof.
  destruct (label_category_counts (H := toy)) as (_ & _ & Hsum & Hboth & Hbug).
  split; [apply Hsum; unfold categories; simpl; tauto|].
  split; [apply (Hboth [] "bug-in-tests"); reflexivity|].
  apply Hbug; reflexivity.
Defined.

(** ** User feature aggregator *)

Lemma filterM_total {A : Type} (p : A -> result bool) (l : list A) :
  (forall x, In x l -> exists b, p x = Ret b) ->
  exists r, filterM p l = Ret r.
Proof.
  induction l as [|x l IH]; intro Hp; simpl; [now exists []|].
  destruct (Hp x (or_introl eq_refl)) as [b ->].
  destruct IH as [r ->]; [intros y Hy; apply Hp; now right|].
  simpl. eauto.
Qed.

Lemma mapM_total {A B : Type} (f : A -> result B) (l : list A) :
  (forall x, In x l -> exists y, f x = Ret y) ->
  exists r, mapM f l = Ret r.
Proof.
  induction l as [|x l IH]; intro Hf; simpl; [now exists []|].
  destruct (Hf x (or_introl eq_refl)) as [y ->].
  destruct IH as [r ->]; [intros z Hz; apply Hf; now right|].
  simpl. eauto.
Qed.

Lemma user_commit_query_spec (owner name user : string) (t : Z)
  (c : RepoCommit.t) :
  user_commit_query owner name user t c = true <-> credited owner name user t c.
Proof.
  unfold user_commit_query, credited.
  rewrite !andb_true_iff, orb_true_iff, andb_true_iff, !String.eqb_eq,
    !Z.leb_le.
  tauto.
Qed.

Section UserFacts.
Context `{Collaborators}.

Lemma closed_by_total (db : Store) (t : Z) (i : RepoIssue.t) :
  closed_issues_dated db -> In i (RepoIssues db) ->
  exists b, closed_by t i = Ret b.
Proof.
  intros Hd Hi. unfold closed_by.
  destruct (String.eqb_spec (RepoIssue.state i) "closed") as [Hs|_];
    [|now exists false].
  specialize (Hd i Hi Hs).
  destruct (RepoIssue.closed_at i); [simpl; eauto | now elim Hd].
Qed.

Lemma _get_user_data_total (db : Store) (owner name user : string) (t : Z) :
  closed_issues_dated db ->
  exists uf, _get_user_data db owner name user t = Ret uf.
Proof.
  intro Hd. unfold _get_user_data.
  destruct (user == "ghost"); [eauto|].
  match goal with
  | |- context [filterM ?p ?l] =>
      destruct (filterM_total p l) as [r ->]
  end; [|simpl; eauto].
  intros i Hi. apply filter_In in Hi as [Hi _].
  now apply (closed_by_total db).
Qed.

(** C1, as the code has it: for a user other than "ghost", the commit
    count is the number of commits of the repository that were authored
    and committed at or before the cutoff and whose committer is the user,
    or whose author is the user and whose committer is "web-flow"; the
    aggregator returns such a record as soon as every closed issue of the
    store carries its closing time. *)
Theorem user_commit_count (db : Store) (owner name user : string) (t : Z) :
  user <> "ghost" ->
  (forall c : RepoCommit.t,
      user_commit_query owner name user t c = true
      <-> credited owner name user t c)
  /\ (forall uf : UserFeature.t,
         _get_user_data db owner name user t = Ret uf ->
         UserFeature.n_commits uf
         = len (filter (user_commit_query owner name user t)
                       (RepoCommits db)))
  /\ (closed_issues_dated db ->
      exists uf, _get_user_data db owner name user t = Ret uf).
Proof.
  intro Hu.
  split; [apply user_commit_query_spec|].
  split; [|apply _get_user_data_total].
  intro uf. unfold _get_user_data.
  destruct (String.eqb_spec user "ghost") as [E|_]; [now elim Hu|].
  match goal with
  | |- context [filterM ?p ?l] => destruct (filterM p l) as [closed|e]
  end; simpl; [|discriminate].
  intro E. injection E as <-. reflexivity.
Qed.

End UserFacts.

Lemma user_commit_count_witness :
  "bob" <> "ghost"
  /\ _get_user_data db0 "o" "r" "bob" 5 = Ret (UserFeature.mk "bob" 1 0 0 [])
  /\ UserFeature.n_commits (UserFeature.mk "bob" 1 0 0 [])
     = len (filter (user_commit_query "o" "r" "bob" 5) (RepoCommits db0)).
Proof.
  assert (Hu : "bob" <> "ghost") by discriminate.
  split; [exact Hu|]. split; [reflexivity|].
  apply (proj1 (proj2 (user_commit_count db0 "o" "r" "bob" 5 Hu))).
  reflexivity.
Defined.

(** C1, as the specification words it, fails: commit1 was authored by
    alice and committed by bob, so the code credits it to bob and not to
    alice, while a count by author credits it to alice and not to bob. *)
Lemma commit_count_by_author_counterexample :
  "alice" <> "ghost"
  /\ _get_user_data db0 "o" "r" "alice" 5
     = Ret (UserFeature.mk "alice" 1 0 0 [])
  /\ len (filter (commit_query_as_stated "o" "r" "alice" 5) (RepoCommits db0))
     = 2
  /\ _get_user_data db0 "o" "r" "bob" 5 = Ret (UserFeature.mk "bob" 1 0 0 [])
  /\ len (filter (commit_query_as_stated "o" "r" "bob" 5) (RepoCommits db0))
     = 0.
Proof. repeat split; try reflexivity; discriminate. Qed.

(** ** Dynamics replayer *)

Lemma mem_In (x : string) (l : list string) :
  PyStr.mem x l = true <-> In x l.
Proof.
  unfold PyStr.mem. rewrite existsb_exists. split.
  - intros (y & Hy & E). apply String.eqb_eq in E. now subst.
  - intro Hx. exists x. split; [exact Hx | apply String.eqb_refl].
Qed.

(** [l.remove(x)] splits the list at the first occurrence of [x]. *)
Lemma list_remove_split (x : string) (l l' : list string) :
  list_remove x l = Ret l' ->
  exists a b, l = (a ++ x :: b)%list /\ ~ In x a /\ l' = (a ++ b)%list.
Proof.
  revert l'; induction l as [|y l IH]; intros l' Hr; simpl in Hr;
    [discriminate|].
  destruct (String.eqb_spec x y) as [->|Hxy].
  - injection Hr as <-. exists [], l. simpl. tauto.
  - destruct (list_remove x l) as [r|e]; simpl in Hr; [|discriminate].
    injection Hr as <-.
    destruct (IH r eq_refl) as (a & b & -> & Ha & ->).
    exists (y :: a), b. simpl. repeat split; try reflexivity.
    intros [E|Hin]; [now elim Hxy | now elim Ha].
Qed.

Lemma list_remove_total (x : string) (l : list string) :
  In x l -> exists l', list_remove x l = Ret l'.
Proof.
  induction l as [|y l IH]; intro Hin; simpl; [contradiction|].
  destruct (String.eqb_spec x y) as [->|Hxy]; [eauto|].
  destruct Hin as [E|Hin]; [now elim Hxy|].
  destruct (IH Hin) as [r ->]. simpl. eauto.
Qed.

Lemma replay_event_total (t : Z) (r : Replay) (e : IssueEvent.t) :
  exists r', replay_event t r e = Ret r'.
Proof.
  unfold replay_event.
  destruct (IssueEvent.time e <=? t); [|eauto].
  destruct (IssueEvent.type e == "labeled"); [eauto|].
  destruct (IssueEvent.type e == "unlabeled").
  - destruct (PyStr.mem (IssueEvent.label e) (labels r)) eqn:Hm; [|eauto].
    apply mem_In, list_remove_total in Hm as [l' ->]. simpl. eauto.
  - destruct (IssueEvent.type e == "commented"); eauto.
Qed.

Lemma foldM_total {A B : Type} (f : B -> A -> result B) (l : list A) (b : B) :
  (forall b x, exists b', f b x = Ret b') ->
  exists b', foldM f l b = Ret b'.
Proof.
  intro Hf. revert b; induction l as [|x l IH]; intro b; simpl; [eauto|].
  destruct (Hf b x) as [b' ->]. simpl. apply IH.
Qed.

Lemma replay_total (events : list IssueEvent.t) (t : Z) :
  exists r, replay events t = Ret r.
Proof. apply foldM_total. intros; apply replay_event_total. Qed.

Lemma replay_event_labeled (t : Z) (r : Replay) (e : IssueEvent.t) :
  IssueEvent.time e <= t -> IssueEvent.type e = "labeled" ->
  exists r', replay_event t r e = Ret r'
             /\ labels r' = (labels r ++ [IssueEvent.label e])%list.
Proof.
  intros Ht Hty. unfold replay_event.
  apply Z.leb_le in Ht. rewrite Ht, Hty. simpl. eauto.
Qed.

Lemma replay_event_unlabeled_present (t : Z) (r : Replay) (e : IssueEvent.t) :
  IssueEvent.time e <= t -> IssueEvent.type e = "unlabeled" ->
  In (IssueEvent.label e) (labels r) ->
  exists r' a b,
    replay_event t r e = Ret r'
    /\ labels r = (a ++ IssueEvent.label e :: b)%list
    /\ ~ In (IssueEvent.label e) a
    /\ labels r' = (a ++ b)%list.
Proof.
  intros Ht Hty Hin. unfold replay_event.
  apply Z.leb_le in Ht. rewrite Ht, Hty. simpl.
  rewrite (proj2 (mem_In _ _) Hin).
  destruct (list_remove_total _ _ Hin) as [l' Hl']. rewrite Hl'. simpl.
  destruct (list_remove_split _ _ _ Hl') as (a & b & Hab & Ha & ->).
  eexists _, a, b. repeat split; eauto.
Qed.

Lemma replay_event_unlabeled_absent (t : Z) (r : Replay) (e : IssueEvent.t) :
  IssueEvent.type e = "unlabeled" ->
  ~ In (IssueEvent.label e) (labels r) ->
  exists r', replay_event t r e = Ret r'
             /\ labels r' = labels r /\ comments r' = comments r
             /\ comment_users r' = comment_users r.
Proof.
  intros Hty Hin. unfold replay_event.
  destruct (IssueEvent.time e <=? t); [|eauto 6].
  rewrite Hty. simpl.
  destruct (PyStr.mem (IssueEvent.label e) (labels r)) eqn:Hm.
  - apply mem_In in Hm. now elim Hin.
  - eauto 6.
Qed.

Lemma replay_event_labels_NoDup (t : Z) (r r' : Replay) (e : IssueEvent.t) :
  replay_event t r e = Ret r' ->
  NoDup (labels r) ->
  (IssueEvent.type e = "labeled" -> ~ In (IssueEvent.label e) (labels r)) ->
  NoDup (labels r').
Proof.
  unfold replay_event. intros Hr Hnd Hfresh.
  destruct (IssueEvent.time e <=? t); [|now injection Hr as <-].
  destruct (String.eqb_spec (IssueEvent.type e) "labeled") as [Hty|_].
  { injection Hr as <-. simpl.
    apply NoDup_rev in Hnd. rewrite <- (rev_involutive (_ ++ _)%list).
    apply NoDup_rev. rewrite rev_app_distr. simpl. constructor; [|exact Hnd].
    rewrite <- in_rev. now apply Hfresh. }
  destruct (IssueEvent.type e == "unlabeled").
  - destruct (PyStr.mem (IssueEvent.label e) (labels r));
      [|now injection Hr as <-].
    destruct (list_remove (IssueEvent.label e) (labels r)) as [l'|] eqn:Hl';
      simpl in Hr; [|discriminate].
    injection Hr as <-. simpl.
    destruct (list_remove_split _ _ _ Hl') as (a & b & Hab & _ & ->).
    rewrite Hab in Hnd. now apply NoDup_remove_1 in Hnd.
  - destruct (IssueEvent.type e == "commented"); now injection Hr as <-.
Qed.

(** C5, as the code has it: the replayed labels are a list.  A labeled
    event at or before the cutoff appends its label, so a label already
    present gets one more occurrence; an unlabeled event whose label is
    present removes the first occurrence only; the list stays free of
    duplicates as long as no labeled event brings a label that is
    present; and replaying [labeled(x), labeled(x), unlabeled(x)] leaves
    the one-element list [x]. *)
Theorem replayed_labels_are_a_list :
  (forall (t : Z) (r : Replay) (e : IssueEvent.t),
      IssueEvent.time e <= t -> IssueEvent.type e = "labeled" ->
      exists r', replay_event t r e = Ret r'
                 /\ labels r' = (labels r ++ [IssueEvent.label e])%list)
  /\ (forall (t : Z) (r : Replay) (e : IssueEvent.t),
         IssueEvent.time e <= t -> IssueEvent.type e = "unlabeled" ->
         In (IssueEvent.label e) (labels r) ->
         exists r' a b,
           replay_event t r e = Ret r'
           /\ labels r = (a ++ IssueEvent.label e :: b)%list
           /\ ~ In (IssueEvent.label e) a
           /\ labels r' = (a ++ b)%list)
  /\ (forall (t : Z) (r r' : Replay) (e : IssueEvent.t),
         replay_event t r e = Ret r' ->
         NoDup (labels r) ->
         (IssueEvent.type e = "labeled" ->
          ~ In (IssueEvent.label e) (labels r)) ->
         NoDup (labels r'))
  /\ (forall (t : Z) (x : string) (e1 e2 e3 : IssueEvent.t),
         IssueEvent.time e1 <= t /\ IssueEvent.time e2 <= t
         /\ IssueEvent.time e3 <= t ->
         IssueEvent.type e1 = "labeled" /\ IssueEvent.type e2 = "labeled"
         /\ IssueEvent.type e3 = "unlabeled" ->
         IssueEvent.label e1 = x /\ IssueEvent.label e2 = x
         /\ IssueEvent.label e3 = x ->
         exists r, replay [e1; e2; e3] t = Ret r /\ labels r = [x]).
Proof.
  split; [exact replay_event_labeled|].
  split; [exact replay_event_unlabeled_present|].
  split; [exact replay_event_labels_NoDup|].
  intros t x e1 e2 e3 (T1 & T2 & T3) (Y1 & Y2 & Y3) (L1 & L2 & L3).
  unfold replay. simpl.
  destruct (replay_event_labeled t (mkReplay [] [] [] []) e1 T1 Y1)
    as (r1 & -> & H1). simpl.
  destruct (replay_event_labeled t r1 e2 T2 Y2) as (r2 & -> & H2). simpl.
  rewrite H1, L1, L2 in H2. simpl in H2.
  unfold replay_event. apply Z.leb_le in T3. rewrite T3, Y3, L3, H2. simpl.
  rewrite String.eqb_refl. simpl. eauto.
Qed.

Lemma replayed_labels_are_a_list_witness :
  exists r, replay [labeled_x 1; labeled_x 2; unlabeled_x 3] 5 = Ret r
            /\ labels r = ["x"].
Proof.
  apply (proj2 (proj2 (proj2 replayed_labels_are_a_list))
           5 "x" (labeled_x 1) (labeled_x 2) (unlabeled_x 3)).
  - simpl. lia.
  - repeat split; reflexivity.
  - repeat split; reflexivity.
Defined.

(** C5, as the specification words it, fails: after two labeled events
    for "x" the replayed labels hold "x" twice, and one unlabeled event
    then leaves one "x" behind instead of the empty set. *)
Lemma label_set_counterexample :
  (exists r, replay [labeled_x 1; labeled_x 2] 5 = Ret r
             /\ labels r = ["x"; "x"] /\ ~ NoDup (labels r))
  /\ (exists r, replay [labeled_x 1; labeled_x 2; unlabeled_x 3] 5 = Ret r
                /\ labels r = ["x"] /\ labels r <> []).
Proof.
  split; eexists; (split; [reflexivity|]); simpl;
    (split; [reflexivity|]).
  - intro Hnd. inversion Hnd as [|? ? Hx _]. apply Hx. now left.
  - discriminate.
Qed.

Section ReplayFacts.
Context `{Collaborators}.

(** C6: an unlabeled event whose label is not among the replayed labels
    does not raise and leaves the labels (and the comments and
    commenters) as they were; the replay of any event list returns; the
    replay of a single unlabeled event returns the empty label list; and
    on a store whose closed issues carry their closing time, the whole
    of [_get_dynamics_data] returns for that event list, with no
    labels. *)
Theorem unlabel_without_label_ignored :
  (forall (t : Z) (r : Replay) (e : IssueEvent.t),
      IssueEvent.type e = "unlabeled" ->
      ~ In (IssueEvent.label e) (labels r) ->
      exists r', replay_event t r e = Ret r'
                 /\ labels r' = labels r /\ comments r' = comments r
                 /\ comment_users r' = comment_users r)
  /\ (forall (events : list IssueEvent.t) (t : Z),
         exists r, replay events t = Ret r)
  /\ (forall (t : Z) (e : IssueEvent.t),
         IssueEvent.type e = "unlabeled" ->
         exists r, replay [e] t = Ret r /\ labels r = [])
  /\ (forall (db : Store) (owner name : string) (t : Z) (e : IssueEvent.t),
         closed_issues_dated db ->
         IssueEvent.type e = "unlabeled" ->
         exists event_users,
           _get_dynamics_data db owner name [e] t
           = Ret ([], [], [], event_users)).
Proof.
  split; [exact replay_event_unlabeled_absent|].
  split; [exact replay_total|].
  split.
  - intros t e Hty. unfold replay. simpl.
    destruct (replay_event_unlabeled_absent t (mkReplay [] [] [] []) e Hty)
      as (r' & -> & Hl & _); [simpl; tauto|].
    simpl. eauto.
  - intros db owner name t e Hd Hty. unfold _get_dynamics_data, replay. simpl.
    destruct (replay_event_unlabeled_absent t (mkReplay [] [] [] []) e Hty)
      as (r' & -> & Hl & Hc & Hu); [simpl; tauto|].
    simpl in *. rewrite Hl, Hc, Hu. simpl.
    destruct (mapM_total (fun user => _get_user_data db owner name user t)
                (event_users r')) as [eu ->]; [|simpl; eauto].
    intros user _. now apply _get_user_data_total.
Qed.

End ReplayFacts.

Lemma unlabel_without_label_ignored_witness :
  (exists r, replay [unlabeled_x 3] 5 = Ret r /\ labels r = [])
  /\ closed_issues_dated db0
  /\ exists event_users,
      _get_dynamics_data db0 "o" "r" [unlabeled_x 3] 5
      = Ret ([], [], [], event_users).
Proof.
  assert (Hd : closed_issues_dated db0).
  { intros i Hi Hs. simpl in Hi.
    destruct Hi as [<-|[<-|[<-|[]]]]; discriminate. }
  destruct (unlabel_without_label_ignored (H := toy)) as (_ & _ & H3 & H4).
  split; [apply (H3 5 (unlabeled_x 3)); reflexivity|].
  split; [exact Hd|].
  apply (H4 db0 "o" "r" 5 (unlabeled_x 3) Hd). reflexivity.
Defined.

(** ** Snapshot builder *)

Section BuilderFacts.
Context `{Collaborators}.

(** The five ways through [get_dataset]. *)
Lemma get_dataset_cases (issue : Issue) (before : Z) (st : State) :
  get_dataset issue before st =
  let st1 := enter issue before st in
  match first (filter (existing_query issue before) (Datasets (store st1))) with
  | Some d =>
      Ok (Some d)
         (with_log st1 INFO
            (AlreadyInDataset (issue_owner issue) (issue_name issue)
                              (issue_number issue) before))
  | None =>
      match first (filter (repo_issue_key issue) (RepoIssues (store st1))) with
      | None => Raise AttributeError st1
      | Some repo_issue =>
          if RepoIssue.is_pull repo_issue then
            Ok None
               (with_log st1 ERROR
                  (PullRequest (issue_owner issue) (issue_name issue)
                               (issue_number issue)))
          else
            let st2 :=
              with_log st1 INFO
                (BuildStart (issue_owner issue) (issue_name issue)
                            (issue_number issue) before) in
            match compose_dataset issue before repo_issue (store st1) with
            | Exc e => Raise e st2
            | Ret data =>
                if storable data then
                  Ok (Some data)
                     (with_log (set_store (insert_dataset data (store st1)) st2)
                        INFO
                        (BuildDone (issue_owner issue) (issue_name issue)
                                   (issue_number issue) before))
                else Raise OverflowError st2
            end
      end
  end.
Proof.
  unfold get_dataset, bind, called, update, save_dataset, query, logger, lift, ret,
    enter, with_log, set_store.
  destruct issue as [i|i]; cbn [store logged calls];
    (destruct (first (filter _ (Datasets _))); [reflexivity|]);
    (destruct (first (filter _ (RepoIssues _))) as [ri|]; [|reflexivity]);
    (destruct (RepoIssue.is_pull ri); [reflexivity|]);
    cbn [store logged calls];
    (destruct (compose_dataset _ _ _ _) as [data|e]; [|reflexivity]);
    destruct (storable data); reflexivity.
Qed.

Lemma compose_dataset_fields (issue : Issue) (before : Z)
  (repo_issue : RepoIssue.t) (db : Store) (data : Dataset.t) :
  compose_dataset issue before repo_issue db = Ret data ->
  Dataset.owner data = issue_owner issue
  /\ Dataset.name data = issue_name issue
  /\ Dataset.number data = issue_number issue
  /\ Dataset.before data = before
  /\ Dataset.resolver_commit_num data = issue_resolver_commit_num issue.
Proof.
  unfold compose_dataset. intro Hc.
  destruct (_get_background_data _ _ _ _) as [[[[contribs n_closed] n_open] ct]|];
    simpl in Hc; [|discriminate].
  destruct (_get_dynamics_data _ _ _ _ _) as [[[[ls cs] cu] eu]|];
    simpl in Hc; [|discriminate].
  repeat match type of Hc with
         | rbind ?r _ = _ => destruct r; simpl in Hc; [|discriminate]
         end.
  injection Hc as <-. simpl. destruct issue; repeat split; reflexivity.
Qed.

Lemma filter_filter {A : Type} (p q : A -> bool) (l : list A) :
  filter p (filter q l) = filter (fun x => p x && q x) l.
Proof.
  induction l as [|x l IH]; simpl; [reflexivity|].
  destruct (q x); simpl; rewrite ?andb_true_r, ?andb_false_r;
    [destruct (p x)|]; now rewrite IH.
Qed.

Lemma filter_all {A : Type} (p : A -> bool) (l : list A) :
  (forall x, In x l -> p x = true) -> filter p l = l.
Proof.
  induction l as [|x l IH]; intro Hp; simpl; [reflexivity|].
  rewrite (Hp x (or_introl eq_refl)), IH; [reflexivity|].
  intros y Hy. apply Hp. now right.
Qed.

Lemma first_None {A : Type} (l : list A) : first l = None -> l = [].
Proof. destruct l; [reflexivity | discriminate]. Qed.

Lemma set_Datasets_same (db : Store) : set_Datasets (Datasets db) db = db.
Proof. now destruct db. Qed.

Lemma delete_stale_idem (issue : Issue) (db : Store) :
  delete_stale issue (delete_stale issue db) = delete_stale issue db.
Proof.
  unfold delete_stale, set_Datasets. simpl. f_equal.
  rewrite filter_filter. apply filter_ext. intro d.
  now destruct (stale issue d).
Qed.

Lemma delete_stale_none (issue : Issue) (db : Store) :
  (forall d, In d (Datasets db) -> stale issue d = false) ->
  delete_stale issue db = db.
Proof.
  intro Hs. unfold delete_stale. rewrite filter_all.
  - apply set_Datasets_same.
  - intros d Hd. now rewrite (Hs d Hd).
Qed.

Lemma delete_stale_clean (issue : Issue) (db : Store) (d : Dataset.t) :
  In d (Datasets (delete_stale issue db)) -> stale issue d = false.
Proof.
  unfold delete_stale. simpl. rewrite filter_In. intros [_ Hd].
  now apply negb_true_iff.
Qed.

(** After the entry of a call, a second entry finds nothing to delete. *)
Lemma enter_store_clean (issue : Issue) (before : Z) (st : State)
  (d : Dataset.t) :
  In d (Datasets (store (enter issue before st))) -> survives issue d = true.
Proof.
  destruct issue as [i|i]; simpl; [|reflexivity].
  intro Hd. now rewrite (delete_stale_clean _ _ _ Hd).
Qed.

Lemma enter_store_fixed (issue : Issue) (before : Z) (st : State) :
  (forall d, In d (Datasets (store st)) -> survives issue d = true) ->
  store (enter issue before st) = store st.
Proof.
  destruct issue as [i|i]; simpl; [|reflexivity].
  intro Hs. apply delete_stale_none. intros d Hd.
  apply negb_true_iff. now apply Hs.
Qed.

Lemma new_dataset_queries (issue : Issue) (before : Z)
  (repo_issue : RepoIssue.t) (db : Store) (data : Dataset.t) :
  compose_dataset issue before repo_issue db = Ret data ->
  existing_query issue before data = true
  /\ (definitive issue -> survives issue data = true).
Proof.
  intro Hc.
  destruct (compose_dataset_fields _ _ _ _ _ Hc) as (Ho & Hn & Hk & Hb & Hr).
  unfold existing_query, survives, stale, dataset_key.
  rewrite Ho, Hn, Hk, Hb, Hr, !String.eqb_refl, !Z.eqb_refl. split;
    [reflexivity|].
  destruct issue as [i|i]; simpl; [|reflexivity].
  intro Hd. apply Z.eqb_neq in Hd. now rewrite Hd.
Qed.

Lemma stale_spec (issue : Issue) (d : Dataset.t) :
  stale issue d = true <-> stale_for issue d.
Proof.
  unfold stale, dataset_key, stale_for.
  rewrite !andb_true_iff, !String.eqb_eq, !Z.eqb_eq. tauto.
Qed.

(** The snapshots of the store at the end of a call: those seen by the
    existence check, followed by at most the one built and returned. *)
Lemma get_dataset_added (issue : Issue) (before : Z) (st : State) :
  exists added : list Dataset.t,
    Datasets (store (final_state (get_dataset issue before st)))
    = (Datasets (store (enter issue before st)) ++ added)%list
    /\ (added = []
        \/ exists data st',
            added = [data]
            /\ get_dataset issue before st = Ok (Some data) st'
            /\ existing_query issue before data = true
            /\ Dataset.resolver_commit_num data
               = issue_resolver_commit_num issue).
Proof.
  rewrite get_dataset_cases. cbv zeta.
  destruct (first (filter _ (Datasets _)));
    [exists []; simpl; rewrite app_nil_r; auto|].
  destruct (first (filter _ (RepoIssues _))) as [ri|];
    [|exists []; simpl; rewrite app_nil_r; auto].
  destruct (RepoIssue.is_pull ri);
    [exists []; simpl; rewrite app_nil_r; auto|].
  destruct (compose_dataset _ _ _ _) as [data|e] eqn:Hc;
    [|exists []; simpl; rewrite app_nil_r; auto].
  destruct (storable data);
    [|exists []; simpl; rewrite app_nil_r; auto].
  exists [data]. split; [reflexivity|]. right.
  eexists data, _. split; [reflexivity|]. split; [reflexivity|].
  split; [exact (proj1 (new_dataset_queries _ _ _ _ _ Hc))|].
  apply (compose_dataset_fields _ _ _ _ _ Hc).
Qed.

(** C3: the snapshots that the call for a resolved issue deletes are
    exactly those for the same owner, name and number that carry
    resolver_commit_num = -1.  The call runs as it would on the store
    from which these have been removed, so the existence check and the
    build never see them; its final snapshots are the others, in their
    order, followed by at most the one it built and returned; every
    snapshot that is not one of them is kept; and when the issue's own
    commit number is not -1, none of them is in the store afterwards,
    whatever the outcome of the call.  For an open issue every snapshot
    of the store is kept. *)
Theorem stale_snapshots_superseded (issue : Issue) (before : Z) (st : State) :
  (forall d : Dataset.t, stale issue d = true <-> stale_for issue d)
  /\ match issue with
     | Resolved _ =>
         get_dataset issue before st
         = get_dataset issue before
             (set_store (delete_stale issue (store st)) st)
         /\ (exists added : list Dataset.t,
                Datasets (store (final_state (get_dataset issue before st)))
                = (filter (fun d => negb (stale issue d)) (Datasets (store st))
                   ++ added)%list
                /\ (added = []
                    \/ exists data st',
                        added = [data]
                        /\ get_dataset issue before st = Ok (Some data) st'
                        /\ existing_query issue before data = true
                        /\ Dataset.resolver_commit_num data
                           = issue_resolver_commit_num issue))
         /\ (forall d : Dataset.t,
                In d (Datasets (store st)) -> ~ stale_for issue d ->
                In d (Datasets
                        (store (final_state (get_dataset issue before st)))))
         /\ (definitive issue ->
             forall d : Dataset.t,
               stale_for issue d ->
               ~ In d (Datasets
                         (store (final_state (get_dataset issue before st)))))
     | Open _ =>
         exists added : list Dataset.t,
           Datasets (store (final_state (get_dataset issue before st)))
           = (Datasets (store st) ++ added)%list
     end.
Proof.
  split; [intro d; apply stale_spec|].
  pose proof (get_dataset_added issue before st) as Hshape.
  destruct issue as [i|i].
  - split; [|split; [exact Hshape|split]].
    + rewrite !get_dataset_cases. unfold enter, set_store.
      cbn [store logged calls]. now rewrite delete_stale_idem.
    + intros d Hd Hn. destruct Hshape as (added & -> & _).
      apply in_or_app. left. simpl. apply filter_In. split; [exact Hd|].
      apply negb_true_iff. destruct (stale (Resolved i) d) eqn:Hs;
        [|reflexivity].
      elim Hn. now apply stale_spec.
    + intros Hdef d Hs Hin. destruct Hshape as (added & Hds & Hadd).
      rewrite Hds in Hin. apply in_app_or in Hin as [Hin|Hin].
      * apply (delete_stale_clean (Resolved i) (store st) d) in Hin.
        apply stale_spec in Hs. congruence.
      * destruct Hadd as [->|(data & st' & -> & _ & _ & Hr)];
          [contradiction|].
        destruct Hin as [<-|[]]. destruct Hs as (_ & _ & _ & Hs).
        simpl in Hdef, Hr. congruence.
  - destruct Hshape as (added & Hadd & _). now exists added.
Qed.

(** C2, as the code has it: when the store holds a snapshot for
    (owner, name, number, cutoff) that outlives the deletion of stale
    snapshots (for an open issue: any such snapshot), the call returns
    the first one, keeps it in the store and adds no snapshot; and
    whenever a call for an open issue, or for a resolved issue whose
    resolver_commit_num is not -1, returns, a second call with the same
    arguments returns the same value and leaves the store as it was. *)
Theorem get_dataset_idempotent (issue : Issue) (before : Z) (st : State) :
  (forall d : Dataset.t,
      first (filter (fun d => existing_query issue before d
                              && survives issue d) (Datasets (store st)))
      = Some d ->
      exists st',
        get_dataset issue before st = Ok (Some d) st'
        /\ store st' = store (enter issue before st)
        /\ In d (Datasets (store st'))
        /\ (List.length (Datasets (store st'))
            <= List.length (Datasets (store st)))%nat)
  /\ (definitive issue ->
      forall (a : option Dataset.t) (st1 : State),
        get_dataset issue before st = Ok a st1 ->
        exists st2,
          get_dataset issue before st1 = Ok a st2
          /\ store st2 = store st1).
Proof.
  split.
  - intros d Hd.
    assert (Hd' : first (filter (existing_query issue before)
                           (Datasets (store (enter issue before st))))
                  = Some d).
    { rewrite <- Hd. destruct issue as [i|i]; simpl.
      - rewrite filter_filter. reflexivity.
      - f_equal. apply filter_ext. intro x. now rewrite andb_true_r. }
    rewrite get_dataset_cases. cbv zeta. rewrite Hd'.
    eexists. split; [reflexivity|]. split; [reflexivity|]. split.
    + simpl. destruct (filter _ _) as [|x l] eqn:Hf in Hd'; [discriminate|].
      injection Hd' as ->.
      assert (Hin : In d (d :: l)) by now left.
      rewrite <- Hf in Hin. now apply filter_In in Hin.
    + simpl. destruct issue as [i|i]; simpl; [apply filter_length_le | lia].
  - intros Hdef a st1 H1.
    rewrite get_dataset_cases in H1. cbv zeta in H1.
    rewrite get_dataset_cases. cbv zeta.
    destruct (first (filter _ (Datasets _))) as [d|] eqn:He in H1.
    { injection H1 as <- <-.
      match goal with
      | |- context [enter issue before ?s] =>
          assert (Hst : store (enter issue before s) = store s)
      end.
      { apply enter_store_fixed. intro x.
        exact (enter_store_clean issue before st x). }
      rewrite Hst. cbn [with_log store]. rewrite He.
      eexists. split; [reflexivity|]. exact Hst. }
    destruct (first (filter _ (RepoIssues _))) as [ri|] eqn:Hri in H1;
      [|discriminate].
    destruct (RepoIssue.is_pull ri) eqn:Hp in H1.
    { injection H1 as <- <-.
      match goal with
      | |- context [enter issue before ?s] =>
          assert (Hst : store (enter issue before s) = store s)
      end.
      { apply enter_store_fixed. intro x.
        exact (enter_store_clean issue before st x). }
      rewrite Hst. cbn [with_log store]. rewrite He, Hri, Hp.
      eexists. split; [reflexivity|]. exact Hst. }
    destruct (compose_dataset _ _ _ _) as [data|e] eqn:Hc in H1;
      [|discriminate].
    destruct (storable data) in H1; [|discriminate].
    injection H1 as <- <-.
    destruct (new_dataset_queries _ _ _ _ _ Hc) as [Hq Hs].
    match goal with
    | |- context [enter issue before ?s] =>
        assert (Hst : store (enter issue before s) = store s)
    end.
    { apply enter_store_fixed. simpl. intros x Hx.
      apply in_app_or in Hx as [Hx|[<-|[]]]; [|now apply Hs].
      now apply (enter_store_clean issue before st). }
    rewrite Hst.
    change (match issue with
            | Resolved _ => delete_stale issue (store st)
            | Open _ => store st
            end) with (store (enter issue before st)) in *.
    cbn [with_log set_store store insert_dataset set_Datasets Datasets
         RepoIssues].
    rewrite filter_app, (first_None _ He). cbn [filter app].
    rewrite Hq. cbn [first hd_error].
    eexists. split; [reflexivity|]. exact Hst.
Qed.

Lemma filter_nil_and {A : Type} (p q : A -> bool) (l : list A) :
  filter p l = [] -> filter (fun x => p x && q x) l = [].
Proof.
  induction l as [|x l IH]; simpl; [reflexivity|].
  destruct (p x); simpl; [discriminate | exact IH].
Qed.

Lemma enter_RepoIssues (issue : Issue) (before : Z) (st : State) :
  RepoIssues (store (enter issue before st)) = RepoIssues (store st).
Proof. now destruct issue. Qed.

Lemma enter_Datasets (issue : Issue) (before : Z) (st : State) :
  Datasets (store (enter issue before st))
  = filter (survives issue) (Datasets (store st)).
Proof.
  destruct issue as [i|i]; simpl; [reflexivity|].
  symmetry. now apply filter_all.
Qed.

(** A call whose issue record is a pull request returns: the snapshot
    found by the existence check, or None.  It changes the store no
    further than the entry of the call does. *)
Lemma get_dataset_pull_returns (issue : Issue) (before : Z) (st : State)
  (repo_issue : RepoIssue.t) :
  first (filter (repo_issue_key issue) (RepoIssues (store st)))
  = Some repo_issue ->
  RepoIssue.is_pull repo_issue = true ->
  exists a st',
    get_dataset issue before st = Ok a st'
    /\ store st' = store (enter issue before st).
Proof.
  intros Hri Hp. rewrite get_dataset_cases. cbv zeta.
  rewrite enter_RepoIssues, Hri, Hp.
  destruct (first (filter _ (Datasets _))); eauto.
Qed.

(** C9: when the store holds no snapshot for (owner, name, number,
    cutoff) and the first issue record with the issue's key is a pull
    request, the call returns None without raising, logs one error and
    adds no snapshot; and an issue whose record is a pull request never
    stops the loops of the caller, which go on with the remaining issues
    in a store that gained no snapshot. *)
Theorem pull_request_aborts :
  (forall (issue : Issue) (before : Z) (st : State) (repo_issue : RepoIssue.t),
      filter (existing_query issue before) (Datasets (store st)) = [] ->
      first (filter (repo_issue_key issue) (RepoIssues (store st)))
      = Some repo_issue ->
      RepoIssue.is_pull repo_issue = true ->
      exists st',
        get_dataset issue before st = Ok None st'
        /\ logged st'
           = (logged st
              ++ [(ERROR, PullRequest (issue_owner issue) (issue_name issue)
                                      (issue_number issue))])%list
        /\ Datasets (store st') = filter (survives issue) (Datasets (store st)))
  /\ (forall (i : ResolvedIssue.t) (rest : list ResolvedIssue.t)
             (opens : list OpenIssue.t) (st : State) (repo_issue : RepoIssue.t),
         first (filter (repo_issue_key (Resolved i)) (RepoIssues (store st)))
         = Some repo_issue ->
         RepoIssue.is_pull repo_issue = true ->
         exists st',
           get_dataset_with_issues (i :: rest) opens st
           = get_dataset_with_issues rest opens st'
           /\ store st' = delete_stale (Resolved i) (store st))
  /\ (forall (i : OpenIssue.t) (rest : list OpenIssue.t) (st : State)
             (repo_issue : RepoIssue.t),
         first (filter (repo_issue_key (Open i)) (RepoIssues (store st)))
         = Some repo_issue ->
         RepoIssue.is_pull repo_issue = true ->
         exists st',
           for_each (i :: rest) open_body st = for_each rest open_body st'
           /\ store st' = store st).
Proof.
  split; [|split].
  - intros issue before st ri He Hri Hp.
    rewrite get_dataset_cases. cbv zeta.
    rewrite enter_RepoIssues, enter_Datasets, filter_filter,
      (filter_nil_and _ _ _ He), Hri, Hp.
    eexists. split; [reflexivity|]. split; [reflexivity|].
    cbn [with_log store]. apply enter_Datasets.
  - intros i rest opens st ri Hri Hp.
    destruct (get_dataset_pull_returns (Resolved i)
                (ResolvedIssue.created_at i) st ri Hri Hp)
      as (a1 & st1 & E1 & S1).
    assert (Hri1 : first (filter (repo_issue_key (Resolved i))
                            (RepoIssues (store st1))) = Some ri)
      by (rewrite S1, enter_RepoIssues; exact Hri).
    destruct (get_dataset_pull_returns (Resolved i)
                (ResolvedIssue.resolved_at i) st1 ri Hri1 Hp)
      as (a2 & st2 & E2 & S2).
    exists st2. split.
    + unfold get_dataset_with_issues, bind. cbn [for_each].
      unfold bind, resolved_body, bind, ret. now rewrite E1, E2.
    + rewrite S2. simpl. rewrite S1. simpl. apply delete_stale_idem.
  - intros i rest st ri Hri Hp.
    cbn [for_each]. unfold bind, open_body, bind, query, logger, ret.
    destruct (up_to_date i (store st)); [eexists; split; reflexivity|].
    destruct (get_dataset_pull_returns (Open i) (OpenIssue.updated_at i)
                st ri Hri Hp) as (a1 & st1 & E1 & S1).
    rewrite E1. exists st1. split; [reflexivity | exact S1].
Qed.

End BuilderFacts.

Lemma stale_snapshots_superseded_witness :
  exists d : Dataset.t,
    first (Datasets (store st_open1)) = Some d
    /\ stale_for (Resolved resolved1) d
    /\ ~ In d (Datasets
                 (store (final_state
                           (get_dataset (Resolved resolved1) 30 st_open1)))).
Proof.
  assert (Hdef : definitive (Resolved resolved1)) by (simpl; lia).
  assert (Hd : exists d,
             first (Datasets (store st_open1)) = Some d
             /\ stale_for (Resolved resolved1) d).
  { eexists. split; [vm_compute; reflexivity|].
    repeat split; vm_compute; reflexivity. }
  destruct Hd as (d & Hf & Hs).
  exists d. split; [exact Hf|]. split; [exact Hs|].
  pose proof (stale_snapshots_superseded (Resolved resolved1) 30 st_open1)
    as [_ Hcall].
  cbv beta iota in Hcall. destruct Hcall as (_ & _ & _ & Hgone).
  exact (Hgone Hdef d Hs).
Defined.

Lemma get_dataset_idempotent_witness :
  definitive (Resolved resolved1)
  /\ exists (a : option Dataset.t) (st1 st2 : State (H := toy)),
      get_dataset (Resolved resolved1) 30 st0 = Ok a st1
      /\ a <> None
      /\ get_dataset (Resolved resolved1) 30 st1 = Ok a st2
      /\ store st2 = store st1.
Proof.
  assert (Hdef : definitive (Resolved resolved1)) by (simpl; lia).
  split; [exact Hdef|].
  pose (o := get_dataset (H := toy) (Resolved resolved1) 30 st0).
  assert (Ho : exists a, returned o = Some (Some a))
    by (eexists; vm_compute; reflexivity).
  destruct o as [a st1|e st1] eqn:E;
    [|destruct Ho as [x Hx]; discriminate Hx].
  destruct (proj2 (get_dataset_idempotent (Resolved resolved1) 30 st0)
              Hdef a st1 E) as (st2 & H2 & H3).
  exists a, st1, st2. repeat split; auto.
  destruct Ho as [x Hx]. simpl in Hx. injection Hx as ->.
  clear E H2 H3. discriminate.
Defined.

(** C2, as the specification words it, fails: the store [st_open1]
    holds a snapshot for (o, r, 1, 10), built while issue 1 was open; a
    call for the resolved issue 1 at the same cutoff deletes it, builds a
    new snapshot and returns the new one. *)
Lemma existing_snapshot_rebuilt_counterexample :
  exists (d d' : Dataset.t) (st' : State (H := toy)),
    Datasets (store st_open1) = [d]
    /\ existing_query (Resolved resolved1) 10 d = true
    /\ get_dataset (Resolved resolved1) 10 st_open1 = Ok (Some d') st'
    /\ Dataset.resolver_commit_num d = -1
    /\ Dataset.resolver_commit_num d' = 2
    /\ d' <> d
    /\ Datasets (store st') = [d'].
Proof.
  do 3 eexists. split; [vm_compute; reflexivity|].
  split; [vm_compute; reflexivity|].
  split; [vm_compute; reflexivity|].
  split; [reflexivity|]. split; [reflexivity|]. split; [|reflexivity].
  intro E. apply (f_equal Dataset.resolver_commit_num) in E. discriminate.
Qed.

Lemma pull_request_aborts_witness :
  exists st' : State (H := toy),
    get_dataset (Open open2) 12 st0 = Ok None st'
    /\ logged st' = [(ERROR, PullRequest "o" "r" 2)]
    /\ Datasets (store st') = [].
Proof.
  destruct (proj1 (pull_request_aborts (H := toy)) (Open open2) 12 st0
              repo_issue2 eq_refl eq_refl eq_refl) as (st' & H1 & H2 & H3).
  exists st'. auto.
Defined.

(** ** Incremental update orchestrator *)

Section OrchestratorFacts.
Context `{Collaborators}.

Lemma get_dataset_calls (issue : Issue) (before : Z) (st : State) :
  calls (final_state (get_dataset issue before st))
  = (calls st ++ [(issue, before)])%list.
Proof.
  rewrite get_dataset_cases. cbv zeta.
  destruct (first (filter _ (Datasets _))); [reflexivity|].
  destruct (first (filter _ (RepoIssues _))) as [ri|]; [|reflexivity].
  destruct (RepoIssue.is_pull ri); [reflexivity|].
  destruct (compose_dataset _ _ _ _) as [data|e]; [|reflexivity].
  destruct (storable data); reflexivity.
Qed.

Lemma get_dataset_DatasetBuildLogs (issue : Issue) (before : Z) (st : State) :
  DatasetBuildLogs (store (final_state (get_dataset issue before st)))
  = DatasetBuildLogs (store st).
Proof.
  assert (He : DatasetBuildLogs (store (enter issue before st))
               = DatasetBuildLogs (store st)) by now destruct issue.
  rewrite get_dataset_cases. cbv zeta.
  destruct (first (filter _ (Datasets _))); [exact He|].
  destruct (first (filter _ (RepoIssues _))) as [ri|]; [|exact He].
  destruct (RepoIssue.is_pull ri); [exact He|].
  destruct (compose_dataset _ _ _ _) as [data|e]; [|exact He].
  destruct (storable data); exact He.
Qed.





End OrchestratorFacts.


(** ** Build logs *)

Lemma replace_nth_last {A : Type} (l : list A) (x y : A) :
  replace_nth (List.length l) x (l ++ [y]) = (l ++ [x])%list.
Proof. induction l as [|z l IH]; simpl; [reflexivity | now rewrite IH]. Qed.

Section LockFacts.
Context `{Collaborators}.

Lemma log_exists_spec (owner name : string) (db : Store) :
  log_exists owner name db = true
  <-> exists l, In l (DatasetBuildLogs db) /\ active_for owner name l.
Proof.
  unfold log_exists, active_for. rewrite existsb_exists.
  split; intros (l & Hin & Hl); exists l; (split; [exact Hin|]).
  - apply andb_true_iff in Hl as [Hl He].
    apply andb_true_iff in Hl as [Ho Hn].
    apply String.eqb_eq in Ho, Hn.
    destruct (DatasetBuildLog.update_end l); [discriminate | auto].
  - destruct Hl as (-> & -> & ->). now rewrite !String.eqb_refl.
Qed.

Lemma for_each_DatasetBuildLogs {A : Type} (body : A -> M unit) (l : list A) :
  (forall x st, DatasetBuildLogs (store (final_state (body x st)))
                = DatasetBuildLogs (store st)) ->
  forall st, DatasetBuildLogs (store (final_state (for_each l body st)))
             = DatasetBuildLogs (store st).
Proof.
  intro Hb. induction l as [|x l IH]; intro st; [reflexivity|].
  cbn [for_each]. unfold bind. specialize (Hb x st).
  destruct (body x st) as [[] st1|e st1]; simpl in Hb; [|exact Hb].
  now rewrite IH.
Qed.

Lemma get_dataset_with_issues_DatasetBuildLogs
  (resolved_issues : list ResolvedIssue.t) (open_issues : list OpenIssue.t)
  (st : State) :
  DatasetBuildLogs
    (store (final_state (get_dataset_with_issues resolved_issues open_issues st)))
  = DatasetBuildLogs (store st).
Proof.
  unfold get_dataset_with_issues, bind.
  assert (Hr : forall i st,
             DatasetBuildLogs (store (final_state (resolved_body i st)))
             = DatasetBuildLogs (store st)).
  { intros i s. unfold resolved_body, bind, ret.
    pose proof (get_dataset_DatasetBuildLogs
                  (Resolved i) (ResolvedIssue.created_at i) s) as H1.
    destruct (get_dataset (Resolved i) (ResolvedIssue.created_at i) s)
      as [a s1|e s1]; simpl in H1; [|exact H1].
    pose proof (get_dataset_DatasetBuildLogs
                  (Resolved i) (ResolvedIssue.resolved_at i) s1) as H2.
    destruct (get_dataset (Resolved i) (ResolvedIssue.resolved_at i) s1);
      simpl in H2; simpl; congruence. }
  assert (Ho : forall i st,
             DatasetBuildLogs (store (final_state (open_body i st)))
             = DatasetBuildLogs (store st)).
  { intros i s. unfold open_body, bind, query, logger, ret.
    destruct (up_to_date i (store s)); [reflexivity|].
    pose proof (get_dataset_DatasetBuildLogs
                  (Open i) (OpenIssue.updated_at i) s) as H1.
    destruct (get_dataset (Open i) (OpenIssue.updated_at i) s); exact H1. }
  pose proof (for_each_DatasetBuildLogs resolved_body resolved_issues Hr st)
    as H1.
  destruct (for_each resolved_issues resolved_body st) as [[] st1|e st1];
    simpl in H1; [|exact H1].
  now rewrite (for_each_DatasetBuildLogs open_body open_issues Ho).
Qed.

(** The end of both entry points once the log is open. *)
Lemma run_leaves_intro (st : State) (l : DatasetBuildLog.t)
  (resolved_issues : list ResolvedIssue.t) (open_issues : list OpenIssue.t)
  (now : Z) :
  run_leaves st l resolved_issues open_issues now
    ((get_dataset_with_issues resolved_issues open_issues ;;
      update_log (List.length (DatasetBuildLogs (store st)))
                 (close_log l (len open_issues) (len resolved_issues) now))
       (opened l st)).
Proof.
  unfold run_leaves, bind.
  pose proof (get_dataset_with_issues_DatasetBuildLogs
                resolved_issues open_issues (opened l st)) as Hf.
  destruct (get_dataset_with_issues resolved_issues open_issues (opened l st))
    as [[] st2|e st2]; simpl in Hf.
  - eexists. split; [reflexivity|]. simpl. rewrite Hf.
    now rewrite replace_nth_last.
  - split; [reflexivity | exact Hf].
Qed.

(** C10: [log_exists] holds exactly when the store has an active build
    log for the key.  When it holds, either entry point logs one
    informational record and returns: nothing raises, and the store (its
    build logs and snapshots) and the trace of builder invocations are as
    before.  When it does not hold, the new build log is saved first and
    the issues are processed in the store that has it; once the
    processing returns, that log is closed with the end time and the two
    counters, and if the processing raises, the log stays open. *)
Theorem lock_contention_early_exit (p : Process) (st : State) :
  (forall owner name : string,
      log_exists owner name (store st) = true
      <-> exists l, In l (DatasetBuildLogs (store st))
                    /\ active_for owner name l)
  /\ (forall (owner name : string) (since : Z) (login : option string),
         log_exists owner name (store st) = true ->
         get_dataset_for_repo p owner name since login st
         = Ok tt (with_log st INFO (AlreadyBeingUpdated owner name)))
  /\ (forall since : option Z,
         log_exists "" "" (store st) = true ->
         get_dataset_all p since st
         = Ok tt (with_log st INFO GlobalUpdateRunning))
  /\ (forall (owner name : string) (since : Z) (login : option string),
         log_exists owner name (store st) = false ->
         run_leaves st (new_log p owner name login)
           (repo_resolved owner name since (store st))
           (repo_open owner name since (store st))
           (utcnow_end p)
           (get_dataset_for_repo p owner name since login st))
  /\ (forall since : option Z,
         log_exists "" "" (store st) = false ->
         run_leaves st (new_log p "" "" None)
           (all_resolved since (store st)) (all_open since (store st))
           (utcnow_end p)
           (get_dataset_all p since st)).
Proof.
  split; [intros; apply log_exists_spec|].
  split; [|split; [|split]].
  - intros owner name since login Hb.
    unfold get_dataset_for_repo, bind at 1, query. now rewrite Hb.
  - intros since Hb.
    unfold get_dataset_all, bind at 1, query. now rewrite Hb.
  - intros owner name since login Hb.
    unfold get_dataset_for_repo, bind at 1, query. rewrite Hb.
    apply (run_leaves_intro st (new_log p owner name login)).
  - intros since Hb.
    unfold get_dataset_all, bind at 1, query. rewrite Hb.
    destruct since as [since|];
      apply (run_leaves_intro st (new_log p "" "" None)).
Qed.

End LockFacts.

Lemma lock_contention_early_exit_witness :
  (log_exists "o" "r" (store st_busy) = true
   /\ get_dataset_for_repo proc "o" "r" 0 None st_busy
      = Ok tt (with_log st_busy INFO (AlreadyBeingUpdated "o" "r")))
  /\ (log_exists "o" "r" (store st0) = false
      /\ exists st' : State (H := toy),
          get_dataset_for_repo proc "o" "r" 0 None st0 = Ok tt st'
          /\ DatasetBuildLogs (store st')
             = [DatasetBuildLog.mk "o" "r" 4242 None 100 (Some 200)
                                   (Some 1) (Some 1)]).
Proof.
  split.
  - split; [reflexivity|].
    apply (proj1 (proj2 (lock_contention_early_exit proc st_busy))).
    reflexivity.
  - split; [reflexivity|].
    pose proof (proj1 (proj2 (proj2 (proj2
                  (lock_contention_early_exit proc st0))))
                  "o" "r" 0 None eq_refl) as Hrun.
    unfold run_leaves in Hrun.
    destruct (get_dataset_with_issues _ _ (opened _ st0)) as [[] st2|e st2]
      eqn:E in Hrun.
    + destruct Hrun as (st' & H1 & H2 & _). exists st'. split; [exact H1|].
      rewrite H2. reflexivity.
    + exfalso.
      assert (Hr : returned (get_dataset_with_issues
                               (repo_resolved "o" "r" 0 (store st0))
                               (repo_open "o" "r" 0 (store st0))
                               (opened (new_log proc "o" "r" None) st0))
                   = Some tt) by (vm_compute; reflexivity).
      rewrite E in Hr. discriminate.
Defined.

(** * Further properties of the code *)

(** ** Scanning with a matcher *)

Lemma length_append (a b : string) :
  String.length (a ++ b) = (String.length a + String.length b)%nat.
Proof. induction a as [|c a IH]; simpl; [reflexivity | now rewrite IH]. Qed.

Lemma take_while_split (p : ascii -> bool) (s : string) :
  s = (PyStr.take_while p s
       ++ PyStr.drop (String.length (PyStr.take_while p s)) s)%string
  /\ string_forall p (PyStr.take_while p s) = true
  /\ stops_at p (PyStr.drop (String.length (PyStr.take_while p s)) s).
Proof.
  induction s as [|c s IH]; simpl; [auto|].
  destruct (p c) eqn:Hc; simpl.
  - destruct IH as (H1 & H2 & H3). rewrite Hc, H2. repeat split; auto.
    now rewrite <- H1.
  - auto.
Qed.

Lemma drop_append (a b : string) : PyStr.drop (String.length a) (a ++ b) = b.
Proof. induction a as [|c a IH]; simpl; [now destruct b | exact IH]. Qed.

(** Every token of a scan was matched at some position of the text. *)
Lemma findall_In (m : string -> option string) (tok : string) (s : string)
  (k : nat) :
  In tok (PyStr.findall m k s) ->
  exists p s', s = (p ++ s')%string /\ m s' = Some tok.
Proof.
  revert k; induction s as [|c s IH]; intros k Hin; simpl in Hin;
    [contradiction|].
  assert (Hrec : forall k', In tok (PyStr.findall m k' s) ->
                 exists p s', String c s = (p ++ s')%string /\ m s' = Some tok).
  { intros k' H'. destruct (IH k' H') as (p & s' & -> & Hm).
    now exists (String c p), s'. }
  destruct k as [|k]; [|now apply (Hrec k)].
  destruct (m (String c s)) as [t|] eqn:Hm; [|now apply (Hrec O)].
  destruct Hin as [->|Hin]; [|exact (Hrec _ Hin)].
  now exists "", (String c s).
Qed.

(** The characters of a text are those erased, i.e. those of the tokens,
    and those kept. *)
Lemma erase_findall_length (m : string -> option string) :
  (forall s tok, m s = Some tok ->
                 (1 <= String.length tok <= String.length s)%nat) ->
  forall (s : string) (k : nat),
    (k <= String.length s)%nat ->
    (String.length (PyStr.erase m k s) + total_length (PyStr.findall m k s) + k
     = String.length s)%nat.
Proof.
  intros Hm s. induction s as [|c s IH]; intros k Hk; simpl in *; [lia|].
  destruct k as [|k].
  - destruct (m (String c s)) as [tok|] eqn:E.
    + apply Hm in E. simpl in E.
      specialize (IH (pred (String.length tok))). simpl. lia.
    + specialize (IH O). simpl. lia.
  - specialize (IH k). lia.
Qed.

Lemma total_length_ge (n : nat) (toks : list string) :
  (forall tok, In tok toks -> (n <= String.length tok)%nat) ->
  (n * List.length toks <= total_length toks)%nat.
Proof.
  induction toks as [|t toks IH]; intro Hn; simpl; [lia|].
  pose proof (Hn t (or_introl eq_refl)).
  assert (n * List.length toks <= total_length toks)%nat
    by (apply IH; intros; apply Hn; now right).
  lia.
Qed.

(** ** URL tokens *)

Lemma prefix_length (a b : string) :
  prefix a b = true -> (String.length a <= String.length b)%nat.
Proof.
  intro Hp. apply prefix_inv in Hp as [r ->]. rewrite length_append. lia.
Qed.

Lemma match_url_spec (s tok : string) :
  PyStr.match_url s = Some tok ->
  exists tail rest,
    tok = ("http" ++ tail)%string /\ s = (tok ++ rest)%string
    /\ tail <> "" /\ string_forall PyStr.url_char tail = true
    /\ stops_at PyStr.url_char rest.
Proof.
  unfold PyStr.match_url. destruct (prefix "http" s) eqn:Hp; [|discriminate].
  apply prefix_inv in Hp as [r ->].
  change (PyStr.drop 4 ("http" ++ r)) with r.
  destruct (take_while_split PyStr.url_char r) as (H1 & H2 & H3).
  destruct (PyStr.take_while PyStr.url_char r) as [|c tail] eqn:Ht;
    [discriminate|].
  intro E. injection E as <-.
  exists (String c tail),
         (PyStr.drop (String.length (String c tail)) r).
  repeat split; auto; [|discriminate].
  rewrite H1 at 1. reflexivity.
Qed.

Lemma match_url_length (s tok : string) :
  PyStr.match_url s = Some tok ->
  (5 <= String.length tok <= String.length s)%nat.
Proof.
  intro Hm. destruct (match_url_spec _ _ Hm) as (tail & rest & -> & -> & Ht & _).
  rewrite !length_append. destruct tail; [now elim Ht | simpl; lia].
Qed.

(** X1: every URL-like token found in a text is a piece of the text that
    starts with "http", goes on with at least one character of the class
    [[:/\w.]], holds only such characters after "http", and is followed
    by the end of the text or by a character outside the class. *)
Theorem url_token_shape (s tok : string) :
  In tok (url_tokens s) ->
  exists before tail rest,
    s = (before ++ tok ++ rest)%string
    /\ tok = ("http" ++ tail)%string
    /\ tail <> ""
    /\ string_forall PyStr.url_char tail = true
    /\ stops_at PyStr.url_char rest.
Proof.
  intro Hin. apply findall_In in Hin as (p & s' & -> & Hm).
  destruct (match_url_spec _ _ Hm) as (tail & rest & Ht & -> & H1 & H2 & H3).
  exists p, tail, rest. auto.
Qed.

Lemma url_token_shape_witness :
  In "http://x.com/b.png"
     (url_tokens "see http://x.com/a and http://x.com/b.png")
  /\ exists before tail rest,
      "see http://x.com/a and http://x.com/b.png"
      = (before ++ "http://x.com/b.png" ++ rest)%string
      /\ "http://x.com/b.png" = ("http" ++ tail)%string
      /\ tail <> ""
      /\ string_forall PyStr.url_char tail = true
      /\ stops_at PyStr.url_char rest.
Proof.
  assert (Hin : In "http://x.com/b.png"
                   (url_tokens "see http://x.com/a and http://x.com/b.png"))
    by (simpl; auto).
  split; [exact Hin|]. exact (url_token_shape _ _ Hin).
Defined.

(** X2: stripping the URLs of a body removes the characters of the
    URL-like tokens and no others, and since a token has at least five
    characters, five times the number of URLs and images is at most the
    length of the body. *)
Theorem url_characters_accounted (s : string) :
  (String.length (_delete_urls (Some s)) + total_length (url_tokens s)
   = String.length s)%nat
  /\ 5 * (_count_urls (Some s) + _count_imgs (Some s))
     <= Z.of_nat (String.length s).
Proof.
  assert (Hc : (String.length (PyStr.erase PyStr.match_url 0 s)
                + total_length (PyStr.findall PyStr.match_url 0 s) + 0
                = String.length s)%nat).
  { apply erase_findall_length; [|lia].
    intros s0 tok Hm. apply match_url_length in Hm. lia. }
  split; [unfold _delete_urls, url_tokens; lia|].
  assert (Hn : (5 * List.length (url_tokens s)
                <= total_length (url_tokens s))%nat).
  { apply total_length_ge. intros tok Hin.
    apply findall_In in Hin as (p & s' & _ & Hm).
    apply (match_url_length _ _ Hm). }
  unfold _count_urls, _count_imgs.
  rewrite (len_filter_split is_img_token).
  unfold len, url_tokens in *. lia.
Qed.

Lemma erase_past (m : string -> option string) (a rest : string) :
  PyStr.erase m (String.length a) (a ++ rest) = PyStr.erase m 0 rest.
Proof.
  induction a as [|c a IH]; simpl; [|exact IH].
  destruct rest; reflexivity.
Qed.

Lemma findall_nil_erase (m : string -> option string) (r : string) :
  PyStr.findall m 0 r = [] -> PyStr.erase m 0 r = r.
Proof.
  induction r as [|c r IH]; simpl; [reflexivity|].
  destruct (m (String c r)); [discriminate|].
  intro Hf. now rewrite IH.
Qed.

Lemma match_url_stopped (rest : string) :
  stops_at PyStr.url_char rest -> PyStr.match_url rest = None.
Proof.
  destruct rest as [|y rest]; [reflexivity|]. simpl. intro Hy.
  unfold PyStr.match_url.
  destruct (prefix "http" (String y rest)) eqn:Hp; [|reflexivity].
  apply prefix_inv in Hp as [r Hr]. simpl in Hr. injection Hr as -> _.
  discriminate.
Qed.

(** A character of the URL class at the head of a stripped text was at
    the head of the text, and was kept. *)
Lemma erase_url_kept_head (s r : string) (x : ascii) :
  PyStr.erase PyStr.match_url 0 s = String x r ->
  PyStr.url_char x = true ->
  exists s1, s = String x s1 /\ r = PyStr.erase PyStr.match_url 0 s1.
Proof.
  destruct s as [|c s']; simpl; [discriminate|].
  destruct (PyStr.match_url (String c s')) as [tok|] eqn:Hm.
  - destruct (match_url_spec _ _ Hm) as (tail & rest & Ht & Hs & _ & _ & Hst).
    destruct tok as [|c' tok']; [discriminate|].
    simpl in Hs. injection Hs as -> ->. simpl.
    rewrite erase_past. intros He Hx. exfalso.
    destruct rest as [|y rest]; simpl in He; [discriminate|].
    rewrite (match_url_stopped (String y rest) Hst) in He.
    injection He as -> _. simpl in Hst. congruence.
  - intros He _. injection He as <- <-. now exists s'.
Qed.

Lemma match_url_http (u : ascii) (t : string) :
  PyStr.url_char u = true ->
  PyStr.match_url ("http" ++ String u t) <> None.
Proof.
  intro Hu. unfold PyStr.match_url.
  change (prefix "http" ("http" ++ String u t)) with true.
  change (PyStr.drop 4 ("http" ++ String u t)) with (String u t).
  cbn [PyStr.take_while]. rewrite Hu. discriminate.
Qed.

Lemma erase_url_clean (s : string) (k : nat) :
  PyStr.findall PyStr.match_url 0 (PyStr.erase PyStr.match_url k s) = [].
Proof.
  revert k; induction s as [|c s IH]; intro k; [reflexivity|].
  cbn [PyStr.erase]. destruct k as [|k]; [|apply IH].
  destruct (PyStr.match_url (String c s)) as [tok|] eqn:Hm; [apply IH|].
  cbn [PyStr.findall].
  destruct (PyStr.match_url (String c (PyStr.erase PyStr.match_url 0 s)))
    as [tok|] eqn:Hm'; [exfalso | apply IH].
  destruct (match_url_spec _ _ Hm') as (tail & rest & -> & Hs & Ht & Hall & _).
  destruct tail as [|u tail]; [now elim Ht|].
  simpl in Hs. injection Hs as -> Hr.
  simpl in Hall. apply andb_true_iff in Hall as [Hu _].
  apply erase_url_kept_head in Hr as (s1 & -> & Hr); [|reflexivity].
  symmetry in Hr.
  apply erase_url_kept_head in Hr as (s2 & -> & Hr); [|reflexivity].
  symmetry in Hr.
  apply erase_url_kept_head in Hr as (s3 & -> & Hr); [|reflexivity].
  symmetry in Hr.
  apply erase_url_kept_head in Hr as (s4 & -> & Hr); [|exact Hu].
  now apply (match_url_http u s4).
Qed.

(** X3: a body from which the URLs were stripped holds no URL-like
    token: it counts no URL and no image, and stripping it again changes
    nothing. *)
Theorem delete_urls_leaves_none (s : option string) :
  url_tokens (_delete_urls s) = []
  /\ _count_urls (Some (_delete_urls s)) = 0
  /\ _count_imgs (Some (_delete_urls s)) = 0
  /\ _delete_urls (Some (_delete_urls s)) = _delete_urls s.
Proof.
  assert (Hc : url_tokens (_delete_urls s) = []).
  { destruct s as [s|]; [apply erase_url_clean | reflexivity]. }
  split; [exact Hc|].
  unfold _count_urls, _count_imgs. rewrite Hc.
  repeat split. now apply findall_nil_erase.
Qed.

(** ** Code snippets and word counts *)

Lemma upto_fence_spec (r t : string) :
  PyStr.upto_fence r = Some t ->
  exists b rest, t = (b ++ PyStr.fence)%string /\ r = (t ++ rest)%string.
Proof.
  revert t; induction r as [|c r IH]; intro t.
  - simpl. discriminate.
  - cbn [PyStr.upto_fence].
    destruct (prefix PyStr.fence (String c r)) eqn:Hp.
    + intro E. injection E as <-. apply prefix_inv in Hp as [rest Hr].
      exists "", rest. auto.
    + destruct (PyStr.upto_fence r) as [t'|]; [|discriminate].
      intro E. injection E as <-.
      destruct (IH t' eq_refl) as (b & rest & -> & ->).
      exists (String c b), rest. auto.
Qed.

Lemma match_snippet_spec (s tok : string) :
  PyStr.match_snippet s = Some tok ->
  exists inner rest,
    tok = (PyStr.fence ++ inner ++ PyStr.fence)%string
    /\ inner <> "" /\ s = (tok ++ rest)%string.
Proof.
  unfold PyStr.match_snippet.
  destruct (prefix PyStr.fence s) eqn:Hp; [|discriminate].
  apply prefix_inv in Hp as [r ->].
  change (PyStr.drop 3 (PyStr.fence ++ r)) with r.
  destruct r as [|c r]; [discriminate|].
  destruct (PyStr.upto_fence r) as [t|] eqn:Hu; [|discriminate].
  intro E. injection E as <-.
  destruct (upto_fence_spec _ _ Hu) as (b & rest & -> & ->).
  exists (String c b), rest.
  split; [reflexivity|]. split; [discriminate|].
  simpl. now rewrite append_assoc.
Qed.

Lemma match_snippet_length (s tok : string) :
  PyStr.match_snippet s = Some tok ->
  (7 <= String.length tok <= String.length s)%nat.
Proof.
  intro Hm. destruct (match_snippet_spec _ _ Hm) as (inner & rest & -> & Hi & ->).
  rewrite !length_append. destruct inner; [now elim Hi | simpl; lia].
Qed.

(** X4: every code snippet found in a body is a piece of the body made
    of a fence, at least one character and a fence; stripping the
    snippets removes their characters and no others; and seven times the
    number of snippets is at most the length of the body. *)
Theorem code_snippets_accounted (s : string) :
  (forall tok : string,
      In tok (PyStr.findall PyStr.match_snippet 0 s) ->
      exists before inner rest,
        s = (before ++ tok ++ rest)%string
        /\ tok = ("```" ++ inner ++ "```")%string /\ inner <> "")
  /\ (String.length (_delete_code_snippets (Some s))
      + total_length (PyStr.findall PyStr.match_snippet 0 s)
      = String.length s)%nat
  /\ 0 <= 7 * _count_code_snippets (Some s) <= Z.of_nat (String.length s).
Proof.
  split; [|split].
  - intros tok Hin. apply findall_In in Hin as (p & s' & -> & Hm).
    destruct (match_snippet_spec _ _ Hm) as (inner & rest & Ht & Hi & ->).
    exists p, inner, rest. auto.
  - assert (Hc : (String.length (PyStr.erase PyStr.match_snippet 0 s)
                  + total_length (PyStr.findall PyStr.match_snippet 0 s) + 0
                  = String.length s)%nat).
    { apply erase_findall_length; [|lia].
      intros s0 tok Hm. apply match_snippet_length in Hm. lia. }
    unfold _delete_code_snippets. lia.
  - assert (Hc : (String.length (PyStr.erase PyStr.match_snippet 0 s)
                  + total_length (PyStr.findall PyStr.match_snippet 0 s) + 0
                  = String.length s)%nat).
    { apply erase_findall_length; [|lia].
      intros s0 tok Hm. apply match_snippet_length in Hm. lia. }
    assert (Hn : (7 * List.length (PyStr.findall PyStr.match_snippet 0 s)
                  <= total_length (PyStr.findall PyStr.match_snippet 0 s))%nat).
    { apply total_length_ge. intros tok Hin.
      apply findall_In in Hin as (p & s' & _ & Hm).
      apply (match_snippet_length _ _ Hm). }
    unfold _count_code_snippets, len. lia.
Qed.

Lemma code_snippets_accounted_witness :
  In "```x```" (PyStr.findall PyStr.match_snippet 0 "a ```x``` b ``` c")
  /\ exists before inner rest,
      "a ```x``` b ``` c" = (before ++ "```x```" ++ rest)%string
      /\ "```x```" = ("```" ++ inner ++ "```")%string /\ inner <> "".
Proof.
  assert (Hin : In "```x```"
                   (PyStr.findall PyStr.match_snippet 0 "a ```x``` b ``` c"))
    by (simpl; auto).
  split; [exact Hin|].
  exact (proj1 (code_snippets_accounted "a ```x``` b ``` c") _ Hin).
Defined.

Lemma count_words_append (a b : string) (sp : ascii) (w : bool) :
  PyStr.is_space sp = true ->
  PyStr.count_words w (a ++ String sp b)
  = (PyStr.count_words w a + PyStr.count_words false b)%nat.
Proof.
  intro Hsp. revert w; induction a as [|c a IH]; intro w; simpl.
  - now rewrite Hsp.
  - destruct (PyStr.is_space c); rewrite IH; lia.
Qed.

Lemma count_words_bound (s : string) (w : bool) :
  (2 * PyStr.count_words w s <= String.length s + (if w then 0 else 1))%nat.
Proof.
  revert w; induction s as [|c s IH]; intro w; simpl; [lia|].
  destruct (PyStr.is_space c).
  - specialize (IH false). simpl in IH. destruct w; lia.
  - specialize (IH true). simpl in IH. destruct w; lia.
Qed.

Lemma count_words_zero (s : string) :
  PyStr.count_words false s = O <-> string_forall PyStr.is_space s = true.
Proof.
  induction s as [|c s IH]; simpl; [tauto|].
  destruct (PyStr.is_space c); simpl; [exact IH|].
  split; discriminate.
Qed.

(** X5: the word count of a text is 0 exactly when the text holds only
    white space; twice the count is at most the length plus one; and
    the count of two texts joined by a white-space character is the sum
    of their counts. *)
Theorem text_len_words (a b : string) (sp : ascii) :
  (_count_text_len (Some a) = 0
   <-> string_forall PyStr.is_space a = true)
  /\ 0 <= 2 * _count_text_len (Some a) <= Z.of_nat (String.length a) + 1
  /\ (PyStr.is_space sp = true ->
      _count_text_len (Some (a ++ String sp b))
      = _count_text_len (Some a) + _count_text_len (Some b)).
Proof.
  unfold _count_text_len. split; [|split].
  - rewrite <- count_words_zero. lia.
  - pose proof (count_words_bound a false) as Hb. cbv iota in Hb. lia.
  - intro Hsp. rewrite count_words_append by exact Hsp. lia.
Qed.

Lemma text_len_words_witness :
  PyStr.is_space " " = true
  /\ _count_text_len (Some ("Crash on" ++ String " " "start"))
     = _count_text_len (Some "Crash on") + _count_text_len (Some "start").
Proof.
  split; [reflexivity|].
  apply (proj2 (proj2 (text_len_words "Crash on" "start" " "))).
  reflexivity.
Defined.

(** ** Label categorizer: rules, bounds and order *)

Lemma contains_spec (pat s : string) :
  PyStr.contains pat s = true <-> exists a b, s = (a ++ pat ++ b)%string.
Proof.
  split.
  - induction s as [|c s IH]; cbn [PyStr.contains]; rewrite orb_true_iff.
    + intros [Hp|Hf]; [|discriminate].
      apply prefix_inv in Hp as [r ->]. now exists "", r.
    + intros [Hp|Hr].
      * apply prefix_inv in Hp as [r ->]. now exists "", r.
      * destruct (IH Hr) as (a & b & ->). now exists (String c a), b.
  - intros (a & b & ->). induction a as [|c a IH].
    + simpl. destruct (pat ++ b)%string eqn:E; cbn [PyStr.contains];
        rewrite <- E, prefix_app; reflexivity.
    + simpl. cbn [PyStr.contains]. rewrite IH. apply orb_true_r.
Qed.

Lemma Zsum_app (l1 l2 : list Z) : Zsum (l1 ++ l2) = Zsum l1 + Zsum l2.
Proof. induction l1 as [|x l1 IH]; simpl; [reflexivity | rewrite IH; lia]. Qed.

Lemma Zsum_Permutation (l1 l2 : list Z) :
  Permutation l1 l2 -> Zsum l1 = Zsum l2.
Proof. induction 1; simpl; lia. Qed.

Lemma counter_get_absent (k : string) (c : Counter) :
  ~ In k (map fst c) -> counter_get k c = 0.
Proof.
  induction c as [|[k' v] c IH]; simpl; [reflexivity|].
  intro Hn. destruct (String.eqb_spec k k') as [->|_]; [|apply IH]; tauto.
Qed.

Section CategorizerMore.
Context `{Collaborators}.

Lemma increment_01 (cat label : string) : 0 <= increment cat label <= 1.
Proof.
  unfold increment. rewrite category_match_hits.
  destruct (existsb _ _); lia.
Qed.

Lemma Zsum_increments (cat : string) (labels : list string) :
  0 <= Zsum (map (increment cat) labels) <= len labels.
Proof.
  unfold len. induction labels as [|l labels IH]; simpl Zsum; [simpl; lia|].
  pose proof (increment_01 cat l). simpl List.length.
  rewrite Nat2Z.inj_succ. lia.
Qed.

Lemma category_count_sum (labels : list string) (cat : string) :
  In cat categories ->
  category_count cat (_get_categorized_labels labels)
  = Zsum (map (increment cat) labels).
Proof.
  intro Hin. unfold _get_categorized_labels.
  now rewrite category_count_of_kwargs, count_labels_get.
Qed.

Lemma LabelCategory_ext (a b : LabelCategory) :
  (forall cat, In cat categories -> category_count cat a = category_count cat b)
  -> a = b.
Proof.
  intro He. destruct a, b.
  pose proof (He "bug") as H1. pose proof (He "feature") as H2.
  pose proof (He "test") as H3. pose proof (He "build") as H4.
  pose proof (He "doc") as H5. pose proof (He "coding") as H6.
  pose proof (He "enhance") as H7. pose proof (He "gfi") as H8.
  pose proof (He "medium") as H9. pose proof (He "major") as H10.
  pose proof (He "triaged") as H11. pose proof (He "untriaged") as H12.
  unfold categories in *. cbn in *.
  f_equal; auto 20.
Qed.

(** X6: whatever the labels and the lemmatizer, every category count of
    the output lies between 0 and the number of labels. *)
Theorem category_count_bounds (labels : list string) (cat : string) :
  0 <= category_count cat (_get_categorized_labels labels) <= len labels.
Proof.
  destruct (in_dec string_dec cat categories) as [Hin|Hn].
  - rewrite category_count_sum by exact Hin. apply Zsum_increments.
  - unfold category_count. rewrite counter_get_absent by exact Hn.
    unfold len. lia.
Qed.

(** X7: the output does not depend on the order of the labels, and the
    counts of two label lists put together are the sums of their
    counts. *)
Theorem category_counts_order_free (labels labels' : list string) :
  (Permutation labels labels' ->
   _get_categorized_labels labels = _get_categorized_labels labels')
  /\ (forall cat : string,
         category_count cat (_get_categorized_labels (labels ++ labels'))
         = category_count cat (_get_categorized_labels labels)
           + category_count cat (_get_categorized_labels labels')).
Proof.
  split.
  - intro Hp. apply LabelCategory_ext. intros cat Hin.
    rewrite !category_count_sum by exact Hin.
    apply Zsum_Permutation, Permutation_map, Hp.
  - intro cat. destruct (in_dec string_dec cat categories) as [Hin|Hn].
    + rewrite !category_count_sum by exact Hin.
      now rewrite map_app, Zsum_app.
    + unfold category_count. now rewrite !counter_get_absent by exact Hn.
Qed.

(** X8: a keyword rule hits a label exactly when the keyword occurs
    inside one of the label's words (the test for a whole word adds
    nothing to the substring test), while a tuple rule hits exactly when
    each of its keywords is one of the words. *)
Theorem rule_hits_meaning (words : list string) :
  (forall k : string,
      rule_hits words (Kw k) = true
      <-> exists w a b, In w words /\ w = (a ++ k ++ b)%string)
  /\ (forall ks : list string,
         rule_hits words (AllOf ks) = true
         <-> forall k, In k ks -> In k words).
Proof.
  split.
  - intro k. unfold rule_hits. rewrite orb_true_iff, existsb_exists. split.
    + intros [Hm|(w & Hw & Hc)].
      * apply mem_In in Hm. exists k, "", "".
        now rewrite append_nil_r.
      * apply contains_spec in Hc as (a & b & ->). eauto.
    + intros (w & a & b & Hw & ->). right.
      exists (a ++ k ++ b)%string. split; [exact Hw|].
      apply contains_spec. eauto.
  - intro ks. unfold rule_hits. rewrite forallb_forall.
    split; intros Hk k Hin; apply mem_In; auto.
Qed.

End CategorizerMore.

Lemma category_counts_order_free_witness :
  Permutation ["bug"; "bug-in-tests"] ["bug-in-tests"; "bug"]
  /\ _get_categorized_labels (H := toy) ["bug"; "bug-in-tests"]
     = _get_categorized_labels (H := toy) ["bug-in-tests"; "bug"].
Proof.
  assert (Hp : Permutation ["bug"; "bug-in-tests"] ["bug-in-tests"; "bug"])
    by apply perm_swap.
  split; [exact Hp|].
  exact (proj1 (category_counts_order_free _ _) Hp).
Defined.

(** ** User feature aggregator: failures and cutoffs *)

Lemma filterM_Exc {A : Type} (p : A -> result bool) (l : list A) (e : exn) :
  filterM p l = Exc e -> exists x, In x l /\ p x = Exc e.
Proof.
  induction l as [|x l IH]; simpl; [discriminate|].
  destruct (p x) as [b|e'] eqn:Hp; simpl.
  - destruct (filterM p l) as [r|e'']; simpl; [discriminate|].
    intro E. injection E as ->.
    destruct (IH eq_refl) as (y & Hy & Hpy). eauto.
  - intro E. injection E as ->. eauto.
Qed.

Lemma filterM_Ret {A : Type} (p : A -> result bool) (l r : list A) :
  filterM p l = Ret r -> forall x, In x l -> exists b, p x = Ret b.
Proof.
  revert r; induction l as [|x l IH]; intros r Hr y Hy; [contradiction|].
  simpl in Hr. destruct (p x) as [b|] eqn:Hp; simpl in Hr; [|discriminate].
  destruct (filterM p l) as [r'|]; simpl in Hr; [|discriminate].
  destruct Hy as [<-|Hy]; eauto.
Qed.

Lemma closed_by_Exc (t : Z) (i : RepoIssue.t) (e : exn) :
  closed_by t i = Exc e <-> e = TypeError /\ undated i.
Proof.
  unfold closed_by, undated.
  destruct (String.eqb_spec (RepoIssue.state i) "closed") as [Hs|Hs].
  - destruct (RepoIssue.closed_at i); simpl; split.
    + discriminate.
    + intros (_ & _ & Hd). discriminate.
    + intro E. injection E as <-. auto.
    + intros (-> & _). reflexivity.
  - split; [discriminate | tauto].
Qed.

Lemma filter_length_mono {A : Type} (p q : A -> bool) (l : list A) :
  (forall x, p x = true -> q x = true) ->
  len (filter p l) <= len (filter q l).
Proof.
  intro Hpq. unfold len. apply Nat2Z.inj_le.
  induction l as [|x l IH]; simpl; [lia|].
  destruct (p x) eqn:Hp.
  - rewrite (Hpq x Hp). simpl. lia.
  - destruct (q x); simpl; lia.
Qed.

Section UserMore.
Context `{Collaborators}.

Lemma _get_user_data_Ret (db : Store) (owner name user : string) (t : Z)
  (uf : UserFeature.t) :
  _get_user_data db owner name user t = Ret uf ->
  user <> "ghost" ->
  UserFeature.n_commits uf
  = len (filter (user_commit_query owner name user t) (RepoCommits db))
  /\ UserFeature.n_issues uf = len (user_issues db owner name user t)
  /\ UserFeature.n_pulls uf
     = len (filter (fun i => user_issue_query owner name user t i
                             && RepoIssue.is_pull i) (RepoIssues db)).
Proof.
  unfold _get_user_data, user_issues. intros Hr Hu.
  destruct (String.eqb_spec user "ghost") as [E|_]; [now elim Hu|].
  match type of Hr with
  | context [filterM ?p ?l] => destruct (filterM p l) as [closed|e]
  end; simpl in Hr; [|discriminate].
  injection Hr as <-. auto.
Qed.

Lemma _get_user_data_raises (db : Store) (owner name user : string) (t : Z) :
  (forall e : exn,
      _get_user_data db owner name user t = Exc e
      <-> e = TypeError /\ user <> "ghost"
          /\ exists i, In i (user_issues db owner name user t) /\ undated i)
  /\ _get_user_data db owner name "ghost" t
     = Ret (UserFeature.mk "ghost" 0 0 0 []).
Proof.
  split; [|reflexivity].
  intro e. unfold _get_user_data. fold (user_issues db owner name user t).
  destruct (String.eqb_spec user "ghost") as [E|Hu].
  { split; [discriminate | tauto]. }
  destruct (filterM (closed_by t) (user_issues db owner name user t))
    as [closed|e'] eqn:Hf; simpl; split.
  - discriminate.
  - intros (_ & _ & i & Hi & Hd). exfalso.
    destruct (filterM_Ret _ _ _ Hf i Hi) as [b Hb].
    assert (Hx : closed_by t i = Exc TypeError)
      by (apply closed_by_Exc; auto).
    congruence.
  - intro E. injection E as ->.
    apply filterM_Exc in Hf as (i & Hi & Hc).
    apply closed_by_Exc in Hc as [-> Hd]. eauto.
  - intros (-> & _ & i & Hi & Hd).
    apply filterM_Exc in Hf as (j & _ & Hc).
    apply closed_by_Exc in Hc as [-> _]. reflexivity.
Qed.

(** X9: the aggregator raises exactly when the user is not "ghost" and
    one of the user's issues that it looks at is closed without a closing
    time, and the exception is then a TypeError; for "ghost" it returns
    the all-zero record whatever the store holds. *)
Theorem user_data_failure (db : Store) (owner name user : string) (t : Z) :
  (forall e : exn,
      _get_user_data db owner name user t = Exc e
      <-> e = TypeError /\ user <> "ghost"
          /\ exists i, In i (user_issues db owner name user t) /\ undated i)
  /\ _get_user_data db owner name "ghost" t
     = Ret (UserFeature.mk "ghost" 0 0 0 []).
Proof. apply _get_user_data_raises. Qed.

(** X10: the counts of a user never decrease when the cutoff moves
    forward: the commits, issues and pull requests counted at a cutoff
    are counted at every later one. *)
Theorem user_counts_monotone (db : Store) (owner name user : string)
  (t t' : Z) (uf uf' : UserFeature.t) :
  t <= t' ->
  _get_user_data db owner name user t = Ret uf ->
  _get_user_data db owner name user t' = Ret uf' ->
  UserFeature.n_commits uf <= UserFeature.n_commits uf'
  /\ UserFeature.n_issues uf <= UserFeature.n_issues uf'
  /\ UserFeature.n_pulls uf <= UserFeature.n_pulls uf'.
Proof.
  intros Ht Hr Hr'.
  destruct (String.eqb_spec user "ghost") as [->|Hu].
  { unfold _get_user_data in Hr, Hr'. simpl in Hr, Hr'.
    injection Hr as <-. injection Hr' as <-. simpl. lia. }
  destruct (_get_user_data_Ret _ _ _ _ _ _ Hr Hu) as (-> & -> & ->).
  destruct (_get_user_data_Ret _ _ _ _ _ _ Hr' Hu) as (-> & -> & ->).
  unfold user_issues.
  assert (Hq : forall i, user_issue_query owner name user t i = true ->
                         user_issue_query owner name user t' i = true).
  { intro i. unfold user_issue_query. rewrite !andb_true_iff, !Z.leb_le.
    intuition lia. }
  repeat split; apply filter_length_mono.
  - intro c. unfold user_commit_query.
    rewrite !andb_true_iff, !Z.leb_le. intuition lia.
  - intros i Hi. apply andb_true_iff in Hi as [Hi ->].
    now rewrite (Hq i Hi).
  - intros i Hi. apply andb_true_iff in Hi as [Hi ->].
    now rewrite (Hq i Hi).
Qed.

End UserMore.

Lemma user_counts_monotone_witness :
  1 <= 40
  /\ _get_user_data db0 "o" "r" "bob" 1 = Ret (UserFeature.mk "bob" 1 0 0 [])
  /\ _get_user_data db0 "o" "r" "bob" 40 = Ret (UserFeature.mk "bob" 1 0 1 [])
  /\ 1 <= 1 /\ 0 <= 0 /\ 0 <= 1.
Proof.
  assert (Ht : 1 <= 40) by lia.
  split; [exact Ht|]. split; [reflexivity|]. split; [reflexivity|].
  exact (user_counts_monotone db0 "o" "r" "bob" 1 40 _ _ Ht eq_refl eq_refl).
Defined.

(** ** Background aggregator *)

Lemma NoDup_snoc {A : Type} (l : list A) (x : A) :
  NoDup l -> ~ In x l -> NoDup (l ++ [x]).
Proof.
  intros Hnd Hx. apply NoDup_rev in Hnd.
  rewrite <- (rev_involutive (l ++ [x])). apply NoDup_rev.
  rewrite rev_app_distr. simpl. constructor; [|exact Hnd].
  now rewrite <- in_rev.
Qed.

Lemma set_add_In (u x : string) (s : list string) :
  In u (set_add x s) <-> u = x \/ In u s.
Proof.
  unfold set_add. destruct (PyStr.mem x s) eqn:Hm.
  - apply mem_In in Hm. split; [auto|]. intros [->|Hu]; auto.
  - rewrite in_app_iff. simpl. intuition.
Qed.

Lemma set_add_NoDup (x : string) (s : list string) :
  NoDup s -> NoDup (set_add x s).
Proof.
  intro Hnd. unfold set_add. destruct (PyStr.mem x s) eqn:Hm; [exact Hnd|].
  apply NoDup_snoc; [exact Hnd|].
  intro Hx. apply mem_In in Hx. congruence.
Qed.

Lemma set_add_length (x : string) (s : list string) :
  (List.length (set_add x s) <= S (List.length s))%nat.
Proof.
  unfold set_add. destruct (PyStr.mem x s); [lia|].
  rewrite length_app. simpl. lia.
Qed.

Lemma contributors_fold (l : list RepoCommit.t) (s0 : list string) :
  let s := fold_left (fun s c => set_add (RepoCommit.committer c)
                                         (set_add (RepoCommit.author c) s))
                     l s0 in
  (NoDup s0 -> NoDup s)
  /\ (forall u, In u s
                <-> In u s0
                    \/ exists c, In c l /\ (u = RepoCommit.author c
                                            \/ u = RepoCommit.committer c))
  /\ (List.length s <= List.length s0 + 2 * List.length l)%nat.
Proof.
  revert s0; induction l as [|c l IH]; intro s0; simpl.
  - split; [auto|]. split; [|lia].
    intro u. split; [auto|]. intros [Hu|(c & [] & _)]. exact Hu.
  - destruct (IH (set_add (RepoCommit.committer c)
                          (set_add (RepoCommit.author c) s0)))
      as (Hnd & Hin & Hlen).
    split; [|split].
    + intro H0. apply Hnd. now apply set_add_NoDup, set_add_NoDup.
    + intro u. rewrite Hin, !set_add_In. split.
      * intros [[->|[->|Hu]]|(c' & Hc' & Hu)]; eauto 6.
      * intros [Hu|(c' & [<-|Hc'] & [->| ->])]; eauto 6.
    + pose proof (set_add_length (RepoCommit.committer c)
                    (set_add (RepoCommit.author c) s0)).
      pose proof (set_add_length (RepoCommit.author c) s0). lia.
Qed.

Section BackgroundFacts.
Context `{Collaborators}.

Lemma background_step_Exc (t : Z) (acc : Z * Z * list float)
  (i : RepoIssue.t) (e : exn) :
  background_step t acc i = Exc e <-> e = TypeError /\ undated i.
Proof.
  unfold background_step, undated. destruct acc as [[a b] ct].
  destruct (String.eqb_spec (RepoIssue.state i) "closed") as [Hs|Hs].
  - destruct (RepoIssue.closed_at i) as [c|].
    + destruct (c <=? t); split; try discriminate;
        intros (_ & _ & Hd); discriminate.
    + split; [intro E; injection E as <-; auto | intros (-> & _); reflexivity].
  - split; [discriminate | tauto].
Qed.

Lemma background_step_Ret (t : Z) (a b a' b' : Z) (ct ct' : list float)
  (i : RepoIssue.t) :
  background_step t (a, b, ct) i = Ret (a', b', ct') ->
  a' + b' = a + b + 1 /\ a <= a' /\ b <= b' /\ len ct' - a' = len ct - a.
Proof.
  unfold background_step.
  assert (Hopen : Ret (a, b + 1, ct) = Ret (a', b', ct') ->
                  a' + b' = a + b + 1 /\ a <= a' /\ b <= b'
                  /\ len ct' - a' = len ct - a).
  { intro E. injection E as <- <- <-. lia. }
  destruct (RepoIssue.state i == "closed"); [|exact Hopen].
  destruct (RepoIssue.closed_at i) as [c|]; [|discriminate].
  destruct (c <=? t); [|exact Hopen].
  intro E. injection E as <- <- <-. unfold len. rewrite length_app. simpl. lia.
Qed.

Lemma background_fold (t : Z) (l : list RepoIssue.t) (a b a' b' : Z)
  (ct ct' : list float) :
  foldM (background_step t) l (a, b, ct) = Ret (a', b', ct') ->
  a' + b' = a + b + len l /\ a <= a' /\ b <= b'
  /\ len ct' - a' = len ct - a.
Proof.
  revert a b ct; induction l as [|i l IH]; intros a b ct; cbn [foldM].
  - intro E. injection E as <- <- <-. unfold len. simpl. lia.
  - destruct (background_step t (a, b, ct) i) as [[[a1 b1] ct1]|] eqn:Hs;
      simpl; [|discriminate].
    intro Hf. apply background_step_Ret in Hs. apply IH in Hf.
    unfold len in *. simpl List.length. rewrite Nat2Z.inj_succ. lia.
Qed.

Lemma background_fold_Exc (t : Z) (l : list RepoIssue.t)
  (acc : Z * Z * list float) (e : exn) :
  foldM (background_step t) l acc = Exc e
  <-> e = TypeError /\ exists i, In i l /\ undated i.
Proof.
  revert acc; induction l as [|i l IH]; intro acc; cbn [foldM].
  - split; [discriminate | intros (_ & i & [] & _)].
  - destruct (background_step t acc i) as [acc'|e'] eqn:Hs; simpl.
    + rewrite IH. split.
      * intros (-> & j & Hj & Hd). eauto.
      * intros (-> & j & [<-|Hj] & Hd); [|eauto].
        assert (Hx : background_step t acc i = Exc TypeError)
          by (apply background_step_Exc; auto).
        congruence.
    + apply background_step_Exc in Hs as [-> Hd]. split.
      * intro E. injection E as <-. eauto.
      * intros (-> & _). reflexivity.
Qed.

(** X11: when the background aggregator returns, the closed and open
    counts are non-negative and add up to the number of issues it
    scanned, there is one resolution latency per closed issue, and the
    contributors are, without repetition, exactly the authors and
    committers of the commits it scanned, so at most two per commit. *)
Theorem background_data_counts (db : Store) (owner name : string) (t : Z)
  (contributors : list string) (n_closed n_open : Z)
  (close_times : list float) :
  _get_background_data db owner name t
  = Ret (contributors, n_closed, n_open, close_times) ->
  n_closed + n_open = len (background_issues db owner name t)
  /\ 0 <= n_closed /\ 0 <= n_open
  /\ len close_times = n_closed
  /\ NoDup contributors
  /\ (forall u : string,
         In u contributors
         <-> exists c, In c (background_commits db owner name t)
                       /\ (u = RepoCommit.author c
                           \/ u = RepoCommit.committer c))
  /\ len contributors <= 2 * len (background_commits db owner name t).
Proof.
  unfold _get_background_data.
  fold (background_issues db owner name t).
  fold (background_commits db owner name t).
  destruct (foldM (background_step t) (background_issues db owner name t)
                  (0, 0, [])) as [[[a b] ct]|] eqn:Hf; cbn [rbind];
    [|discriminate].
  intro E. injection E as <- <- <- <-.
  apply background_fold in Hf.
  destruct (contributors_fold (background_commits db owner name t) [])
    as (Hnd & Hin & Hlen).
  cbv zeta in Hnd, Hin, Hlen.
  change (len (@nil float)) with 0 in Hf.
  split; [lia|]. split; [lia|]. split; [lia|]. split; [lia|].
  split; [apply Hnd; constructor|]. split.
  - intro u. rewrite Hin. split; [|now right].
    intros [[]|Hu]. exact Hu.
  - unfold len. change (List.length (@nil string)) with O in Hlen. lia.
Qed.

Lemma _get_background_data_raises (db : Store) (owner name : string) (t : Z)
  (e : exn) :
  _get_background_data db owner name t = Exc e
  <-> e = TypeError
      /\ exists i, In i (background_issues db owner name t) /\ undated i.
Proof.
  unfold _get_background_data.
  fold (background_issues db owner name t).
  rewrite <- (background_fold_Exc t _ (0, 0, [])).
  destruct (foldM (background_step t) (background_issues db owner name t)
                  (0, 0, [])) as [[[a b] ct]|e']; cbn [rbind].
  - split; discriminate.
  - split; intro E; injection E as ->; reflexivity.
Qed.

(** X12: the background aggregator raises exactly when one of the
    issues it scans is closed without a closing time, and the exception
    is then a TypeError. *)
Theorem background_data_failure (db : Store) (owner name : string) (t : Z)
  (e : exn) :
  _get_background_data db owner name t = Exc e
  <-> e = TypeError
      /\ exists i, In i (background_issues db owner name t) /\ undated i.
Proof. apply _get_background_data_raises. Qed.

End BackgroundFacts.

Lemma background_data_counts_witness :
  _get_background_data (H := toy) db0 "o" "r" 40
  = Ret (["alice"; "bob"; "web-flow"], 1, 1, [20])
  /\ 1 + 1 = len (background_issues db0 "o" "r" 40)
  /\ len ["alice"; "bob"; "web-flow"]
     <= 2 * len (background_commits db0 "o" "r" 40).
Proof.
  split; [reflexivity|].
  destruct (background_data_counts (H := toy) db0 "o" "r" 40
              ["alice"; "bob"; "web-flow"] 1 1 [20] eq_refl)
    as (H1 & _ & _ & _ & _ & _ & H2).
  split; [exact H1 | exact H2].
Defined.

(** ** Dynamics replayer: cutoff, actors, comments and labels *)

Lemma foldM_prefix_ind {A B : Type} (f : B -> A -> result B)
  (P : list A -> B -> Prop) :
  (forall pre x b b', P pre b -> f b x = Ret b' -> P (pre ++ [x])%list b') ->
  forall (l pre : list A) (b0 b : B),
    P pre b0 -> foldM f l b0 = Ret b -> P (pre ++ l)%list b.
Proof.
  intro Hstep. induction l as [|x l IH]; intros pre b0 b H0 Hf; simpl in Hf.
  - injection Hf as <-. now rewrite app_nil_r.
  - destruct (f b0 x) as [b1|] eqn:Hx; simpl in Hf; [|discriminate].
    replace (pre ++ x :: l)%list with ((pre ++ [x]) ++ l)%list
      by (rewrite <- app_assoc; reflexivity).
    eapply IH; [|exact Hf]. eapply Hstep; eauto.
Qed.

Lemma add_actor_In (u : string) (a : option string) (s : list string) :
  In u (add_actor a s) <-> In u s \/ (a = Some u /\ u <> "ghost").
Proof.
  unfold add_actor. destruct a as [a|].
  - destruct (String.eqb_spec a "ghost") as [->|Hg].
    + split; [auto|]. intros [Hu|[E Hn]]; [exact Hu|].
      injection E as <-. now elim Hn.
    + rewrite set_add_In. split.
      * intros [->|Hu]; auto.
      * intros [Hu|[E _]]; [auto|]. injection E as <-. auto.
  - split; [auto|]. intros [Hu|[E _]]; [exact Hu | discriminate].
Qed.

Lemma add_actor_NoDup (a : option string) (s : list string) :
  NoDup s -> NoDup (add_actor a s).
Proof.
  unfold add_actor. destruct a as [a|]; [|auto].
  destruct (a == "ghost"); [auto|]. apply set_add_NoDup.
Qed.

(** What one event does to each component of the replay. *)
Lemma replay_event_fields (t : Z) (r r' : Replay) (e : IssueEvent.t) :
  replay_event t r e = Ret r' ->
  let live := IssueEvent.time e <=? t in
  let is_comment := live && (IssueEvent.type e == "commented") in
  let is_label := live && (IssueEvent.type e == "labeled") in
  event_users r'
  = (if live then add_actor (IssueEvent.actor e) (event_users r)
     else event_users r)
  /\ comment_users r'
     = (if is_comment then add_actor (IssueEvent.actor e) (comment_users r)
        else comment_users r)
  /\ comments r'
     = (if is_comment then (comments r ++ [IssueEvent.comment e])%list
        else comments r)
  /\ (forall x, In x (labels r') ->
                In x (labels r) \/ (is_label = true /\ IssueEvent.label e = x))
  /\ (IssueEvent.type e <> "unlabeled" ->
      labels r'
      = (if is_label then (labels r ++ [IssueEvent.label e])%list
         else labels r)).
Proof.
  unfold replay_event. cbv zeta.
  destruct (IssueEvent.time e <=? t); cbn [andb].
  2:{ intro E. injection E as <-. repeat split; auto. }
  destruct (String.eqb_spec (IssueEvent.type e) "labeled") as [Hl|Hl].
  { rewrite Hl. intro E. injection E as <-. simpl.
    repeat split; auto.
    intros x Hx. apply in_app_or in Hx as [Hx|[<-|[]]]; auto. }
  destruct (String.eqb_spec (IssueEvent.type e) "unlabeled") as [Hu|Hu].
  { rewrite Hu. simpl (_ == _).
    destruct (PyStr.mem (IssueEvent.label e) (labels r)).
    - destruct (list_remove (IssueEvent.label e) (labels r)) as [l'|] eqn:Hr;
        simpl; [|discriminate].
      intro E. injection E as <-. simpl. repeat split; auto.
      + intros x Hx. left.
        destruct (list_remove_split _ _ _ Hr) as (a & b & -> & _ & ->).
        apply in_app_or in Hx. apply in_or_app. simpl. tauto.
      + intro Hn. now elim Hn.
    - intro E. injection E as <-. simpl. repeat split; auto. }
  destruct (IssueEvent.type e == "commented");
    intro E; injection E as <-; simpl; repeat split; auto.
Qed.

(** X13: events dated after the cutoff play no part in the replay: the
    replay of an event list is the replay of its events dated at or
    before the cutoff. *)
Theorem replay_ignores_later_events (events : list IssueEvent.t) (t : Z) :
  replay events t
  = replay (filter (fun e => IssueEvent.time e <=? t) events) t.
Proof.
  unfold replay. generalize (mkReplay [] [] [] []).
  induction events as [|e events IH]; intro r; [reflexivity|].
  cbn [filter]. destruct (IssueEvent.time e <=? t) eqn:Ht.
  - cbn [foldM]. destruct (replay_event t r e); simpl; [apply IH | reflexivity].
  - cbn [foldM]. unfold replay_event at 1. rewrite Ht. simpl. apply IH.
Qed.

(** X14: after the replay the two actor collections hold no duplicate
    and never "ghost"; the event actors are exactly the actors of the
    events dated at or before the cutoff, the commenters exactly the
    actors of the "commented" events among them, so every commenter is
    an event actor. *)
Theorem replay_actors (events : list IssueEvent.t) (t : Z) (r : Replay) :
  replay events t = Ret r ->
  NoDup (event_users r) /\ NoDup (comment_users r)
  /\ (forall u : string,
         In u (event_users r)
         <-> u <> "ghost"
             /\ exists e, In e events /\ IssueEvent.time e <= t
                          /\ IssueEvent.actor e = Some u)
  /\ (forall u : string,
         In u (comment_users r)
         <-> u <> "ghost"
             /\ exists e, In e events /\ IssueEvent.time e <= t
                          /\ IssueEvent.type e = "commented"
                          /\ IssueEvent.actor e = Some u)
  /\ incl (comment_users r) (event_users r).
Proof.
  intro Hr.
  assert (Hinv :
    NoDup (event_users r) /\ NoDup (comment_users r)
    /\ (forall u, In u (event_users r)
                  <-> u <> "ghost"
                      /\ exists e, In e ([] ++ events)%list
                                   /\ IssueEvent.time e <= t
                                   /\ IssueEvent.actor e = Some u)
    /\ (forall u, In u (comment_users r)
                  <-> u <> "ghost"
                      /\ exists e, In e ([] ++ events)%list
                                   /\ IssueEvent.time e <= t
                                   /\ IssueEvent.type e = "commented"
                                   /\ IssueEvent.actor e = Some u)).
  { apply (foldM_prefix_ind (replay_event t)
             (fun pre r =>
                NoDup (event_users r) /\ NoDup (comment_users r)
                /\ (forall u, In u (event_users r)
                              <-> u <> "ghost"
                                  /\ exists e, In e pre
                                               /\ IssueEvent.time e <= t
                                               /\ IssueEvent.actor e = Some u)
                /\ (forall u, In u (comment_users r)
                              <-> u <> "ghost"
                                  /\ exists e, In e pre
                                               /\ IssueEvent.time e <= t
                                               /\ IssueEvent.type e
                                                  = "commented"
                                               /\ IssueEvent.actor e = Some u)))
      with (b0 := mkReplay [] [] [] []); [| |exact Hr].
    - intros pre e r0 r1 (N1 & N2 & I1 & I2) Hs.
      apply replay_event_fields in Hs. cbv zeta in Hs.
      destruct Hs as (-> & -> & _).
      split; [destruct (_ <=? _); auto using add_actor_NoDup|].
      split; [destruct (_ && _); auto using add_actor_NoDup|].
      split; intro u.
      + destruct (Z.leb_spec (IssueEvent.time e) t) as [Ht|Ht].
        * rewrite add_actor_In, I1. split.
          -- intros [(Hg & x & Hx & Hxt & Hxa)|(Ha & Hg)].
             ++ split; [exact Hg|]. exists x. rewrite in_app_iff. auto.
             ++ split; [exact Hg|]. exists e. rewrite in_app_iff. simpl. auto.
          -- intros (Hg & x & Hx & Hxt & Hxa).
             apply in_app_or in Hx as [Hx|[<-|[]]]; eauto 7.
        * rewrite I1. split; intros (Hg & x & Hx & Hxt & Hxa);
            (split; [exact Hg|]).
          -- exists x. rewrite in_app_iff. auto.
          -- apply in_app_or in Hx as [Hx|[<-|[]]]; [eauto | lia].
      + destruct (Z.leb_spec (IssueEvent.time e) t) as [Ht|Ht]; cbn [andb].
        * destruct (String.eqb_spec (IssueEvent.type e) "commented")
            as [Hc|Hc].
          -- rewrite add_actor_In, I2. split.
             ++ intros [(Hg & x & Hx & Hxt & Hxc & Hxa)|(Ha & Hg)].
                ** split; [exact Hg|]. exists x. rewrite in_app_iff. auto.
                ** split; [exact Hg|]. exists e. rewrite in_app_iff.
                   simpl. auto.
             ++ intros (Hg & x & Hx & Hxt & Hxc & Hxa).
                apply in_app_or in Hx as [Hx|[<-|[]]]; eauto 8.
          -- rewrite I2. split; intros (Hg & x & Hx & Hxt & Hxc & Hxa);
               (split; [exact Hg|]).
             ++ exists x. rewrite in_app_iff. auto.
             ++ apply in_app_or in Hx as [Hx|[<-|[]]]; [eauto | now elim Hc].
        * rewrite I2. split; intros (Hg & x & Hx & Hxt & Hxc & Hxa);
            (split; [exact Hg|]).
          -- exists x. rewrite in_app_iff. auto.
          -- apply in_app_or in Hx as [Hx|[<-|[]]]; [eauto | lia].
    - simpl. split; [constructor|]. split; [constructor|].
      split; intro u; (split; [contradiction|]).
      + intros (_ & e & [] & _).
      + intros (_ & e & [] & _). }
  simpl in Hinv. destruct Hinv as (N1 & N2 & I1 & I2).
  split; [exact N1|]. split; [exact N2|]. split; [exact I1|].
  split; [exact I2|].
  intros u Hu. apply I2 in Hu as (Hg & e & He & Ht & _ & Ha).
  apply I1. eauto.
Qed.

(** X15: the replayed comments are the comment texts of the "commented"
    events dated at or before the cutoff, in the order of the events. *)
Theorem replay_comments (events : list IssueEvent.t) (t : Z) (r : Replay) :
  replay events t = Ret r ->
  comments r
  = map IssueEvent.comment
        (filter (fun e => (IssueEvent.time e <=? t)
                          && (IssueEvent.type e == "commented")) events).
Proof.
  intro Hr.
  apply (foldM_prefix_ind (replay_event t)
           (fun pre r =>
              comments r
              = map IssueEvent.comment
                    (filter (fun e => (IssueEvent.time e <=? t)
                                      && (IssueEvent.type e == "commented"))
                            pre)))
    with (pre := []) (b0 := mkReplay [] [] [] []) (l := events);
    [|reflexivity|exact Hr].
  intros pre e r0 r1 Hc Hs. apply replay_event_fields in Hs. cbv zeta in Hs.
  destruct Hs as (_ & _ & -> & _).
  rewrite filter_app, map_app, Hc. cbn [filter].
  destruct (_ && _); simpl; [reflexivity | now rewrite app_nil_r].
Qed.

(** X16: every replayed label is the label of a "labeled" event dated
    at or before the cutoff; and when the events hold no "unlabeled"
    event, the replayed labels are the labels of those events, in their
    order. *)
Theorem replay_labels_provenance (events : list IssueEvent.t) (t : Z)
  (r : Replay) :
  replay events t = Ret r ->
  (forall x : string,
      In x (labels r) ->
      exists e, In e events /\ IssueEvent.time e <= t
                /\ IssueEvent.type e = "labeled" /\ IssueEvent.label e = x)
  /\ ((forall e, In e events -> IssueEvent.type e <> "unlabeled") ->
      labels r
      = map IssueEvent.label
            (filter (fun e => (IssueEvent.time e <=? t)
                              && (IssueEvent.type e == "labeled")) events)).
Proof.
  intro Hr. split.
  - apply (foldM_prefix_ind (replay_event t)
             (fun pre r =>
                forall x, In x (labels r) ->
                  exists e, In e pre /\ IssueEvent.time e <= t
                            /\ IssueEvent.type e = "labeled"
                            /\ IssueEvent.label e = x))
      with (pre := []) (b0 := mkReplay [] [] [] []) (l := events);
      [|intros x []|exact Hr].
    intros pre e r0 r1 Hp Hs x Hx.
    apply replay_event_fields in Hs. cbv zeta in Hs.
    destruct Hs as (_ & _ & _ & Hl & _).
    destruct (Hl x Hx) as [H0|[Hb <-]].
    + destruct (Hp x H0) as (e0 & He0 & Hrest).
      exists e0. rewrite in_app_iff. auto.
    + apply andb_true_iff in Hb as [Ht Hty].
      apply Z.leb_le in Ht. apply String.eqb_eq in Hty.
      exists e. rewrite in_app_iff. simpl. auto.
  - intro Hnu. revert Hr. unfold replay.
    assert (Hgen : forall r0,
               foldM (replay_event t) events r0 = Ret r ->
               labels r
               = (labels r0
                  ++ map IssueEvent.label
                       (filter (fun e => (IssueEvent.time e <=? t)
                                         && (IssueEvent.type e == "labeled"))
                               events))%list).
    { induction events as [|e events IH]; intros r0 Hf; simpl in Hf.
      - injection Hf as <-. simpl. now rewrite app_nil_r.
      - destruct (replay_event t r0 e) as [r1|] eqn:Hs; simpl in Hf;
          [|discriminate].
        apply replay_event_fields in Hs. cbv zeta in Hs.
        destruct Hs as (_ & _ & _ & _ & Hl).
        rewrite (IH (fun x Hx => Hnu x (or_intror Hx)) r1 Hf).
        rewrite Hl by (apply Hnu; now left).
        cbn [filter]. destruct (_ && _); simpl; [|reflexivity].
        now rewrite <- app_assoc. }
    intro Hr. exact (Hgen _ Hr).
Qed.

Lemma replay_actors_witness :
  exists r,
    replay [labeled_bug; commented] 30 = Ret r
    /\ NoDup (event_users r) /\ incl (comment_users r) (event_users r).
Proof.
  eexists. split; [reflexivity|].
  destruct (replay_actors [labeled_bug; commented] 30 _ eq_refl)
    as (H1 & _ & _ & _ & H2).
  split; [exact H1 | exact H2].
Defined.

Lemma replay_comments_witness :
  exists r,
    replay [labeled_bug; commented] 30 = Ret r
    /\ comments r = ["me too"].
Proof.
  eexists. split; [reflexivity|].
  exact (replay_comments [labeled_bug; commented] 30 _ eq_refl).
Defined.

Lemma replay_labels_provenance_witness :
  exists r,
    replay [labeled_bug; commented] 30 = Ret r
    /\ labels r = ["bug"].
Proof.
  eexists. split; [reflexivity|].
  apply (proj2 (replay_labels_provenance [labeled_bug; commented] 30 _ eq_refl)).
  intros e [<-|[<-|[]]]; discriminate.
Defined.

(** ** Snapshot builder: uniqueness, frame and outcomes *)

Section BuilderMore.
Context `{Collaborators}.

Lemma existing_query_key (issue : Issue) (before : Z) (d : Dataset.t) :
  existing_query issue before d = true
  <-> snapshot_key d
      = (issue_owner issue, issue_name issue, issue_number issue, before).
Proof.
  unfold existing_query, dataset_key, snapshot_key.
  rewrite !andb_true_iff, !String.eqb_eq, !Z.eqb_eq. split.
  - intros [[[-> ->] ->] ->]. reflexivity.
  - intro E. injection E as -> -> -> ->. auto.
Qed.

(** Dropping snapshots keeps the remaining keys distinct. *)
Lemma unique_after_delete (keep : Dataset.t -> bool) (ds : list Dataset.t) :
  NoDup (map snapshot_key ds) -> NoDup (map snapshot_key (filter keep ds)).
Proof.
  induction ds as [|d ds IH]; cbn [filter map]; intro Hu; [exact Hu|].
  apply NoDup_cons_iff in Hu as [Hfresh Hu].
  destruct (keep d); [|now apply IH].
  cbn [map]. apply NoDup_cons; [|now apply IH].
  rewrite in_map_iff. intros (d' & Hk & Hd').
  apply filter_In in Hd' as [Hd' _].
  apply Hfresh, in_map_iff. now exists d'.
Qed.

Lemma enter_unique (issue : Issue) (before : Z) (st : State) :
  unique_snapshots (store st) ->
  unique_snapshots (store (enter issue before st)).
Proof.
  unfold unique_snapshots. destruct issue as [i|i]; simpl; [|auto].
  apply unique_after_delete.
Qed.

Lemma get_dataset_unique (issue : Issue) (before : Z) (st : State) :
  unique_snapshots (store st) ->
  unique_snapshots (store (final_state (get_dataset issue before st))).
Proof.
  intro Hu. apply (enter_unique issue before) in Hu.
  rewrite get_dataset_cases. cbv zeta.
  destruct (first (filter _ (Datasets _))) eqn:He; [exact Hu|].
  destruct (first (filter _ (RepoIssues _))) as [ri|]; [|exact Hu].
  destruct (RepoIssue.is_pull ri); [exact Hu|].
  destruct (compose_dataset _ _ _ _) as [data|e] eqn:Hc; [|exact Hu].
  destruct (storable data); [|exact Hu].
  unfold unique_snapshots in *.
  cbn [final_state with_log set_store store insert_dataset set_Datasets Datasets].
  rewrite map_app. apply NoDup_snoc; [exact Hu|].
  intro Hin. apply in_map_iff in Hin as (d & Hk & Hd).
  apply first_None in He.
  assert (Hq : existing_query issue before d = true).
  { apply existing_query_key. rewrite Hk. apply existing_query_key.
    apply (new_dataset_queries _ _ _ _ _ Hc). }
  assert (Hin : In d (filter (existing_query issue before)
                             (Datasets (store (enter issue before st)))))
    by (apply filter_In; auto).
  rewrite He in Hin. contradiction.
Qed.

(** X17: the builder keeps the snapshots unique: if the store holds at
    most one snapshot per (owner, name, number, before), it still does
    after a call, whether the call returns or raises. *)
Theorem get_dataset_keeps_unique (issue : Issue) (before : Z) (st : State) :
  unique_snapshots (store st) ->
  unique_snapshots (store (final_state (get_dataset issue before st))).
Proof. apply get_dataset_unique. Qed.

Lemma enter_same_sources (issue : Issue) (before : Z) (st : State) :
  same_sources (store st) (store (enter issue before st)).
Proof. destruct issue; repeat split. Qed.

Lemma stale_key (issue : Issue) (d : Dataset.t) :
  dataset_key issue d = false -> stale issue d = false.
Proof. unfold stale. now intros ->. Qed.

Lemma get_dataset_untouched (issue : Issue) (before : Z) (st : State) :
  same_sources (store st) (store (final_state (get_dataset issue before st)))
  /\ filter (fun d => negb (dataset_key issue d))
            (Datasets (store (final_state (get_dataset issue before st))))
     = filter (fun d => negb (dataset_key issue d)) (Datasets (store st)).
Proof.
  assert (He : filter (fun d => negb (dataset_key issue d))
                      (Datasets (store (enter issue before st)))
               = filter (fun d => negb (dataset_key issue d))
                        (Datasets (store st))).
  { destruct issue as [i|i]; simpl; [|reflexivity].
    rewrite filter_filter. apply filter_ext. intro d.
    destruct (dataset_key (Resolved i) d) eqn:Hk; [reflexivity|].
    now rewrite (stale_key _ _ Hk). }
  pose proof (enter_same_sources issue before st) as Hs.
  rewrite get_dataset_cases. cbv zeta.
  destruct (first (filter _ (Datasets _))); [split; assumption|].
  destruct (first (filter _ (RepoIssues _))) as [ri|]; [|split; assumption].
  destruct (RepoIssue.is_pull ri); [split; assumption|].
  destruct (compose_dataset _ _ _ _) as [data|e] eqn:Hc; [|split; assumption].
  destruct (storable data); [|split; assumption].
  split; [exact Hs|].
  cbn [final_state with_log set_store store insert_dataset set_Datasets Datasets].
  rewrite filter_app, He. cbn [filter].
  destruct (new_dataset_queries _ _ _ _ _ Hc) as [Hq _].
  apply andb_true_iff in Hq as [-> _]. simpl. apply app_nil_r.
Qed.

(** X18: whatever its outcome, a call of the builder leaves the raw
    records and the build logs as they were, and leaves alone every
    snapshot of another issue: the snapshots whose (owner, name, number)
    differ from the issue's are the same before and after. *)
Theorem get_dataset_frame (issue : Issue) (before : Z) (st : State) :
  same_sources (store st) (store (final_state (get_dataset issue before st)))
  /\ filter (fun d => negb (dataset_key issue d))
            (Datasets (store (final_state (get_dataset issue before st))))
     = filter (fun d => negb (dataset_key issue d)) (Datasets (store st)).
Proof. apply get_dataset_untouched. Qed.


End BuilderMore.

Lemma get_dataset_keeps_unique_witness :
  unique_snapshots (store st_open1)
  /\ unique_snapshots
       (store (final_state (get_dataset (Resolved resolved1) 30 st_open1))).
Proof.
  assert (Hu : unique_snapshots (store st_open1)).
  { unfold unique_snapshots. vm_compute. constructor; [|constructor].
    intros []. }
  split; [exact Hu|].
  exact (get_dataset_keeps_unique (Resolved resolved1) 30 st_open1 Hu).
Defined.


(** ** Snapshot builder: when it returns and how it fails *)

Lemma mapM_Exc {A B : Type} (f : A -> result B) (l : list A) (e : exn) :
  mapM f l = Exc e -> exists x, In x l /\ f x = Exc e.
Proof.
  induction l as [|x l IH]; simpl; [discriminate|].
  destruct (f x) as [y|e'] eqn:Hf; simpl.
  - destruct (mapM f l) as [r|e'']; simpl; [discriminate|].
    intro E. injection E as ->.
    destruct (IH eq_refl) as (z & Hz & Hfz). eauto.
  - intro E. injection E as ->. eauto.
Qed.

Section BuilderReturns.
Context `{Collaborators}.

Lemma _get_user_data_Exc (db : Store) (owner name user : string) (t : Z)
  (e : exn) :
  _get_user_data db owner name user t = Exc e ->
  e = TypeError /\ exists i, In i (RepoIssues db) /\ undated i.
Proof.
  intro He. apply _get_user_data_raises in He as (-> & _ & i & Hi & Hd).
  split; [reflexivity|]. exists i. split; [|exact Hd].
  unfold user_issues in Hi. now apply filter_In in Hi.
Qed.

Lemma _get_dynamics_data_Exc (db : Store) (owner name : string)
  (events : list IssueEvent.t) (t : Z) (e : exn) :
  _get_dynamics_data db owner name events t = Exc e ->
  e = TypeError /\ exists i, In i (RepoIssues db) /\ undated i.
Proof.
  unfold _get_dynamics_data.
  destruct (replay_total events t) as [r ->]. cbn [rbind].
  destruct (mapM _ (comment_users r)) as [cu|e1] eqn:H1; cbn [rbind].
  - destruct (mapM _ (event_users r)) as [eu|e2] eqn:H2; cbn [rbind];
      [discriminate|].
    intro E. injection E as ->.
    apply mapM_Exc in H2 as (u & _ & Hu). now apply _get_user_data_Exc in Hu.
  - intro E. injection E as ->.
    apply mapM_Exc in H1 as (u & _ & Hu). now apply _get_user_data_Exc in Hu.
Qed.

Lemma compose_dataset_Exc (issue : Issue) (before : Z)
  (repo_issue : RepoIssue.t) (db : Store) (e : exn) :
  compose_dataset issue before repo_issue db = Exc e ->
  (e = TypeError /\ exists i, In i (RepoIssues db) /\ undated i)
  \/ (e = AttributeError
      /\ first (filter (fun r => (Repo.owner r == issue_owner issue)
                                 && (Repo.name r == issue_name issue))
                       (Repos db)) = None).
Proof.
  unfold compose_dataset.
  destruct (_get_background_data _ _ _ _) as [[[[contribs nc] no] ct]|e1]
    eqn:Hb; cbn [rbind].
  2:{ intro E. injection E as ->. left.
      apply _get_background_data_raises in Hb as (-> & i & Hi & Hd).
      split; [reflexivity|]. exists i. split; [|exact Hd].
      unfold background_issues in Hi. now apply filter_In in Hi. }
  destruct (_get_dynamics_data _ _ _ _ _) as [[[[ls cs] cu] eu]|e2] eqn:Hd;
    cbn [rbind].
  2:{ intro E. injection E as ->. left.
      now apply _get_dynamics_data_Exc in Hd. }
  destruct (_get_user_data db _ _ (RepoIssue.user repo_issue) before)
    as [rf|e3] eqn:Hr; cbn [rbind].
  2:{ intro E. injection E as ->. left. now apply _get_user_data_Exc in Hr. }
  destruct (_get_user_data db _ _ (issue_owner issue) before)
    as [ow|e4] eqn:Ho; cbn [rbind].
  2:{ intro E. injection E as ->. left. now apply _get_user_data_Exc in Ho. }
  destruct (first (filter _ (Repos db))) as [r|]; cbn [repo_attr rbind];
    [discriminate|].
  intro E. injection E as <-. right. auto.
Qed.

Lemma compose_dataset_same_records (db db' : Store) (issue : Issue)
  (before : Z) (repo_issue : RepoIssue.t) :
  same_records db db' ->
  compose_dataset issue before repo_issue db'
  = compose_dataset issue before repo_issue db.
Proof.
  intros (Hc & Hi & Hr & Hs & _).
  unfold compose_dataset, _get_background_data, _get_dynamics_data,
    _get_user_data.
  rewrite Hc, Hi, Hr, Hs. reflexivity.
Qed.

Lemma snapshot_storable_same_records (db db' : Store) (issue : Issue)
  (before : Z) :
  same_records db db' ->
  snapshot_storable db' issue before <-> snapshot_storable db issue before.
Proof.
  intro Hs. unfold snapshot_storable.
  pose proof Hs as (_ & Hi & _). rewrite Hi.
  destruct (first (filter _ (RepoIssues db))) as [ri|]; [|tauto].
  rewrite (compose_dataset_same_records db db' issue before ri Hs).
  tauto.
Qed.

Lemma get_dataset_raises (issue : Issue) (before : Z) (st : State) :
  (forall (e : exn) (st' : State),
      get_dataset issue before st = Raise e st' ->
      (e = AttributeError /\ ~ issue_known (store st) issue)
      \/ (e = TypeError
          /\ exists i, In i (RepoIssues (store st)) /\ undated i)
      \/ (e = OverflowError
          /\ ~ snapshot_storable (store st) issue before))
  /\ (closed_issues_dated (store st) -> issue_known (store st) issue ->
      snapshot_storable (store st) issue before ->
      exists a st', get_dataset issue before st = Ok a st').
Proof.
  assert (Hraise : forall e st',
             get_dataset issue before st = Raise e st' ->
             (e = AttributeError /\ ~ issue_known (store st) issue)
             \/ (e = TypeError
                 /\ exists i, In i (RepoIssues (store st)) /\ undated i)
             \/ (e = OverflowError
                 /\ ~ snapshot_storable (store st) issue before)).
  { intros e st'. rewrite get_dataset_cases. cbv zeta.
    destruct (first (filter _ (Datasets _))); [discriminate|].
    rewrite enter_RepoIssues.
    destruct (first (filter _ (RepoIssues _))) as [ri|] eqn:Hri.
    2:{ intro E. injection E as <- _. left. split; [reflexivity|].
        intros [[i Hi] _]. congruence. }
    destruct (RepoIssue.is_pull ri); [discriminate|].
    assert (Hrec : same_records (store st) (store (enter issue before st))).
    { destruct (enter_same_sources issue before st)
        as (S1 & S2 & S3 & S4 & S5 & _).
      repeat split; assumption. }
    destruct (compose_dataset _ _ _ _) as [data|e0] eqn:Hc.
    - destruct (storable data) eqn:Hst; [discriminate|].
      intro E. injection E as <- _. right. right. split; [reflexivity|].
      rewrite (compose_dataset_same_records (store st)) in Hc by exact Hrec.
      unfold snapshot_storable. rewrite Hri, Hc, Hst. discriminate.
    - intro E. injection E as <- _.
      apply compose_dataset_Exc in Hc as [(-> & i & Hi & Hd)|(-> & Hr)].
      + right. left. split; [reflexivity|]. exists i.
        rewrite enter_RepoIssues in Hi. auto.
      + left. split; [reflexivity|]. intros [_ [r Hr']].
        destruct (enter_same_sources issue before st) as (_ & _ & E & _).
        rewrite E in Hr. congruence. }
  split; [exact Hraise|].
  intros Hd Hk Hs.
  destruct (get_dataset issue before st) as [a st'|e st'] eqn:E; [eauto|].
  exfalso.
  destruct (Hraise e st' eq_refl)
    as [[_ Hn]|[(_ & i & Hi & Hs' & Hc)|[_ Hn]]].
  - now apply Hn.
  - exact (Hd i Hi Hs' Hc).
  - now apply Hn.
Qed.

(** X20: the builder raises only for want of a record, of a closing
    time or of room for an integer: an AttributeError when the store has
    no issue record or no repository record for the issue, a TypeError
    when some issue record is closed without a closing time, an
    OverflowError when the snapshot it composed holds an integer that
    does not fit eight bytes; so on a store whose closed issues are
    dated, that knows the issue and whose snapshot for the issue at the
    cutoff fits, every call returns. *)
Theorem get_dataset_failures (issue : Issue) (before : Z) (st : State) :
  (forall (e : exn) (st' : State),
      get_dataset issue before st = Raise e st' ->
      (e = AttributeError /\ ~ issue_known (store st) issue)
      \/ (e = TypeError
          /\ exists i, In i (RepoIssues (store st)) /\ undated i)
      \/ (e = OverflowError
          /\ ~ snapshot_storable (store st) issue before))
  /\ (closed_issues_dated (store st) -> issue_known (store st) issue ->
      snapshot_storable (store st) issue before ->
      exists a st', get_dataset issue before st = Ok a st').
Proof. apply get_dataset_raises. Qed.

End BuilderReturns.

Lemma get_dataset_failures_witness :
  closed_issues_dated db0 /\ issue_known db0 (Resolved resolved1)
  /\ snapshot_storable db0 (Resolved resolved1) 10
  /\ exists a st', get_dataset (Resolved resolved1) 10 st0 = Ok a st'.
Proof.
  assert (Hd : closed_issues_dated db0).
  { intros i Hi Hs. simpl in Hi.
    destruct Hi as [<-|[<-|[<-|[]]]]; discriminate. }
  assert (Hk : issue_known db0 (Resolved resolved1))
    by (split; eexists; reflexivity).
  assert (Hs : snapshot_storable db0 (Resolved resolved1) 10)
    by (vm_compute; reflexivity).
  split; [exact Hd|]. split; [exact Hk|]. split; [exact Hs|].
  exact (proj2 (get_dataset_failures (Resolved resolved1) 10 st0) Hd Hk Hs).
Defined.

(** ** Snapshot builder: a fresh snapshot *)

Section FreshSnapshot.
Context `{Collaborators}.

Lemma compose_dataset_content (issue : Issue) (before : Z)
  (repo_issue : RepoIssue.t) (db : Store) (data : Dataset.t) :
  compose_dataset issue before repo_issue db = Ret data ->
  Dataset.created_at data = RepoIssue.created_at repo_issue
  /\ Dataset.closed_at data = RepoIssue.closed_at repo_issue
  /\ Dataset.title data = RepoIssue.title repo_issue
  /\ Dataset.body data
     = _delete_urls (Some (_delete_code_snippets (RepoIssue.body repo_issue)))
  /\ Dataset.n_urls data = _count_urls (RepoIssue.body repo_issue)
  /\ Dataset.n_imgs data = _count_imgs (RepoIssue.body repo_issue)
  /\ Dataset.events data
     = map IssueEvent.type
           (filter (fun e => IssueEvent.time e <? before) (issue_events issue)).
Proof.
  unfold compose_dataset. intro Hc.
  destruct (_get_background_data _ _ _ _) as [[[[contribs n_closed] n_open] ct]|];
    simpl in Hc; [|discriminate].
  destruct (_get_dynamics_data _ _ _ _ _) as [[[[ls cs] cu] eu]|];
    simpl in Hc; [|discriminate].
  repeat match type of Hc with
         | rbind ?r _ = _ => destruct r; simpl in Hc; [|discriminate]
         end.
  injection Hc as <-. simpl. repeat split; reflexivity.
Qed.

(** X21: when the store holds no snapshot for (owner, name, number,
    cutoff) and the call returns a snapshot, that snapshot is new: it is
    appended to the snapshots that outlived the stale deletion, carries
    the requested key and cutoff, the issue's resolver commit number (-1
    for an open issue) and the creation time and title of the issue
    record, which is not a pull request; its body holds no URL-like token
    any more, while its URL and image counts add up to the number of
    URL-like tokens of the raw body. *)
Theorem fresh_snapshot (issue : Issue) (before : Z) (st st' : State)
  (d : Dataset.t) :
  filter (existing_query issue before) (Datasets (store st)) = [] ->
  get_dataset issue before st = Ok (Some d) st' ->
  exists repo_issue : RepoIssue.t,
    first (filter (repo_issue_key issue) (RepoIssues (store st)))
    = Some repo_issue
    /\ RepoIssue.is_pull repo_issue = false
    /\ Datasets (store st')
       = (filter (survives issue) (Datasets (store st)) ++ [d])%list
    /\ snapshot_key d
       = (issue_owner issue, issue_name issue, issue_number issue, before)
    /\ Dataset.resolver_commit_num d = issue_resolver_commit_num issue
    /\ Dataset.created_at d = RepoIssue.created_at repo_issue
    /\ Dataset.title d = RepoIssue.title repo_issue
    /\ url_tokens (Dataset.body d) = []
    /\ Dataset.n_urls d + Dataset.n_imgs d
       = match RepoIssue.body repo_issue with
         | Some body => len (url_tokens body)
         | None => 0
         end.
Proof.
  intros He. rewrite get_dataset_cases. cbv zeta.
  rewrite enter_RepoIssues, enter_Datasets, filter_filter,
    (filter_nil_and _ _ _ He).
  cbn [first hd_error].
  destruct (first (filter _ (RepoIssues _))) as [ri|]; [|discriminate].
  destruct (RepoIssue.is_pull ri) eqn:Hp; [discriminate|].
  destruct (compose_dataset _ _ _ _) as [data|e] eqn:Hc; [|discriminate].
  destruct (storable data); [|discriminate].
  intro E. injection E as <- <-.
  destruct (compose_dataset_fields _ _ _ _ _ Hc) as (Ho & Hn & Hk & Hb & Hr).
  destruct (compose_dataset_content _ _ _ _ _ Hc)
    as (Hcr & _ & Hti & Hbody & Hu & Hi & _).
  exists ri. split; [reflexivity|]. split; [exact Hp|].
  split.
  { rewrite <- (enter_Datasets issue before st).
    change (match issue with
            | Resolved _ => delete_stale issue (store st)
            | Open _ => store st
            end) with (store (enter issue before st)).
    remember (enter issue before st) as st1 eqn:E1. reflexivity. }
  split; [unfold snapshot_key; now rewrite Ho, Hn, Hk, Hb|].
  split; [exact Hr|]. split; [exact Hcr|]. split; [exact Hti|].
  split; [rewrite Hbody; apply erase_url_clean|].
  rewrite Hu, Hi. destruct (RepoIssue.body ri) as [body|]; [|reflexivity].
  unfold _count_urls, _count_imgs. apply len_filter_split.
Qed.

End FreshSnapshot.

Lemma fresh_snapshot_witness :
  exists (d : Dataset.t) (st' : State (H := toy)),
    get_dataset (Resolved resolved1) 30 st0 = Ok (Some d) st'
    /\ Datasets (store st') = [d]
    /\ Dataset.resolver_commit_num d = 2
    /\ Dataset.n_urls d + Dataset.n_imgs d = 2
    /\ url_tokens (Dataset.body d) = [].
Proof.
  pose (o := get_dataset (H := toy) (Resolved resolved1) 30 st0).
  assert (Ho : exists d, returned o = Some (Some d))
    by (eexists; vm_compute; reflexivity).
  destruct o as [[d|] st'|e st'] eqn:E;
    try (destruct Ho as [x Hx]; discriminate Hx).
  destruct (fresh_snapshot (Resolved resolved1) 30 st0 st' d eq_refl E)
    as (ri & Hri & _ & Hds & _ & Hr & _ & _ & Hb & Hn).
  injection Hri as <-.
  exists d, st'. repeat split; auto.
Defined.

(** ** Runs: invariants, completion and the lock *)

Section RunFacts.
Context `{Collaborators}.

Lemma for_each_keeps {A : Type} (P : Store -> Prop) (body : A -> M unit) :
  (forall x st, P (store st) -> P (store (final_state (body x st)))) ->
  forall l st, P (store st) -> P (store (final_state (for_each l body st))).
Proof.
  intro Hb. induction l as [|x l IH]; intros st Hst; [exact Hst|].
  cbn [for_each]. unfold bind. specialize (Hb x st Hst).
  destruct (body x st) as [[] st1|e st1]; simpl in Hb; [|exact Hb].
  now apply IH.
Qed.

Lemma get_dataset_with_issues_keeps (P : Store -> Prop) :
  (forall issue before st,
      P (store st) -> P (store (final_state (get_dataset issue before st)))) ->
  forall resolved_issues open_issues st,
    P (store st) ->
    P (store (final_state
                (get_dataset_with_issues resolved_issues open_issues st))).
Proof.
  intros Hg resolved_issues open_issues st Hst.
  unfold get_dataset_with_issues, bind.
  assert (Hr : forall i s, P (store s) ->
                           P (store (final_state (resolved_body i s)))).
  { intros i s Hs. unfold resolved_body, bind, ret.
    pose proof (Hg (Resolved i) (ResolvedIssue.created_at i) s Hs) as H1.
    destruct (get_dataset (Resolved i) (ResolvedIssue.created_at i) s)
      as [a s1|e s1]; simpl in H1; [|exact H1].
    pose proof (Hg (Resolved i) (ResolvedIssue.resolved_at i) s1 H1) as H2.
    destruct (get_dataset (Resolved i) (ResolvedIssue.resolved_at i) s1);
      exact H2. }
  assert (Ho : forall i s, P (store s) ->
                           P (store (final_state (open_body i s)))).
  { intros i s Hs. unfold open_body, bind, query, logger, ret.
    destruct (up_to_date i (store s)); [exact Hs|].
    pose proof (Hg (Open i) (OpenIssue.updated_at i) s Hs) as H1.
    destruct (get_dataset (Open i) (OpenIssue.updated_at i) s); exact H1. }
  pose proof (for_each_keeps P resolved_body Hr resolved_issues st Hst) as H1.
  destruct (for_each resolved_issues resolved_body st) as [[] st1|e st1];
    simpl in H1; [|exact H1].
  now apply for_each_keeps.
Qed.

Lemma get_dataset_for_repo_free (p : Process) (owner name : string)
  (since : Z) (login : option string) (st : State) :
  log_exists owner name (store st) = false ->
  get_dataset_for_repo p owner name since login st
  = (get_dataset_with_issues (repo_resolved owner name since (store st))
                             (repo_open owner name since (store st)) ;;
     update_log (List.length (DatasetBuildLogs (store st)))
       (close_log (new_log p owner name login)
          (len (repo_open owner name since (store st)))
          (len (repo_resolved owner name since (store st)))
          (utcnow_end p)))
      (opened (new_log p owner name login) st).
Proof.
  intro Hb. unfold get_dataset_for_repo, bind at 1, query. now rewrite Hb.
Qed.

Lemma get_dataset_all_free (p : Process) (since : option Z) (st : State) :
  log_exists "" "" (store st) = false ->
  get_dataset_all p since st
  = (get_dataset_with_issues (all_resolved since (store st))
                             (all_open since (store st)) ;;
     update_log (List.length (DatasetBuildLogs (store st)))
       (close_log (new_log p "" "" None)
          (len (all_open since (store st)))
          (len (all_resolved since (store st)))
          (utcnow_end p)))
      (opened (new_log p "" "" None) st).
Proof.
  intro Hb. unfold get_dataset_all, bind at 1, query. rewrite Hb.
  now destruct since.
Qed.

(** A property of the store that the build logs do not bear on is kept
    by both entry points as soon as the builder keeps it. *)
Lemma entry_points_keep (P : Store -> Prop) :
  (forall db ls, P db -> P (set_DatasetBuildLogs ls db)) ->
  (forall issue before st,
      P (store st) -> P (store (final_state (get_dataset issue before st)))) ->
  forall (p : Process) (st : State),
    P (store st) ->
    (forall owner name since login,
        P (store (final_state
                    (get_dataset_for_repo p owner name since login st))))
    /\ (forall since, P (store (final_state (get_dataset_all p since st)))).
Proof.
  intros Hl Hg p st Hst.
  assert (Hrun : forall l R O c,
             P (store (final_state
                         ((get_dataset_with_issues R O ;;
                           update_log (List.length (DatasetBuildLogs (store st)))
                                      c)
                            (opened l st))))).
  { intros l R O c. unfold bind.
    pose proof (get_dataset_with_issues_keeps P Hg R O (opened l st)
                  (Hl _ _ Hst)) as H1.
    destruct (get_dataset_with_issues R O (opened l st)) as [[] st2|e st2];
      simpl in H1; [|exact H1].
    simpl. now apply Hl. }
  split.
  - intros owner name since login.
    destruct (log_exists owner name (store st)) eqn:Hb.
    + unfold get_dataset_for_repo, bind at 1, query. rewrite Hb. exact Hst.
    + rewrite get_dataset_for_repo_free by exact Hb. apply Hrun.
  - intro since. destruct (log_exists "" "" (store st)) eqn:Hb.
    + unfold get_dataset_all, bind at 1, query. rewrite Hb. exact Hst.
    + rewrite get_dataset_all_free by exact Hb. apply Hrun.
Qed.

Lemma same_records_trans (db0 db1 db2 : Store) :
  same_records db0 db1 -> same_sources db1 db2 -> same_records db0 db2.
Proof.
  unfold same_records, same_sources.
  intros (A1 & A2 & A3 & A4 & A5) (B1 & B2 & B3 & B4 & B5 & _).
  repeat split; congruence.
Qed.

(** X22: both entry points, whatever their outcome, keep the snapshots
    unique (at most one per (owner, name, number, before)) and leave the
    raw records of the store as they were. *)
Theorem entry_points_invariants (p : Process) (st : State) :
  (unique_snapshots (store st) ->
   (forall owner name since login,
       unique_snapshots
         (store (final_state
                   (get_dataset_for_repo p owner name since login st))))
   /\ (forall since,
          unique_snapshots (store (final_state (get_dataset_all p since st)))))
  /\ (forall owner name since login,
         same_records (store st)
           (store (final_state
                     (get_dataset_for_repo p owner name since login st))))
  /\ (forall since,
         same_records (store st)
           (store (final_state (get_dataset_all p since st)))).
Proof.
  split.
  - intro Hu. apply (entry_points_keep unique_snapshots); auto.
    intros issue before s. apply get_dataset_unique.
  - assert (Hs : (forall owner name since login,
                     same_records (store st)
                       (store (final_state
                                 (get_dataset_for_repo p owner name since
                                                       login st))))
                 /\ (forall since,
                        same_records (store st)
                          (store (final_state (get_dataset_all p since st))))).
    { apply (entry_points_keep (same_records (store st))).
      - intros db ls Hdb. exact Hdb.
      - intros issue before s Hs0.
        apply (same_records_trans _ _ _ Hs0).
        apply get_dataset_untouched.
      - repeat split. }
    exact Hs.
Qed.

End RunFacts.

Lemma entry_points_invariants_witness :
  unique_snapshots (store st_open1)
  /\ unique_snapshots
       (store (final_state (get_dataset_for_repo proc "o" "r" 0 None st_open1))).
Proof.
  assert (Hu : unique_snapshots (store st_open1)).
  { unfold unique_snapshots. vm_compute. constructor; [|constructor].
    intros []. }
  split; [exact Hu|].
  exact (proj1 (proj1 (entry_points_invariants proc st_open1) Hu)
           "o" "r" 0 None).
Defined.

Section RunCompletes.
Context `{Collaborators}.

Lemma for_each_returns {A : Type} (Q : State -> Prop) (body : A -> M unit)
  (l : list A) :
  (forall x st, In x l -> Q st -> exists st', body x st = Ok tt st' /\ Q st') ->
  forall st, Q st -> exists st', for_each l body st = Ok tt st' /\ Q st'.
Proof.
  induction l as [|x l IH]; intros Hb st Hq; [now exists st|].
  cbn [for_each]. unfold bind.
  destruct (Hb x st (or_introl eq_refl) Hq) as (st1 & -> & Hq1).
  apply IH; [|exact Hq1]. intros y s Hy. apply Hb. now right.
Qed.

(** The issue and repository records are those of [db0]. *)
Lemma known_transfer (db0 db : Store) (issue : Issue) :
  RepoIssues db = RepoIssues db0 -> Repos db = Repos db0 ->
  (closed_issues_dated db0 -> closed_issues_dated db)
  /\ (issue_known db0 issue -> issue_known db issue).
Proof.
  intros Hi Hr. unfold closed_issues_dated, issue_known.
  rewrite Hi, Hr. auto.
Qed.

Lemma get_dataset_returns_known (db0 : Store) (issue : Issue) (before : Z)
  (st : State) :
  closed_issues_dated db0 -> issue_known db0 issue ->
  snapshot_storable db0 issue before ->
  same_records db0 (store st) ->
  exists a st',
    get_dataset issue before st = Ok a st' /\ same_records db0 (store st').
Proof.
  intros Hd Hk Hs Hq.
  pose proof Hq as (_ & Hi & Hr & _).
  destruct (known_transfer db0 (store st) issue Hi Hr) as [Hd' Hk'].
  apply (snapshot_storable_same_records db0 (store st) issue before Hq) in Hs.
  destruct (proj2 (get_dataset_raises issue before st) (Hd' Hd) (Hk' Hk) Hs)
    as (a & st' & E).
  exists a, st'. split; [exact E|].
  apply (same_records_trans _ _ _ Hq).
  destruct (get_dataset_untouched issue before st) as [S _].
  rewrite E in S. exact S.
Qed.

Lemma get_dataset_with_issues_returns (db0 : Store)
  (resolved_issues : list ResolvedIssue.t) (open_issues : list OpenIssue.t)
  (st : State) :
  closed_issues_dated db0 ->
  (forall i, In i resolved_issues -> issue_known db0 (Resolved i)) ->
  (forall i, In i open_issues -> issue_known db0 (Open i)) ->
  (forall i, In i resolved_issues ->
             snapshot_storable db0 (Resolved i) (ResolvedIssue.created_at i)
             /\ snapshot_storable db0 (Resolved i)
                  (ResolvedIssue.resolved_at i)) ->
  (forall i, In i open_issues ->
             snapshot_storable db0 (Open i) (OpenIssue.updated_at i)) ->
  same_records db0 (store st) ->
  exists st', get_dataset_with_issues resolved_issues open_issues st = Ok tt st'.
Proof.
  intros Hd Hkr Hko Hsr Hso Hq.
  unfold get_dataset_with_issues, bind.
  destruct (for_each_returns (fun s => same_records db0 (store s))
              resolved_body resolved_issues) with (st := st)
    as (st1 & -> & Hq1); [|exact Hq|].
  { intros i s Hi Hs. unfold resolved_body, bind, ret.
    destruct (Hsr i Hi) as [Hc Hr].
    destruct (get_dataset_returns_known db0 (Resolved i)
                (ResolvedIssue.created_at i) s Hd (Hkr i Hi) Hc Hs)
      as (a1 & s1 & -> & Hs1).
    destruct (get_dataset_returns_known db0 (Resolved i)
                (ResolvedIssue.resolved_at i) s1 Hd (Hkr i Hi) Hr Hs1)
      as (a2 & s2 & -> & Hs2).
    eauto. }
  destruct (for_each_returns (fun s => same_records db0 (store s))
              open_body open_issues) with (st := st1)
    as (st2 & -> & _); [|exact Hq1|eauto].
  intros i s Hi Hs. unfold open_body, bind, query, logger, ret.
  destruct (up_to_date i (store s)); [eauto|].
  destruct (get_dataset_returns_known db0 (Open i)
              (OpenIssue.updated_at i) s Hd (Hko i Hi) (Hso i Hi) Hs)
    as (a1 & s1 & -> & Hs1).
  eauto.
Qed.

Lemma log_exists_app (owner name : string) (db : Store)
  (l : DatasetBuildLog.t) (ls : list DatasetBuildLog.t) :
  DatasetBuildLogs db = (ls ++ [l])%list ->
  log_exists owner name db
  = existsb (is_active owner name) ls || is_active owner name l.
Proof.
  intro E. unfold log_exists. fold (is_active owner name).
  rewrite E, existsb_app. simpl. now rewrite orb_false_r.
Qed.

Lemma log_exists_is_active (owner name : string) (db : Store) :
  log_exists owner name db = existsb (is_active owner name) (DatasetBuildLogs db).
Proof. reflexivity. Qed.

(** X23: on a store whose closed issues carry their closing time, that
    has an issue record and a repository record for every selected issue
    and whose snapshots for the selected issues at their cutoffs (creation
    and resolution time of a resolved issue, update time of an open one)
    hold only integers that fit eight bytes, a per-repository run that
    finds the lock free returns, having appended one closed build log
    with the end time and the two counters, so the lock is free again. *)
Theorem run_completes (p : Process) (owner name : string) (since : Z)
  (login : option string) (st : State) :
  closed_issues_dated (store st) ->
  (forall i, In i (repo_resolved owner name since (store st)) ->
             issue_known (store st) (Resolved i)) ->
  (forall i, In i (repo_open owner name since (store st)) ->
             issue_known (store st) (Open i)) ->
  (forall i, In i (repo_resolved owner name since (store st)) ->
             snapshot_storable (store st) (Resolved i)
               (ResolvedIssue.created_at i)
             /\ snapshot_storable (store st) (Resolved i)
                  (ResolvedIssue.resolved_at i)) ->
  (forall i, In i (repo_open owner name since (store st)) ->
             snapshot_storable (store st) (Open i) (OpenIssue.updated_at i)) ->
  log_exists owner name (store st) = false ->
  exists st',
    get_dataset_for_repo p owner name since login st = Ok tt st'
    /\ DatasetBuildLogs (store st')
       = (DatasetBuildLogs (store st)
          ++ [close_log (new_log p owner name login)
                (len (repo_open owner name since (store st)))
                (len (repo_resolved owner name since (store st)))
                (utcnow_end p)])%list
    /\ log_exists owner name (store st') = false.
Proof.
  intros Hd Hkr Hko Hsr Hso Hb.
  pose proof (run_leaves_intro st (new_log p owner name login)
                (repo_resolved owner name since (store st))
                (repo_open owner name since (store st)) (utcnow_end p)) as Hrun.
  rewrite <- get_dataset_for_repo_free in Hrun by exact Hb.
  unfold run_leaves in Hrun.
  destruct (get_dataset_with_issues_returns (store st)
              (repo_resolved owner name since (store st))
              (repo_open owner name since (store st))
              (opened (new_log p owner name login) st) Hd Hkr Hko Hsr Hso)
    as (st2 & E); [repeat split|].
  rewrite E in Hrun. destruct Hrun as (st' & E' & Hlogs & _).
  exists st'. split; [exact E'|]. split; [exact Hlogs|].
  rewrite (log_exists_app _ _ _ _ _ Hlogs), <- log_exists_is_active, Hb.
  unfold is_active, close_log. simpl. apply andb_false_r.
Qed.

Lemma existsb_false_filter {A : Type} (f : A -> bool) (l : list A) :
  existsb f l = false -> filter f l = [].
Proof.
  induction l as [|x l IH]; simpl; [reflexivity|].
  destruct (f x); simpl; [discriminate | exact IH].
Qed.

Lemma is_active_new_log (p : Process) (owner name o n : string)
  (login : option string) :
  is_active o n (new_log p owner name login) = true -> o = owner /\ n = name.
Proof.
  unfold is_active, new_log. simpl.
  rewrite andb_true_r, andb_true_iff, !String.eqb_eq. intuition.
Qed.

(** The build logs of a run that found the lock free: the old ones
    followed by one log, which is the new log or its closed form. *)
Lemma free_run_logs (st : State) (l : DatasetBuildLog.t)
  (R : list ResolvedIssue.t) (O : list OpenIssue.t) (c : DatasetBuildLog.t) :
  let o := (get_dataset_with_issues R O ;;
            update_log (List.length (DatasetBuildLogs (store st))) c)
             (opened l st) in
  match o with
  | Ok _ st' =>
      DatasetBuildLogs (store st') = (DatasetBuildLogs (store st) ++ [c])%list
  | Raise _ st' =>
      DatasetBuildLogs (store st') = (DatasetBuildLogs (store st) ++ [l])%list
  end.
Proof.
  cbv zeta. unfold bind.
  pose proof (get_dataset_with_issues_DatasetBuildLogs R O (opened l st)) as Hf.
  destruct (get_dataset_with_issues R O (opened l st)) as [[] st2|e st2];
    simpl in Hf; [|exact Hf].
  simpl. rewrite Hf. apply replace_nth_last.
Qed.

Lemma lock_respected_snoc (db db' : Store) (l : DatasetBuildLog.t)
  (owner name : string) :
  lock_respected db ->
  log_exists owner name db = false ->
  (forall o n, is_active o n l = true -> o = owner /\ n = name) ->
  DatasetBuildLogs db' = (DatasetBuildLogs db ++ [l])%list ->
  lock_respected db'.
Proof.
  intros Hl Hb Ha E o n. rewrite E, filter_app, length_app. cbn [filter].
  destruct (is_active o n l) eqn:Hact.
  - destruct (Ha o n Hact) as [-> ->].
    rewrite log_exists_is_active in Hb.
    rewrite (existsb_false_filter _ _ Hb). simpl. lia.
  - specialize (Hl o n). simpl. lia.
Qed.

(** X24: mutual exclusion is kept: if the store holds at most one
    active build log per key, it still does after either entry point,
    whether the run exits early, returns or raises. *)
Theorem lock_invariant (p : Process) (st : State) :
  lock_respected (store st) ->
  (forall owner name since login,
      lock_respected
        (store (final_state (get_dataset_for_repo p owner name since login st))))
  /\ (forall since,
         lock_respected (store (final_state (get_dataset_all p since st)))).
Proof.
  intro Hl.
  assert (Hclosed : forall l a b c o n,
             is_active o n (close_log l a b c) = true -> False).
  { intros l a b c o n. unfold is_active, close_log. simpl.
    rewrite andb_false_r. discriminate. }
  assert (Hrun : forall owner name login R O c,
             log_exists owner name (store st) = false ->
             (forall o n, is_active o n c = true -> False) ->
             lock_respected
               (store (final_state
                         ((get_dataset_with_issues R O ;;
                           update_log (List.length (DatasetBuildLogs (store st)))
                                      c)
                            (opened (new_log p owner name login) st))))).
  { intros owner name login R O c Hb Hc.
    pose proof (free_run_logs st (new_log p owner name login) R O c) as Hlogs.
    cbv zeta in Hlogs.
    destruct ((get_dataset_with_issues R O ;; update_log _ c) _)
      as [[] st'|e st']; simpl.
    - apply (lock_respected_snoc (store st) _ c owner name); auto.
      intros o n Ho. destruct (Hc o n Ho).
    - apply (lock_respected_snoc (store st) _ (new_log p owner name login)
                                 owner name); auto.
      intros o n. apply is_active_new_log. }
  split.
  - intros owner name since login.
    destruct (log_exists owner name (store st)) eqn:Hb.
    + unfold get_dataset_for_repo, bind at 1, query. rewrite Hb. exact Hl.
    + rewrite get_dataset_for_repo_free by exact Hb.
      apply Hrun; [exact Hb|]. intros o n. apply Hclosed.
  - intro since. destruct (log_exists "" "" (store st)) eqn:Hb.
    + unfold get_dataset_all, bind at 1, query. rewrite Hb. exact Hl.
    + rewrite get_dataset_all_free by exact Hb.
      apply Hrun; [exact Hb|]. intros o n. apply Hclosed.
Qed.

(** X25: a per-repository run that finds the lock free and raises
    leaves its build log active, and from then on every run for the same
    key exits early: it logs that the repository is being updated and
    touches nothing.  A run that returns leaves the lock free. *)
Theorem lock_after_run (p : Process) (owner name : string) (since : Z)
  (login : option string) (st : State) :
  log_exists owner name (store st) = false ->
  (forall st' : State,
      get_dataset_for_repo p owner name since login st = Ok tt st' ->
      log_exists owner name (store st') = false)
  /\ (forall (e : exn) (st' : State),
         get_dataset_for_repo p owner name since login st = Raise e st' ->
         log_exists owner name (store st') = true
         /\ forall p' since' login',
             get_dataset_for_repo p' owner name since' login' st'
             = Ok tt (with_log st' INFO (AlreadyBeingUpdated owner name))).
Proof.
  intro Hb.
  pose proof (free_run_logs st (new_log p owner name login)
                (repo_resolved owner name since (store st))
                (repo_open owner name since (store st))
                (close_log (new_log p owner name login)
                   (len (repo_open owner name since (store st)))
                   (len (repo_resolved owner name since (store st)))
                   (utcnow_end p))) as Hlogs.
  cbv zeta in Hlogs. rewrite <- get_dataset_for_repo_free in Hlogs by exact Hb.
  split.
  - intros st' E. rewrite E in Hlogs.
    rewrite (log_exists_app _ _ _ _ _ Hlogs), <- log_exists_is_active, Hb.
    unfold is_active, close_log. simpl. apply andb_false_r.
  - intros e st' E. rewrite E in Hlogs.
    assert (Hbusy : log_exists owner name (store st') = true).
    { rewrite (log_exists_app _ _ _ _ _ Hlogs).
      unfold is_active, new_log. simpl.
      rewrite !String.eqb_refl. apply orb_true_r. }
    split; [exact Hbusy|].
    intros p' since' login'.
    unfold get_dataset_for_repo, bind at 1, query. now rewrite Hbusy.
Qed.

End RunCompletes.

Lemma run_completes_witness :
  exists st' : State (H := toy),
    get_dataset_for_repo proc "o" "r" 0 None st0 = Ok tt st'
    /\ log_exists "o" "r" (store st') = false.
Proof.
  assert (Hd : closed_issues_dated db0).
  { intros i Hi Hs. simpl in Hi.
    destruct Hi as [<-|[<-|[<-|[]]]]; discriminate. }
  destruct (run_completes (H := toy) proc "o" "r" 0 None st0 Hd)
    as (st' & E & _ & Hfree).
  - intros i [<-|[]]. split; eexists; reflexivity.
  - intros i [<-|[]]. split; eexists; reflexivity.
  - intros i [<-|[]]. split; vm_compute; reflexivity.
  - intros i [<-|[]]. vm_compute. reflexivity.
  - reflexivity.
  - exists st'. auto.
Defined.

Lemma lock_invariant_witness :
  lock_respected (store st_busy)
  /\ lock_respected
       (store (final_state (get_dataset_for_repo proc "o" "r" 0 None st_busy))).
Proof.
  assert (Hl : lock_respected (store st_busy)).
  { intros o n. simpl. destruct (is_active o n _); simpl; lia. }
  split; [exact Hl|].
  exact (proj1 (lock_invariant proc st_busy Hl) "o" "r" 0 None).
Defined.

Lemma lock_after_run_witness :
  log_exists "o" "r" (store st_broken) = false
  /\ exists (e : exn) (st' : State (H := toy)),
      get_dataset_for_repo proc "o" "r" 0 None st_broken = Raise e st'
      /\ log_exists "o" "r" (store st') = true
      /\ get_dataset_for_repo proc "o" "r" 50 None st'
         = Ok tt (with_log st' INFO (AlreadyBeingUpdated "o" "r")).
Proof.
  split; [reflexivity|].
  destruct (get_dataset_for_repo (H := toy) proc "o" "r" 0 None st_broken)
    as [[] st'|e st'] eqn:E; [vm_compute in E; discriminate|].
  destruct (proj2 (lock_after_run proc "o" "r" 0 None st_broken eq_refl)
              e st' E) as [Hb Hnext].
  exists e, st'. split; [reflexivity|]. split; [exact Hb|]. apply Hnext.
Defined.

(** ** The loop over the open issues *)

Lemma fold_max_spec (l : list Z) (a : Z) :
  a <= fold_left Z.max l a
  /\ (forall x, In x l -> x <= fold_left Z.max l a)
  /\ (fold_left Z.max l a = a \/ In (fold_left Z.max l a) l).
Proof.
  revert a; induction l as [|y l IH]; intro a; simpl.
  - split; [lia|]. split; [intros x []|auto].
  - destruct (IH (Z.max a y)) as (H1 & H2 & H3).
    split; [lia|]. split.
    + intros x [<-|Hx]; [lia | auto].
    + destruct H3 as [E|Hin]; [|auto].
      rewrite E. destruct (Z.max_spec a y) as [[_ ->]|[_ ->]]; auto.
Qed.

Section OpenLoop.
Context `{Collaborators}.

(** X26: [last_updated] is the creation time of an issue without
    events and otherwise the latest event time; the loop leaves an open
    issue alone (it only logs, calls no builder and changes no store)
    when the first snapshot of the issue has a cutoff at or after
    [last_updated]; and when the store has no snapshot of the issue, or
    the first one has an earlier cutoff, the loop does what one call of
    the builder at the update time of the issue does. *)
Theorem open_issue_up_to_date (i : OpenIssue.t) :
  (OpenIssue.events i = [] -> last_updated i = OpenIssue.created_at i)
  /\ (OpenIssue.events i <> [] ->
      (forall e, In e (OpenIssue.events i) ->
                 IssueEvent.time e <= last_updated i)
      /\ exists e, In e (OpenIssue.events i)
                   /\ IssueEvent.time e = last_updated i)
  /\ (forall (st : State) (d : Dataset.t),
         first (filter (dataset_key (Open i)) (Datasets (store st))) = Some d ->
         last_updated i <= Dataset.before d ->
         get_dataset_with_issues [] [i] st
         = Ok tt (with_log st INFO
                    (NoNeedToUpdate (OpenIssue.owner i) (OpenIssue.name i)
                                    (OpenIssue.number i))))
  /\ (forall st : State,
         match first (filter (dataset_key (Open i)) (Datasets (store st))) with
         | Some d => Dataset.before d < last_updated i
         | None => True
         end ->
         get_dataset_with_issues [] [i] st
         = match get_dataset (Open i) (OpenIssue.updated_at i) st with
           | Ok _ st' => Ok tt st'
           | Raise e st' => Raise e st'
           end
         /\ calls (final_state (get_dataset_with_issues [] [i] st))
            = (calls st ++ [(Open i, OpenIssue.updated_at i)])%list).
Proof.
  assert (Hmax : OpenIssue.events i <> [] ->
                 (forall e, In e (OpenIssue.events i) ->
                            IssueEvent.time e <= last_updated i)
                 /\ exists e, In e (OpenIssue.events i)
                              /\ IssueEvent.time e = last_updated i).
  { unfold last_updated. destruct (OpenIssue.events i) as [|e es];
      [intro Hn; now elim Hn|]. intros _.
    destruct (fold_max_spec (map IssueEvent.time es) (IssueEvent.time e))
      as (H1 & H2 & H3).
    split.
    - intros x [<-|Hx]; [exact H1|]. apply H2. now apply in_map.
    - destruct H3 as [E|Hin].
      + exists e. split; [now left | now rewrite E].
      + apply in_map_iff in Hin as (x & Hx & Hin).
        exists x. split; [now right | exact Hx]. }
  assert (Hkey : forall st : State,
             up_to_date i (store st)
             = match first (filter (dataset_key (Open i))
                              (Datasets (store st))) with
               | Some d => Dataset.before d >=? last_updated i
               | None => false
               end).
  { intro st. unfold up_to_date.
    rewrite (filter_ext _ (dataset_key (Open i))); [reflexivity|].
    intro x. unfold dataset_key. simpl.
    now rewrite (andb_comm (Dataset.name x == _)). }
  split; [unfold last_updated; now intros ->|]. split; [exact Hmax|].
  split.
  - intros st d Hd Hle.
    assert (Hup : up_to_date i (store st) = true).
    { rewrite Hkey, Hd. now apply Z.geb_le. }
    unfold get_dataset_with_issues. cbn [for_each].
    unfold bind, ret, open_body, bind, query. rewrite Hup. reflexivity.
  - intros st Hlt.
    assert (Hup : up_to_date i (store st) = false).
    { rewrite Hkey.
      destruct (first (filter _ (Datasets (store st)))) as [d|];
        [|reflexivity].
      rewrite Z.geb_leb. now apply Z.leb_gt. }
    assert (E : get_dataset_with_issues [] [i] st
                = match get_dataset (Open i) (OpenIssue.updated_at i) st with
                  | Ok _ st' => Ok tt st'
                  | Raise e st' => Raise e st'
                  end).
    { unfold get_dataset_with_issues. cbn [for_each].
      unfold bind, ret, open_body, bind, query. rewrite Hup.
      now destruct (get_dataset (Open i) (OpenIssue.updated_at i) st). }
    split; [exact E|].
    rewrite E, <- get_dataset_calls.
    now destruct (get_dataset (Open i) (OpenIssue.updated_at i) st).
Qed.

End OpenLoop.

(** ** A second run *)

Section SecondRun.
Context `{Collaborators}.

Lemma dataset_key_issue_key (issue : Issue) (d : Dataset.t) :
  dataset_key issue d = true
  <-> (Dataset.owner d, Dataset.name d, Dataset.number d) = issue_key issue.
Proof.
  unfold dataset_key, issue_key.
  rewrite !andb_true_iff, !String.eqb_eq, Z.eqb_eq. split.
  - intros [[-> ->] ->]. reflexivity.
  - intro E. injection E as -> -> ->. auto.
Qed.

Lemma dataset_key_other (issue issue' : Issue) (d : Dataset.t) :
  issue_key issue <> issue_key issue' ->
  dataset_key issue' d = true -> dataset_key issue d = false.
Proof.
  intros Hne Hk. destruct (dataset_key issue d) eqn:Hk'; [|reflexivity].
  apply dataset_key_issue_key in Hk, Hk'. elim Hne. congruence.
Qed.

Lemma first_In {A : Type} (l : list A) (x : A) : first l = Some x -> In x l.
Proof. destruct l; [discriminate|]. intro E. injection E as ->. now left. Qed.

Lemma In_first {A : Type} (l : list A) (x : A) :
  In x l -> exists y, first l = Some y.
Proof. destruct l as [|y l]; [contradiction | simpl; eauto]. Qed.

Lemma get_dataset_step (issue : Issue) (before : Z) (st : State) :
  builder_step issue (store st)
    (store (final_state (get_dataset issue before st))).
Proof.
  assert (Hnone : builder_step issue (store st)
                    (store (enter issue before st))).
  { split; [apply enter_RepoIssues|]. exists [].
    rewrite app_nil_r. split; [apply enter_Datasets | intros d []]. }
  rewrite get_dataset_cases. cbv zeta.
  destruct (first (filter _ (Datasets _))); [exact Hnone|].
  destruct (first (filter _ (RepoIssues _))) as [ri|]; [|exact Hnone].
  destruct (RepoIssue.is_pull ri); [exact Hnone|].
  destruct (compose_dataset _ _ _ _) as [data|e] eqn:Hc; [|exact Hnone].
  destruct (storable data); [|exact Hnone].
  split; [apply enter_RepoIssues|]. exists [data]. split.
  - rewrite <- (enter_Datasets issue before st).
    change (match issue with
            | Resolved _ => delete_stale issue (store st)
            | Open _ => store st
            end) with (store (enter issue before st)).
    remember (enter issue before st) as st1 eqn:E1. reflexivity.
  - intros d [<-|[]].
    destruct (compose_dataset_fields _ _ _ _ _ Hc) as (Ho & Hn & Hk & _ & Hr).
    split; [|exact Hr].
    unfold dataset_key. now rewrite Ho, Hn, Hk, !String.eqb_refl, Z.eqb_refl.
Qed.

Lemma get_dataset_Ok_step (issue : Issue) (before : Z) (st st' : State)
  (a : option Dataset.t) :
  get_dataset issue before st = Ok a st' ->
  builder_step issue (store st) (store st').
Proof.
  intro E. pose proof (get_dataset_step issue before st) as Hs.
  now rewrite E in Hs.
Qed.

(** A call that returns leaves its own pair settled. *)
Lemma get_dataset_settles (issue : Issue) (before : Z) (st st' : State)
  (a : option Dataset.t) :
  definitive issue ->
  get_dataset issue before st = Ok a st' ->
  settled (store st') issue before.
Proof.
  intros Hdef. rewrite get_dataset_cases. cbv zeta.
  destruct (first (filter _ (Datasets _))) as [d0|] eqn:He.
  { intro E. injection E as _ <-. split.
    - intro d. exact (enter_store_clean issue before st d).
    - left. exists d0. exact He. }
  destruct (first (filter _ (RepoIssues _))) as [ri|] eqn:Hri; [|discriminate].
  destruct (RepoIssue.is_pull ri) eqn:Hp.
  { intro E. injection E as _ <-. split.
    - intro d. exact (enter_store_clean issue before st d).
    - right. exists ri. auto. }
  destruct (compose_dataset _ _ _ _) as [data|e] eqn:Hc; [|discriminate].
  destruct (storable data); [|discriminate].
  intro E. injection E as _ <-.
  destruct (new_dataset_queries _ _ _ _ _ Hc) as [Hq Hs].
  change (match issue with
          | Resolved _ => delete_stale issue (store st)
          | Open _ => store st
          end) with (store (enter issue before st)).
  remember (enter issue before st) as st1 eqn:E1.
  unfold settled.
  cbn [with_log set_store store insert_dataset set_Datasets Datasets RepoIssues].
  split.
  - intros d Hd. apply in_app_or in Hd as [Hd|[<-|[]]]; [|now apply Hs].
    subst st1. exact (enter_store_clean issue before st d Hd).
  - left. exists data.
    rewrite filter_app, (first_None _ He). cbn [filter app].
    now rewrite Hq.
Qed.

(** A settled call returns and leaves the store as it is. *)
Lemma settled_noop (issue : Issue) (before : Z) (st : State) :
  settled (store st) issue before ->
  exists a st', get_dataset issue before st = Ok a st' /\ store st' = store st.
Proof.
  intros [Hclean Hcov].
  pose proof (enter_store_fixed issue before st Hclean) as Hst.
  rewrite get_dataset_cases. cbv zeta. rewrite Hst.
  destruct Hcov as [[d ->]|(ri & Hri & Hp)]; [eauto|].
  destruct (first (filter _ (Datasets _))); [eauto|].
  rewrite Hri, Hp. eauto.
Qed.

(** A call for a compatible issue keeps a settled pair settled. *)
Lemma settled_step (issue acting : Issue) (before : Z) (db db' : Store) :
  settled db issue before -> compatible issue acting ->
  builder_step acting db db' ->
  settled db' issue before.
Proof.
  intros [Hclean Hcov] [Hdef Hkeys] (Hri & added & Hds & Hadd).
  assert (Hnew : forall d, In d added -> survives issue d = true).
  { intros d Hd. destruct (Hadd d Hd) as [Hk Hr].
    destruct issue as [i|i]; [|reflexivity].
    unfold survives, stale. apply negb_true_iff.
    destruct acting as [j|j].
    - rewrite Hr. simpl in Hdef |- *. apply Z.eqb_neq in Hdef.
      rewrite Hdef. apply andb_false_r.
    - now rewrite (dataset_key_other _ _ d Hkeys Hk). }
  assert (Hkept : forall d, In d (Datasets db) ->
                            dataset_key issue d = true ->
                            survives acting d = true).
  { intros d Hd Hk. destruct acting as [j|j]; [|reflexivity].
    unfold survives, stale. apply negb_true_iff.
    destruct (dataset_key (Resolved j) d) eqn:Hkj; [|reflexivity].
    destruct issue as [i|i].
    - specialize (Hclean d Hd). unfold survives, stale in Hclean.
      rewrite Hk in Hclean. apply negb_true_iff in Hclean. exact Hclean.
    - apply not_eq_sym in Hkeys.
      now rewrite (dataset_key_other _ _ d Hkeys Hk) in Hkj. }
  split.
  - intros d Hd. rewrite Hds in Hd.
    apply in_app_or in Hd as [Hd|Hd]; [|now apply Hnew].
    apply filter_In in Hd as [Hd _]. now apply Hclean.
  - destruct Hcov as [[d0 Hd0]|Hpull]; [left | right; now rewrite Hri].
    apply first_In, filter_In in Hd0 as [Hd0 Hq].
    apply (In_first _ d0). apply filter_In. split; [|exact Hq].
    rewrite Hds. apply in_or_app. left. apply filter_In. split; [exact Hd0|].
    apply Hkept; [exact Hd0|]. now apply andb_true_iff in Hq as [Hq _].
Qed.

Lemma up_to_date_step (i j : OpenIssue.t) (db db' : Store) :
  up_to_date i db = true -> builder_step (Open j) db db' ->
  up_to_date i db' = true.
Proof.
  unfold up_to_date. intros Hup (_ & added & Hds & _).
  rewrite Hds. cbn [survives]. rewrite (filter_all (fun _ => true)) by auto.
  rewrite filter_app.
  destruct (filter _ (Datasets db)) as [|d l]; [discriminate | exact Hup].
Qed.

Lemma open_settled_step (i j : OpenIssue.t) (db db' : Store) :
  open_settled db i -> builder_step (Open j) db db' -> open_settled db' i.
Proof.
  intros [Hup|Hs] Hstep.
  - left. exact (up_to_date_step i j db db' Hup Hstep).
  - right. apply (settled_step (Open i) (Open j) _ db db' Hs); [|exact Hstep].
    split; exact I.
Qed.

(** The loop over the resolved issues settles the pairs it calls and
    keeps settled pairs settled. *)
Lemma resolved_loop_settles (l : list ResolvedIssue.t) (st st' : State) :
  (forall i, In i l -> definitive (Resolved i)) ->
  for_each l resolved_body st = Ok tt st' ->
  (forall issue before,
      settled (store st) issue before ->
      (forall j, In j l -> compatible issue (Resolved j)) ->
      settled (store st') issue before)
  /\ (forall i, In i l ->
                settled (store st') (Resolved i) (ResolvedIssue.created_at i)
                /\ settled (store st') (Resolved i)
                           (ResolvedIssue.resolved_at i)).
Proof.
  revert st; induction l as [|i l IH]; intros st Hdef Hrun.
  - simpl in Hrun. injection Hrun as <-. split; [auto | intros i []].
  - cbn [for_each] in Hrun. unfold bind at 1 in Hrun.
    destruct (resolved_body i st) as [[] st2|e st2] eqn:Hi; [|discriminate].
    unfold resolved_body, bind, ret in Hi.
    destruct (get_dataset (Resolved i) (ResolvedIssue.created_at i) st)
      as [a1 st1|e st1] eqn:E1; [|discriminate].
    destruct (get_dataset (Resolved i) (ResolvedIssue.resolved_at i) st1)
      as [a2 st2'|e st2'] eqn:E2; [|discriminate].
    injection Hi as ->.
    assert (Hdi : definitive (Resolved i)) by (apply Hdef; now left).
    assert (Hdl : forall j, In j l -> definitive (Resolved j))
      by (intros j Hj; apply Hdef; now right).
    destruct (IH st2 Hdl Hrun) as [Hkeep Hnew].
    pose proof (get_dataset_Ok_step _ _ _ _ _ E1) as S1.
    pose proof (get_dataset_Ok_step _ _ _ _ _ E2) as S2.
    assert (Hself : forall issue before,
               settled (store st) issue before ->
               compatible issue (Resolved i) ->
               settled (store st2) issue before).
    { intros issue before Hs Hc.
      apply (settled_step issue (Resolved i) before _ _
               (settled_step issue (Resolved i) before _ _ Hs Hc S1) Hc S2). }
    assert (Hcl : forall j, In j l ->
                            compatible (Resolved i) (Resolved j)).
    { intros j Hj. split; [now apply Hdl | exact I]. }
    split.
    + intros issue before Hs Hc. apply Hkeep.
      * apply Hself; [exact Hs|]. apply Hc. now left.
      * intros j Hj. apply Hc. now right.
    + intros j [<-|Hj]; [|now apply Hnew].
      split; apply Hkeep; try exact Hcl.
      * apply (settled_step _ (Resolved i) _ _ _
                 (get_dataset_settles _ _ _ _ _ Hdi E1)); [|exact S2].
        split; [exact Hdi | exact I].
      * exact (get_dataset_settles _ _ _ _ _ Hdi E2).
Qed.

(** The loop over the open issues settles the issues it goes through
    and keeps settled what was. *)
Lemma open_loop_settles (l : list OpenIssue.t) (st st' : State) :
  for_each l open_body st = Ok tt st' ->
  (forall issue before,
      settled (store st) issue before ->
      (forall j, In j l -> compatible issue (Open j)) ->
      settled (store st') issue before)
  /\ (forall i, open_settled (store st) i -> open_settled (store st') i)
  /\ (forall i, In i l -> open_settled (store st') i).
Proof.
  revert st; induction l as [|i l IH]; intros st Hrun.
  - simpl in Hrun. injection Hrun as <-.
    split; [auto|]. split; [auto|]. intros i [].
  - cbn [for_each] in Hrun. unfold bind at 1 in Hrun.
    destruct (open_body i st) as [[] st2|e st2] eqn:Hi; [|discriminate].
    destruct (IH st2 Hrun) as (Hkeep & Hokeep & Hnew).
    unfold open_body, bind, query, logger, ret in Hi.
    destruct (up_to_date i (store st)) eqn:Hup.
    + injection Hi as <-. cbn [store] in *.
      split; [|split].
      * intros issue before Hs Hc. apply Hkeep; [exact Hs|].
        intros j Hj. apply Hc. now right.
      * exact Hokeep.
      * intros j [<-|Hj]; [|now apply Hnew].
        apply Hokeep. now left.
    + destruct (get_dataset (Open i) (OpenIssue.updated_at i) st)
        as [a1 st1|e st1] eqn:E1; [|discriminate].
      injection Hi as ->.
      pose proof (get_dataset_Ok_step _ _ _ _ _ E1) as S1.
      split; [|split].
      * intros issue before Hs Hc. apply Hkeep.
        -- apply (settled_step issue (Open i) before _ _ Hs); [|exact S1].
           apply Hc. now left.
        -- intros j Hj. apply Hc. now right.
      * intros j Hj. apply Hokeep.
        exact (open_settled_step j i _ _ Hj S1).
      * intros j [<-|Hj]; [|now apply Hnew].
        apply Hokeep. right.
        exact (get_dataset_settles (Open i) _ _ _ _ I E1).
Qed.

Lemma resolved_loop_noop (l : list ResolvedIssue.t) (st : State) :
  (forall i, In i l ->
             settled (store st) (Resolved i) (ResolvedIssue.created_at i)
             /\ settled (store st) (Resolved i) (ResolvedIssue.resolved_at i)) ->
  exists st', for_each l resolved_body st = Ok tt st' /\ store st' = store st.
Proof.
  revert st; induction l as [|i l IH]; intros st Hs; [now exists st|].
  cbn [for_each]. unfold bind at 1, resolved_body, bind, ret.
  destruct (Hs i (or_introl eq_refl)) as [H1 H2].
  destruct (settled_noop _ _ st H1) as (a1 & st1 & -> & S1).
  rewrite <- S1 in H2.
  destruct (settled_noop _ _ st1 H2) as (a2 & st2 & -> & S2).
  destruct (IH st2) as (st' & E & S').
  { intros j Hj. rewrite S2, S1. apply Hs. now right. }
  exists st'. split; [exact E | congruence].
Qed.

Lemma open_loop_noop (l : list OpenIssue.t) (st : State) :
  (forall i, In i l -> open_settled (store st) i) ->
  exists st', for_each l open_body st = Ok tt st' /\ store st' = store st.
Proof.
  revert st; induction l as [|i l IH]; intros st Hs; [now exists st|].
  cbn [for_each]. unfold bind at 1, open_body, bind, query, logger, ret.
  destruct (up_to_date i (store st)) eqn:Hup.
  - destruct (IH (mkState (store st)
                    (logged st
                     ++ [(INFO, NoNeedToUpdate (OpenIssue.owner i)
                                  (OpenIssue.name i) (OpenIssue.number i))])
                    (calls st))) as (st' & E & S').
    { intros j Hj. apply Hs. now right. }
    exists st'. split; [exact E | exact S'].
  - destruct (Hs i (or_introl eq_refl)) as [Hu|H1]; [congruence|].
    destruct (settled_noop _ _ st H1) as (a1 & st1 & -> & S1).
    destruct (IH st1) as (st' & E & S').
    { intros j Hj. rewrite S1. apply Hs. now right. }
    exists st'. split; [exact E | congruence].
Qed.

(** X27: running the update a second time adds nothing.  When every
    resolved issue of the run has a resolver commit number other than
    -1, no open issue of the run shares its (owner, name, number) with a
    resolved one, and the processing returns, processing the same issues
    again returns and leaves the store exactly as the first pass left
    it. *)
Theorem second_run_changes_nothing (resolved_issues : list ResolvedIssue.t)
  (open_issues : list OpenIssue.t) (st st1 : State) :
  (forall i, In i resolved_issues ->
             ResolvedIssue.resolver_commit_num i <> -1) ->
  (forall i j, In i resolved_issues -> In j open_issues ->
               issue_key (Resolved i) <> issue_key (Open j)) ->
  get_dataset_with_issues resolved_issues open_issues st = Ok tt st1 ->
  exists st2,
    get_dataset_with_issues resolved_issues open_issues st1 = Ok tt st2
    /\ store st2 = store st1.
Proof.
  intros Hdef Hdisj Hrun.
  unfold get_dataset_with_issues, bind in Hrun.
  destruct (for_each resolved_issues resolved_body st) as [[] sta|e sta] eqn:Ea;
    [|discriminate].
  destruct (resolved_loop_settles _ _ _ Hdef Ea) as [_ Hres].
  destruct (open_loop_settles _ _ _ Hrun) as (Hkeep & _ & Hopen).
  assert (Hres1 : forall i, In i resolved_issues ->
            settled (store st1) (Resolved i) (ResolvedIssue.created_at i)
            /\ settled (store st1) (Resolved i)
                       (ResolvedIssue.resolved_at i)).
  { intros i Hi. destruct (Hres i Hi) as [H1 H2].
    split; apply Hkeep; auto;
      intros j Hj; (split; [exact I | exact (Hdisj i j Hi Hj)]). }
  destruct (resolved_loop_noop resolved_issues st1 Hres1) as (stb & Eb & Sb).
  destruct (open_loop_noop open_issues stb) as (st2 & E2 & S2).
  { intros j Hj. rewrite Sb. now apply Hopen. }
  exists st2. unfold get_dataset_with_issues, bind. rewrite Eb.
  split; [exact E2 | congruence].
Qed.

End SecondRun.

Lemma second_run_changes_nothing_witness :
  exists st1 st2 : State (H := toy),
    get_dataset_with_issues [resolved1] [open3] st0 = Ok tt st1
    /\ List.length (Datasets (store st1)) = 3%nat
    /\ get_dataset_with_issues [resolved1] [open3] st1 = Ok tt st2
    /\ store st2 = store st1.
Proof.
  pose (o := get_dataset_with_issues (H := toy) [resolved1] [open3] st0).
  assert (Ho : returned o = Some tt
               /\ List.length (Datasets (store (final_state o))) = 3%nat)
    by (split; vm_compute; reflexivity).
  destruct o as [[] st1|e st1] eqn:E;
    [|destruct Ho as [Ho _]; discriminate Ho].
  destruct (second_run_changes_nothing [resolved1] [open3] st0 st1)
    as (st2 & E2 & S2).
  - intros i [<-|[]]. simpl. lia.
  - intros i j [<-|[]] [<-|[]]. discriminate.
  - exact E.
  - exists st1, st2. repeat split; auto. apply Ho.
Defined.

Lemma open_issue_up_to_date_witness :
  get_dataset_with_issues [] [open3e] st_open3
  = Ok tt (with_log st_open3 INFO (NoNeedToUpdate "o" "r" 3))
  /\ calls (final_state
              (get_dataset_with_issues [] [open3]
                 (final_state (get_dataset (Open open3) 10 st0))))
     = [(Open open3, 10); (Open open3, 14)].
Proof.
  split.
  - pose (ds := filter (dataset_key (Open open3e)) (Datasets (store st_open3))).
    assert (Hd : exists d, first ds = Some d /\ Dataset.before d = 16)
      by (eexists; split; vm_compute; reflexivity).
    destruct Hd as (d & Hd & Hb).
    apply (proj1 (proj2 (proj2 (open_issue_up_to_date open3e))) st_open3 d Hd).
    rewrite Hb. unfold last_updated. simpl. lia.
  - pose (st := final_state (get_dataset (H := toy) (Open open3) 10 st0)).
    assert (Hlt : match first (filter (dataset_key (Open open3))
                                 (Datasets (store st))) with
                  | Some d => Dataset.before d < last_updated open3
                  | None => True
                  end) by (vm_compute; reflexivity).
    assert (Hc : calls st = [(Open open3, 10)]) by (vm_compute; reflexivity).
    destruct (proj2 (proj2 (proj2 (open_issue_up_to_date open3))) st Hlt)
      as [_ Hcalls].
    fold st. rewrite Hcalls, Hc. reflexivity.
Defined.
